(** * Scoring-table extractor (tools/scoring-table-extractor/index.js)

    A shallow embedding of the extraction engine of the World Athletics
    scoring-table extractor: the clean-and-sort pass, the row tokenizer and
    row mapper, the aggregator, the merge with a prior export, the exporter
    and the event-name normalizer.

    Modelling conventions.
    - A JavaScript string is a [string] of 8-bit code units: every string
      of the model is a JS string whose UTF-16 code units are all below 256.
      The character classes of the (non-unicode) regular expressions are
      taken over that range: [\d] and [\w] are ASCII, [\s] is
      TAB, LF, VT, FF, CR, SPACE and NO-BREAK SPACE (160).
    - A plain JS object used as a dictionary is an association list in
      property order, a new key being appended at the end (JavaScript
      lists integer-like keys first; no property below depends on the
      order of keys).
    - Points are integers ([Z]); a JS [number] that is NaN is [None]. *)

From Stdlib Require Import ZArith List String Ascii Bool Lia.
Import ListNotations.
Open Scope string_scope.
Open Scope list_scope.

(* ------------------------------------------------------------------ *)
(** ** Characters and strings *)

Definition code (c : ascii) : nat := nat_of_ascii c.

Definition is_digit (c : ascii) : bool :=
  (48 <=? code c)%nat && (code c <=? 57)%nat.

Definition is_upper (c : ascii) : bool :=
  (65 <=? code c)%nat && (code c <=? 90)%nat.

Definition is_lower (c : ascii) : bool :=
  (97 <=? code c)%nat && (code c <=? 122)%nat.

(** [\w] of a non-unicode JS regular expression: [A-Za-z0-9_]. *)
Definition is_word (c : ascii) : bool :=
  is_digit c || is_upper c || is_lower c || (code c =? 95)%nat.

(** [\s] of a JS regular expression (and the set removed by [trim]),
    restricted to code units below 256. *)
Definition is_ws (c : ascii) : bool :=
  ((9 <=? code c)%nat && (code c <=? 13)%nat) || (code c =? 32)%nat
  || (code c =? 160)%nat.

(** Membership of a character in a string. *)
Fixpoint str_has (p : ascii -> bool) (s : string) : bool :=
  match s with
  | EmptyString => false
  | String c s' => p c || str_has p s'
  end.

(* ------------------------------------------------------------------ *)
(** ** Data model *)

(** A stored [{performance, points}] object. *)
Record ScoringEntry := mkEntry { performance : string; points : Z }.

(** A JS object used as a dictionary, in property order. *)
Definition obj (V : Type) := list (string * V).

Fixpoint obj_get {V} (k : string) (o : obj V) : option V :=
  match o with
  | [] => None
  | (k', v) :: o' => if String.eqb k k' then Some v else obj_get k o'
  end.

(** [o[k] = v]: overwrite in place, or append a new property. *)
Fixpoint obj_set {V} (k : string) (v : V) (o : obj V) : obj V :=
  match o with
  | [] => [(k, v)]
  | (k', v') :: o' =>
      if String.eqb k k' then (k', v) :: o' else (k', v') :: obj_set k v o'
  end.

(** [this.tables]: gender -> category -> event -> entries. *)
Definition Table (A : Type) := obj (obj (obj (list A))).

(* ------------------------------------------------------------------ *)
(** ** Clean-and-sort pass ([cleanAndSortData], lines 574-597) *)

(** The entries are duck-typed JS objects read through their
    [performance] and [points] fields; the pass is stated for any type of
    such objects (an object is also its identity). *)
Class HasEntryFields (E : Type) := {
  e_performance : E -> string;
  e_points : E -> Z }.

#[global] Instance ScoringEntry_fields : HasEntryFields ScoringEntry :=
  { e_performance := performance; e_points := points }.

Section CleanSort.
Context {E : Type} `{HasEntryFields E}.

(** The [Map] of the deduplication loop, keyed by performance, in
    insertion order (a [set] on a present key keeps its position). *)
Definition dedup_step (m : obj E) (entry : E) : obj E :=
  let key := e_performance entry in
  match obj_get key m with
  | None => obj_set key entry m
  | Some old =>
      if (e_points old <? e_points entry)%Z then obj_set key entry m else m
  end.

Definition uniqueValues (entries : list E) : list E :=
  map snd (fold_left dedup_step entries []).

(** [Array.prototype.sort] with comparator [(a, b) => b.points - a.points].
    The comparator is consistent and the sort is stable (ES2019), so the
    result is the unique stable ordering by points descending; it is
    computed here by insertion, a later element going after every earlier
    one with at least its points. *)
Fixpoint insert_desc (e : E) (l : list E) : list E :=
  match l with
  | [] => [e]
  | x :: l' =>
      if (e_points x <? e_points e)%Z then e :: x :: l' else x :: insert_desc e l'
  end.

Definition sort_desc (l : list E) : list E :=
  fold_left (fun acc e => insert_desc e acc) l [].

(** The body of the innermost loop for one event's entries. *)
Definition cleanEntries (entries : list E) : list E :=
  sort_desc (uniqueValues entries).

Definition sorted_desc (l : list E) : Prop :=
  forall i e1 e2, nth_error l i = Some e1 -> nth_error l (S i) = Some e2 ->
    (e_points e2 <= e_points e1)%Z.

Definition strictly_desc (l : list E) : Prop :=
  forall i e1 e2, nth_error l i = Some e1 -> nth_error l (S i) = Some e2 ->
    (e_points e2 < e_points e1)%Z.

(** Every observed performance is kept once, by an observed entry whose
    points are the maximum over the entries with that performance. *)
Definition keeps_max (l l' : list E) : Prop :=
  forall p, (exists e, In e l /\ e_performance e = p) ->
    exists e', In e' l' /\ In e' l /\ e_performance e' = p /\
      forall e, In e l -> e_performance e = p -> (e_points e <= e_points e')%Z.

End CleanSort.

Definition cleanAndSortData (t : Table ScoringEntry) : Table ScoringEntry :=
  map (fun '(g, cats) =>
         (g, map (fun '(c, evs) =>
                    (c, map (fun '(e, entries) => (e, cleanEntries entries))
                            evs))
                 cats))
      t.

(** Every (gender, category, event) leaf of a table, in order. *)
Definition leaves {A} (t : Table A) : list (string * string * string * list A) :=
  flat_map (fun '(g, cats) =>
    flat_map (fun '(c, evs) =>
      map (fun '(e, l) => (g, c, e, l)) evs) cats) t.

(* ------------------------------------------------------------------ *)
(** ** JS string primitives *)

(** [s.substring(k)] for a natural [k]. *)
Fixpoint str_drop (k : nat) (s : string) : string :=
  match k, s with
  | O, _ => s
  | S k', String _ s' => str_drop k' s'
  | S _, EmptyString => EmptyString
  end.

Fixpoint str_take (k : nat) (s : string) : string :=
  match k, s with
  | O, _ => EmptyString
  | S k', String c s' => String c (str_take k' s')
  | S _, EmptyString => EmptyString
  end.

(** [s.substring(a, b)]: both bounds clamped to [0, length], then
    swapped when [a > b]. *)
Definition js_substring (s : string) (a b : Z) : string :=
  let len := Z.of_nat (String.length s) in
  let a' := Z.max 0 (Z.min a len) in
  let b' := Z.max 0 (Z.min b len) in
  let from := Z.min a' b' in
  let to_ := Z.max a' b' in
  str_take (Z.to_nat (to_ - from)) (str_drop (Z.to_nat from) s).

Fixpoint find_from (k : nat) (search rest : string) : option nat :=
  if String.prefix search rest then Some k
  else match rest with
       | EmptyString => None
       | String _ r => find_from (S k) search r
       end.

(** [s.indexOf(search, pos)], [-1] when absent. *)
Definition js_indexOf (s search : string) (pos : Z) : Z :=
  let len := Z.of_nat (String.length s) in
  let start := Z.to_nat (Z.max 0 (Z.min pos len)) in
  match find_from start search (str_drop start s) with
  | Some k => Z.of_nat k
  | None => (-1)%Z
  end.

Fixpoint trim_start (s : string) : string :=
  match s with
  | String c s' => if is_ws c then trim_start s' else s
  | EmptyString => EmptyString
  end.

(** [s.trim()]. *)
Definition js_trim (s : string) : string :=
  string_of_list_ascii (rev (list_ascii_of_string
    (trim_start (string_of_list_ascii (rev (list_ascii_of_string
       (trim_start s))))))).

(** [s.split(c)] at every character satisfying [sep] (empty pieces kept). *)
Fixpoint split_at (sep : ascii -> bool) (cur : string) (s : string)
  : list string :=
  match s with
  | EmptyString => [cur]
  | String c s' =>
      if sep c then cur :: split_at sep EmptyString s'
      else split_at sep (cur ++ String c EmptyString) s'
  end.

(** [line.split(/\s+/).filter(col => col.trim())]: cutting at every
    whitespace character and dropping the empty pieces gives the same
    list as cutting at whitespace runs and dropping the empty ends. *)
Definition split_tokens (line : string) : list string :=
  filter (fun col => negb (String.eqb (js_trim col) EmptyString))
         (split_at is_ws EmptyString line).

(* ------------------------------------------------------------------ *)
(** ** Row reconstruction ([parseCrossReferencedRow], lines 271-322) *)

Fixpoint digit_run (s : string) : nat :=
  match s with
  | String c s' => if is_digit c then S (digit_run s') else O
  | EmptyString => O
  end.

Definition is_sep (c : ascii) : bool :=
  (code c =? 46)%nat || (code c =? 58)%nat.   (* '.' or ':' *)

(** [/^\d+[\.:]\d+$/]. *)
Definition is_simple_value (s : string) : bool :=
  let n := digit_run s in
  (0 <? n)%nat &&
  match str_drop n s with
  | String c r => is_sep c && (0 <? digit_run r)%nat
                  && (digit_run r =? String.length r)%nat
  | EmptyString => false
  end.

(** One attempt of [/\d+[\.:]\d{2}/] at the start of [s]: the greedy
    [\d+] can only succeed with the whole digit run (a shorter run is
    followed by a digit, not by [.] or [:]).  Returns the match length. *)
Definition perf_match_at (s : string) : option nat :=
  let n := digit_run s in
  if (n =? 0)%nat then None
  else match str_drop n s with
       | String c (String d1 (String d2 _)) =>
           if is_sep c && is_digit d1 && is_digit d2 then Some (n + 3)%nat
           else None
       | _ => None
       end.

(** [token.match(/\d+[\.:]\d{2}/g)]: the matches, left to right, each
    search resuming at the end of the previous match ([[]] for [null]). *)
Fixpoint perf_matches (fuel : nat) (s : string) : list string :=
  match fuel with
  | O => []
  | S f =>
      match s with
      | EmptyString => []
      | String _ s' =>
          match perf_match_at s with
          | Some n => str_take n s :: perf_matches f (str_drop n s)
          | None => perf_matches f s'
          end
      end
  end.

Definition token_matches (token : string) : list string :=
  perf_matches (S (String.length token)) token.

(** [for (const char of str) if (char === '-') parts.push('-')]. *)
Fixpoint dashes (s : string) : list string :=
  match s with
  | EmptyString => []
  | String c s' => if (code c =? 45)%nat then "-" :: dashes s' else dashes s'
  end.

(** The loop over the matches: the parts so far and [lastIndex]. *)
Definition reconstruct_loop (token : string) (ms : list string)
  : list string * Z :=
  fold_left (fun '(parts, lastIndex) m =>
               let matchIndex := js_indexOf token m lastIndex in
               let beforeMatch := js_substring token lastIndex matchIndex in
               (parts ++ dashes beforeMatch ++ [m],
                (matchIndex + Z.of_nat (String.length m))%Z))
            ms ([], 0%Z).

(** The callback of [allTokens.flatMap]. *)
Definition reconstruct_token (token : string) : list string :=
  if String.eqb token "-" || String.eqb token "--" || is_simple_value token
  then (if String.eqb token "--" then ["-"; "-"] else [token])
  else
    match token_matches token with
    | [] => [token]
    | ms =>
        let '(parts, lastIndex) := reconstruct_loop token ms in
        let afterMatches :=
          js_substring token lastIndex (Z.of_nat (String.length token)) in
        let parts' := parts ++ dashes afterMatches in
        match parts' with [] => [token] | _ => parts' end
    end.

Definition reconstruct_tokens (line : string) : list string :=
  flat_map reconstruct_token (split_tokens line).

(* ------------------------------------------------------------------ *)
(** ** Row mapping ([parseCrossReferencedRow], lines 324-365) *)

(** Value of a digit in radix 16 (a radix-10 digit is one below 10). *)
Definition hex_value (c : ascii) : option Z :=
  let n := code c in
  if (48 <=? n)%nat && (n <=? 57)%nat then Some (Z.of_nat (n - 48))
  else if (97 <=? n)%nat && (n <=? 102)%nat then Some (Z.of_nat (n - 87))
  else if (65 <=? n)%nat && (n <=? 70)%nat then Some (Z.of_nat (n - 55))
  else None.

Definition radix_digit (radix : Z) (c : ascii) : option Z :=
  match hex_value c with
  | Some v => if (v <? radix)%Z then Some v else None
  | None => None
  end.

(** The longest prefix of radix digits, read as a number, with the
    number of digits read. *)
Fixpoint read_digits (radix acc : Z) (k : nat) (s : string) : Z * nat :=
  match s with
  | String c s' =>
      match radix_digit radix c with
      | Some v => read_digits radix (acc * radix + v)%Z (S k) s'
      | None => (acc, k)
      end
  | EmptyString => (acc, k)
  end.

(** [parseInt(s)] (no radix argument): leading whitespace skipped, an
    optional sign, a [0x]/[0X] prefix selecting radix 16, then the
    longest digit prefix; [None] is NaN.  [-0] is the integer 0. *)
Definition js_parseInt (s : string) : option Z :=
  let s1 := trim_start s in
  let '(sign, s2) :=
    match s1 with
    | String c r =>
        if (code c =? 45)%nat then ((-1)%Z, r)
        else if (code c =? 43)%nat then (1%Z, r) else (1%Z, s1)
    | EmptyString => (1%Z, s1)
    end in
  let '(radix, s3) :=
    if String.prefix "0x" s2 || String.prefix "0X" s2
    then (16%Z, str_drop 2 s2) else (10%Z, s2) in
  let '(v, k) := read_digits radix 0 0 s3 in
  if (k =? 0)%nat then None else Some (sign * v)%Z.

(** [parsePerformanceValue]: [/^[\d:.]+$/] or null. *)
Definition parsePerformanceValue (value : string) : option string :=
  if String.eqb value "" || String.eqb value "-" then None
  else if forallb (fun c => is_digit c || is_sep c) (list_ascii_of_string value)
  then Some value else None.

Inductive Side := Left | Right.

Record DataRow := mkRow {
  row_points : option Z;
  row_performances : list (option string);
  row_events : list string }.

(** [isNaN(points) || points < 0 || points > 1500]. *)
Definition points_rejected (p : option Z) : bool :=
  match p with None => true | Some n => (n <? 0)%Z || (1500 <? n)%Z end.

Definition map_performances (eventHeaders performanceValues : list string)
  : list (option string) :=
  map (fun i => match nth_error performanceValues i with
                | Some v => parsePerformanceValue v
                | None => None
                end)
      (seq 0 (List.length eventHeaders)).

Definition parseCrossReferencedRow (line : string) (eventHeaders : list string)
  (pointsPosition : option Side) : option DataRow :=
  let allTokens := reconstruct_tokens line in
  match allTokens with
  | [] => None
  | first :: rest =>
      let mk points vals :=
        Some (mkRow points (map_performances eventHeaders vals) eventHeaders) in
      match pointsPosition with
      | Some Left =>
          let points := js_parseInt first in
          if points_rejected points then None else mk points rest
      | Some Right =>
          let points := js_parseInt (last allTokens EmptyString) in
          if points_rejected points then None else mk points (removelast allTokens)
      | None => mk None []
      end
  end.

(* ------------------------------------------------------------------ *)
(** ** Aggregation ([storeCrossReferencedData], lines 401-456) *)

(** The parser state's [{gender, category}]. *)
Record Section := mkSection { sec_gender : option string;
                              sec_category : option string }.

(** JS truthiness of a string that may be null. *)
Definition truthy (o : option string) : bool :=
  match o with Some s => negb (String.eqb s "") | None => false end.

(** [!points] for a number that may be null. *)
Definition points_falsy (p : option Z) : bool :=
  match p with None => true | Some n => (n =? 0)%Z end.

(** [/mix/.test(s)]. *)
Definition contains (needle s : string) : bool :=
  match find_from 0 needle s with Some _ => true | None => false end.

Definition obj_get_or {V} (d : V) (k : string) (o : obj V) : V :=
  match obj_get k o with Some v => v | None => d end.

Section Store.

(** [getCategoryForEvent] of [events-config.js]: the catalog category of
    an event key, or undefined.  The module is not part of the sources;
    the aggregator is verified for every such function.  ([isKnownEvent]
    only prints a warning and is not modelled; console output is not
    modelled.) *)
Variable getCategory : string -> option string.

(** One iteration of the loop over [(performance, eventName)]. *)
Definition store_pair (section : Section) (points : Z)
  (t : Table ScoringEntry) (pe : option string * string)
  : Table ScoringEntry :=
  let '(performance, eventName) := pe in
  if negb (truthy performance) || String.eqb eventName "" then t else
  let perf := match performance with Some p => p | None => "" end in
  let eventGender :=
    if contains "mix" eventName then "mixed"
    else match sec_gender section with Some g => g | None => "" end in
  let t1 := match obj_get eventGender t with
            | Some _ => t
            | None => obj_set eventGender [] t
            end in
  let eventCategory :=
    let c := getCategory eventName in
    if truthy c then c else sec_category section in
  if negb (truthy eventCategory) then t1 else
  let cat := match eventCategory with Some c => c | None => "" end in
  let cats := obj_get_or [] eventGender t1 in
  let evs := obj_get_or [] cat cats in
  let entries := obj_get_or [] eventName evs in
  obj_set eventGender
    (obj_set cat
       (obj_set eventName (entries ++ [mkEntry perf points]) evs) cats) t1.

Definition storeCrossReferencedData (section : Section) (dataRow : DataRow)
  (t : Table ScoringEntry) : Table ScoringEntry :=
  if negb (truthy (sec_gender section)) || points_falsy (row_points dataRow)
  then t
  else
    let points := match row_points dataRow with Some n => n | None => 0%Z end in
    fold_left (store_pair section points) (combine (row_performances dataRow)
                                                   (row_events dataRow)) t.

End Store.

(* ------------------------------------------------------------------ *)
(** ** JSON values *)

(** A value produced by [JSON.parse] (numbers are integers). *)
Set Warnings "-register-all".
Inductive json :=
| JNull
| JBool (b : bool)
| JNum (n : Z)
| JStr (s : string)
| JArr (l : list json)
| JObj (l : list (string * json)).

(** Decimal numeral of a natural number. *)
Fixpoint nat_str_aux (fuel n : nat) (acc : string) : string :=
  match fuel with
  | O => acc
  | S f =>
      let acc' := String (ascii_of_nat (48 + n mod 10)) acc in
      if (n <? 10)%nat then acc' else nat_str_aux f (n / 10) acc'
  end.

Definition nat_to_string (n : nat) : string := nat_str_aux (S n) n "".

Definition indexed {X} (l : list X) : list (string * X) :=
  combine (map nat_to_string (seq 0 (List.length l))) l.

Fixpoint str_chars (s : string) : list json :=
  match s with
  | EmptyString => []
  | String c s' => JStr (String c EmptyString) :: str_chars s'
  end.

(* ------------------------------------------------------------------ *)
(** ** Merge with a prior export ([loadAndMerge], lines 461-495) *)

Inductive logline := Info (msg : string) | Warn (msg : string).

(** A computation that may throw: the state reached so far is kept when
    an exception is thrown (the tables are mutated in place). *)
Inductive result (X : Type) := Ok (x : X) | Throw (msg : string).
Arguments Ok {X} x.
Arguments Throw {X} msg.

Section Merge.

(** The in-memory entries: a parsed JSON value [v] is pushed as
    [of_json v] (in JavaScript the value itself). *)
Variable A : Type.
Variable of_json : json -> A.

(** The file system and [JSON.parse]: [inl msg] is a thrown error. *)
Variable existsSync : string -> bool.
Variable readFileSync : string -> string + string.
Variable json_parse : string -> string + json.

Record State := mkState { tables : Table A; logs : list logline }.

Definition M (X : Type) := State -> State * result X.

Definition ret {X} (x : X) : M X := fun st => (st, Ok x).

Definition bind {X Y} (m : M X) (k : X -> M Y) : M Y :=
  fun st => match m st with
            | (st', Ok x) => k x st'
            | (st', Throw e) => (st', Throw e)
            end.

Definition throw {X} (msg : string) : M X := fun st => (st, Throw msg).

Definition lift {X} (r : string + X) : M X :=
  match r with inl e => throw e | inr x => ret x end.

Definition modify (f : Table A -> Table A) : M unit :=
  fun st => (mkState (f (tables st)) (logs st), Ok tt).

Definition get_tables : M (Table A) := fun st => (st, Ok (tables st)).

Definition log (l : logline) : M unit :=
  fun st => (mkState (tables st) (logs st ++ [l]), Ok tt).

Notation "x <- m ;; k" := (bind m (fun x => k)) (at level 61, m at next level,
                                                right associativity).
Notation "m ;;; k" := (bind m (fun _ => k)) (at level 61, right associativity).

Fixpoint for_each {X} (l : list X) (body : X -> M unit) : M unit :=
  match l with
  | [] => ret tt
  | x :: l' => body x ;;; for_each l' body
  end.

(** [Object.entries(v)]. *)
Definition object_entries (v : json) : M (list (string * json)) :=
  match v with
  | JNull => throw "Cannot convert undefined or null to object"
  | JBool _ | JNum _ => ret []
  | JStr s => ret (indexed (str_chars s))
  | JArr l => ret (indexed l)
  | JObj kvs => ret kvs
  end.

(** The elements spread by [...v]. *)
Definition spread (v : json) : M (list json) :=
  match v with
  | JArr l => ret l
  | JStr s => ret (str_chars s)
  | _ => throw "Spread syntax requires an iterable"
  end.

(** [if (!tables[g]) tables[g] = {}] and the deeper analogues. *)
Definition ensure_gender (g : string) (t : Table A) : Table A :=
  match obj_get g t with Some _ => t | None => obj_set g [] t end.

Definition ensure_category (g c : string) (t : Table A) : Table A :=
  let cats := obj_get_or [] g t in
  match obj_get c cats with
  | Some _ => t
  | None => obj_set g (obj_set c [] cats) t
  end.

Definition ensure_event (g c e : string) (t : Table A) : Table A :=
  let cats := obj_get_or [] g t in
  let evs := obj_get_or [] c cats in
  match obj_get e evs with
  | Some _ => t
  | None => obj_set g (obj_set c (obj_set e [] evs) cats) t
  end.

(** [tables[g][c][e].push(...xs)]. *)
Definition push_entries (g c e : string) (xs : list A) (t : Table A) : Table A :=
  let cats := obj_get_or [] g t in
  let evs := obj_get_or [] c cats in
  obj_set g (obj_set c (obj_set e (obj_get_or [] e evs ++ xs) evs) cats) t.

(** The body of the [try] block after [JSON.parse]. *)
Definition merge_existing (existingData : json) : M unit :=
  gs <- object_entries existingData ;;
  for_each gs (fun '(gender, categories) =>
    modify (ensure_gender gender) ;;;
    cs <- object_entries categories ;;
    for_each cs (fun '(category, events) =>
      modify (ensure_category gender category) ;;;
      es <- object_entries events ;;
      for_each es (fun '(eventName, entries) =>
        modify (ensure_event gender category eventName) ;;;
        xs <- spread entries ;;
        modify (push_entries gender category eventName (map of_json xs))))).

(** [try { ... } catch (error) { console.warn(...) }]. *)
Definition try_catch (body : M unit) (handler : string -> M unit) : M unit :=
  fun st => match body st with
            | (st', Ok tt) => (st', Ok tt)
            | (st', Throw e) => handler e st'
            end.

(** The console messages are reduced to their variable part. *)
Definition loadAndMerge (filePath : string) : M unit :=
  if negb (existsSync filePath) then ret tt
  else
    try_catch
      (contents <- lift (readFileSync filePath) ;;
       existingData <- lift (json_parse contents) ;;
       merge_existing existingData ;;;
       log (Info filePath))
      (fun message => log (Warn message)).

End Merge.

(* ------------------------------------------------------------------ *)
(** ** Data rows of one table ([parseContentEnhanced], lines 83-87) *)

(** The data-row branch of the scan loop for a run of body lines under
    one header and one section. *)
Definition ingest_rows (getCategory : string -> option string)
  (section : Section) (eventHeaders : list string) (side : option Side)
  (lines : list string) (t : Table ScoringEntry) : Table ScoringEntry :=
  fold_left (fun t line =>
               match parseCrossReferencedRow line eventHeaders side with
               | Some dataRow =>
                   match row_points dataRow with
                   | Some _ => storeCrossReferencedData getCategory section dataRow t
                   | None => t
                   end
               | None => t
               end) lines t.

(** The token a points column designates on a reconstructed row. *)
Definition points_token (side : Side) (toks : list string) : option string :=
  match toks with
  | [] => None
  | first :: _ => match side with
                  | Left => Some first
                  | Right => Some (last toks EmptyString)
                  end
  end.

(** A catalog mapping the sprint keys used in the examples below. *)
Definition sample_catalog (eventName : string) : option string :=
  if String.eqb eventName "100m" || String.eqb eventName "200m"
  then Some "sprints" else None.

(** Entries paired with an object identity, to tell apart two distinct
    objects with equal fields. *)
#[global] Instance tagged_entry_fields : HasEntryFields (nat * ScoringEntry) :=
  { e_performance := fun p => performance (snd p);
    e_points := fun p => points (snd p) }.

(* ------------------------------------------------------------------ *)
(** ** Event-name normalizer ([normalizeEventName], lines 191-263) *)

Fixpoint ws_run (s : string) : nat :=
  match s with
  | String c s' => if is_ws c then S (ws_run s') else O
  | EmptyString => O
  end.

Definition first_char (s : string) : option ascii :=
  match s with String c _ => Some c | EmptyString => None end.

Definition is_word_opt (o : option ascii) : bool :=
  match o with Some c => is_word c | None => false end.

(** No word character at position [k] of [s]: a [\b] after a word
    character ending at [k]. *)
Definition nonword_at (k : nat) (s : string) : bool :=
  negb (is_word_opt (first_char (str_drop k s))).

Fixpoint starts_with (p s : string) : bool :=
  match p, s with
  | EmptyString, _ => true
  | String a p', String b s' => Ascii.eqb a b && starts_with p' s'
  | String _ _, EmptyString => false
  end.

(** [re.test(s)] for an unanchored literal [re]. *)
Fixpoint str_contains (w s : string) : bool :=
  starts_with w s ||
  match s with String _ s' => str_contains w s' | EmptyString => false end.

Fixpoint str_map (f : ascii -> ascii) (s : string) : string :=
  match s with
  | String c s' => String (f c) (str_map f s')
  | EmptyString => EmptyString
  end.

(** [toLowerCase] on a code unit below 256: [A-Z] and [U+00C0-U+00DE]
    except the multiplication sign [U+00D7]. *)
Definition lower_char (c : ascii) : ascii :=
  let n := code c in
  if ((65 <=? n)%nat && (n <=? 90)%nat)
     || ((192 <=? n)%nat && (n <=? 222)%nat && negb (n =? 215)%nat)
  then ascii_of_nat (n + 32) else c.

Definition js_toLowerCase (s : string) : string := str_map lower_char s.

(** One attempt of a global regular expression at the start of [s],
    [prev] being the character before it (for [\b]): [Some (n, r)] is a
    match of length [S n] (no expression below matches the empty string),
    to be replaced by [r]. *)
Definition matcher := option ascii -> string -> option (nat * string).

(** [s.replace(re, ...)] with a global [re]: the attempts go left to
    right, the next one starting at the end of the previous match ([skip]
    counts the characters of a match still to pass over). *)
Fixpoint gsub_from (step : matcher) (skip : nat) (prev : option ascii)
  (s : string) {struct s} : string :=
  match skip with
  | S k => match s with
           | String c s' => gsub_from step k (Some c) s'
           | EmptyString => EmptyString
           end
  | O => match step prev s with
         | Some (n, r) =>
             match s with
             | String c s' => (r ++ gsub_from step n (Some c) s')%string
             | EmptyString => r
             end
         | None =>
             match s with
             | String c s' => String c (gsub_from step O (Some c) s')
             | EmptyString => EmptyString
             end
         end
  end.

Definition js_replace_all (step : matcher) (s : string) : string :=
  gsub_from step O None s.

(** [/\s+/g] replaced by [' ']. *)
Definition ws_step : matcher := fun _ s =>
  match s with
  | String c s' => if is_ws c then Some (ws_run s', " ") else None
  | EmptyString => None
  end.

(** [/^\d{1,2},\d{3}mw$/i]: the greedy [\d{1,2}] must be followed by the
    comma, so the digit run before it has length 1 or 2. *)
Definition is_mw (s : string) : bool :=
  String.eqb s "mw" || String.eqb s "mW" || String.eqb s "Mw" || String.eqb s "MW".

Definition is_comma_walk (s : string) : bool :=
  let n := digit_run s in
  ((n =? 1)%nat || (n =? 2)%nat) &&
  match str_drop n s with
  | String c r => (code c =? 44)%nat && (digit_run r =? 3)%nat && is_mw (str_drop 3 r)
  | EmptyString => false
  end.

(** [s.replace(/mw$/i, 'mW')]. *)
Definition replace_mw (s : string) : string :=
  let n := String.length s in
  if (2 <=? n)%nat && is_mw (str_drop (n - 2) s)
  then (str_take (n - 2) s ++ "mW")%string else s.

(** [/\bmiles\b/g] replaced by ['mile']. *)
Definition miles_step : matcher := fun prev s =>
  if negb (is_word_opt prev) && starts_with "miles" s && nonword_at 5 s
  then Some (4%nat, "mile") else None.

(** [(h|sh|sc|w)] up to the end of [s]. *)
Definition is_modifier (s : string) : bool :=
  String.eqb s "h" || String.eqb s "sh" || String.eqb s "sc" || String.eqb s "w".

(** [(\s+(h|sh|sc|w))?$] on the rest [s] of the subject: the greedy
    [\s+] takes the whole whitespace run (no modifier starts with
    whitespace). *)
Definition opt_ws_modifier (s : string) : bool :=
  String.eqb s EmptyString ||
  ((0 <? ws_run s)%nat && is_modifier (str_drop (ws_run s) s)).

(** [/^mile\s+(h|sh|sc|w)$/]. *)
Definition is_mile_modifier (s : string) : bool :=
  starts_with "mile" s && (0 <? ws_run (str_drop 4 s))%nat
  && is_modifier (str_drop (4 + ws_run (str_drop 4 s)) s).

(** The length of [\d+(?:\.\d+)?] at the start of [s], both [\d+] and the
    optional group taken greedily. *)
Definition number_len (s : string) : nat :=
  let n := digit_run s in
  match str_drop n s with
  | String c r =>
      if (code c =? 46)%nat && (0 <? digit_run r)%nat then (n + 1 + digit_run r)%nat
      else n
  | EmptyString => n
  end.

(** [(m|km|mile)\b]: the alternatives in order; the length of the unit. *)
Definition unit_b (s : string) : option nat :=
  if starts_with "m" s && nonword_at 1 s then Some 1%nat
  else if starts_with "km" s && nonword_at 2 s then Some 2%nat
  else if starts_with "mile" s && nonword_at 4 s then Some 4%nat
  else None.

(** [/(\d+(?:\.\d+)?)\s+(m|km|mile)\b/g] replaced by ['$1$2'].  After the
    greedy number and whitespace run the next character is neither a
    digit, a period nor whitespace, so no backtracking into them can
    succeed where the greedy attempt fails. *)
Definition unit_step : matcher := fun _ s =>
  if (digit_run s =? 0)%nat then None else
  let n := number_len s in
  let rest := str_drop n s in
  let w := ws_run rest in
  if (w =? 0)%nat then None else
  match unit_b (str_drop w rest) with
  | Some u => Some ((n + w + u - 1)%nat, (str_take n s ++ str_take u (str_drop w rest))%string)
  | None => None
  end.

(** [(h|sh|sc|w)\b]: the alternatives in order; the modifier's length. *)
Definition modifier_b (s : string) : option nat :=
  if starts_with "h" s && nonword_at 1 s then Some 1%nat
  else if starts_with "sh" s && nonword_at 2 s then Some 2%nat
  else if starts_with "sc" s && nonword_at 2 s then Some 2%nat
  else if starts_with "w" s && nonword_at 1 s then Some 1%nat
  else None.

(** [(?:m|km|mile)(h|sh|sc|w)\b], backtracking over the unit: the lengths
    of the unit and of the modifier. *)
Definition unit_modifier (s : string) : option (nat * nat) :=
  match (if starts_with "m" s then modifier_b (str_drop 1 s) else None) with
  | Some k => Some (1%nat, k)
  | None =>
      match (if starts_with "km" s then modifier_b (str_drop 2 s) else None) with
      | Some k => Some (2%nat, k)
      | None =>
          match (if starts_with "mile" s then modifier_b (str_drop 4 s) else None) with
          | Some k => Some (4%nat, k)
          | None => None
          end
      end
  end.

(** [/(\d+(?:m|km|mile))(h|sh|sc|w)\b/g] replaced by ['$1 $2'] (a shorter
    digit run is followed by a digit, not by a unit). *)
Definition modifier_step : matcher := fun _ s =>
  let n := digit_run s in
  if (n =? 0)%nat then None else
  match unit_modifier (str_drop n s) with
  | Some (u, k) =>
      Some ((n + u + k - 1)%nat,
            (str_take (n + u) s ++ " " ++ str_take k (str_drop (n + u) s))%string)
  | None => None
  end.

(** [/(4x\d+m)(?!ix\b)(h|sh|sc|w)\b/g] replaced by ['$1 $2']. *)
Definition relay_step : matcher := fun _ s =>
  if negb (starts_with "4x" s) then None else
  let n := digit_run (str_drop 2 s) in
  if (n =? 0)%nat then None else
  let t := str_drop (2 + n) s in
  if negb (starts_with "m" t) then None else
  let u := str_drop 1 t in
  if starts_with "ix" u && nonword_at 2 u then None else
  match modifier_b u with
  | Some k => Some ((2 + n + k)%nat, (str_take (3 + n) s ++ " " ++ str_take k u)%string)
  | None => None
  end.

(** [/^4x\d+m(ix)?(\s+(h|sh|sc|w))?$/]. *)
Definition is_relay (s : string) : bool :=
  starts_with "4x" s &&
  let n := digit_run (str_drop 2 s) in
  (0 <? n)%nat &&
  let t := str_drop (2 + n) s in
  starts_with "m" t &&
  let u := str_drop 1 t in
  (opt_ws_modifier u || (starts_with "ix" u && opt_ws_modifier (str_drop 2 u))).

(** The three anchored alternatives of the validation pattern:
    [^\d+(?:\.\d+)?m?(...)?$], [^\d+(?:\.\d+)?km(...)?$] and
    [^\d+(?:\.\d+)?mile(...)?$]; backtracking out of the greedy number
    leaves a digit or a period in front, which no alternative accepts. *)
Definition is_timed (s : string) : bool :=
  (0 <? digit_run s)%nat &&
  let r := str_drop (number_len s) s in
  opt_ws_modifier r
  || (starts_with "m" r && opt_ws_modifier (str_drop 1 r))
  || (starts_with "km" r && opt_ws_modifier (str_drop 2 r))
  || (starts_with "mile" r && opt_ws_modifier (str_drop 4 r)).

(** The validation pattern: its last two alternatives are unanchored. *)
Definition is_event_like (s : string) : bool :=
  is_timed s || str_contains "marathon" s || str_contains "walk" s.

(** [/^(hm|hmw|marw)$/]. *)
Definition is_special_event (s : string) : bool :=
  String.eqb s "hm" || String.eqb s "hmw" || String.eqb s "marw".

(** [/^(hj|pv|lj|tj|sp|dt|ht|jt)$/]. *)
Definition is_field_event (s : string) : bool :=
  existsb (String.eqb s) ["hj"; "pv"; "lj"; "tj"; "sp"; "dt"; "ht"; "jt"].

(** [base\.?\s*sh] up to the end of [s]. *)
Definition combined_sh (base s : string) : bool :=
  starts_with base s &&
  let r := str_drop (String.length base) s in
  let r := if starts_with "." r then str_drop 1 r else r in
  String.eqb (str_drop (ws_run r) r) "sh".

(** [base\.?] up to the end of [s]. *)
Definition combined_dot (base s : string) : bool :=
  String.eqb s base || String.eqb s (base ++ ".")%string.

(** [/^(hept\.?\s*sh|hept\.?|pent\.?\s*sh|pent\.?|dec\.?|decathlon|heptathlon|pentathlon)$/]. *)
Definition is_combined_event (s : string) : bool :=
  combined_sh "hept" s || combined_dot "hept" s || combined_sh "pent" s
  || combined_dot "pent" s || combined_dot "dec" s || String.eqb s "decathlon"
  || String.eqb s "heptathlon" || String.eqb s "pentathlon".

(** [/\./g] replaced by [''].  *)
Definition dot_step : matcher := fun _ s =>
  if starts_with "." s then Some (0%nat, EmptyString) else None.

(** The rewriting from [toLowerCase()] to the relay-modifier replacement
    (lines 206-232). *)
Definition normalize_units (normalized : string) : string :=
  let normalized := js_toLowerCase normalized in
  let normalized := js_replace_all miles_step normalized in
  let normalized :=
    if String.eqb normalized "mile" then "1mile"
    else if is_mile_modifier normalized then ("1" ++ normalized)%string
    else normalized in
  let normalized := js_replace_all unit_step normalized in
  let normalized := js_replace_all modifier_step normalized in
  js_replace_all relay_step normalized.

(** [normalizeEventName(eventStr)]; [null] is [None]. *)
Definition normalizeEventName (eventStr : string) : option string :=
  if String.eqb eventStr EmptyString then None else
  let normalized := js_replace_all ws_step (js_trim eventStr) in
  if is_comma_walk normalized then Some (replace_mw normalized) else
  let normalized := normalize_units normalized in
  if is_relay normalized then Some normalized
  else if is_event_like normalized then Some normalized
  else if is_special_event normalized then Some normalized
  else if is_field_event normalized then Some normalized
  else if is_combined_event normalized then Some (js_replace_all dot_step normalized)
  else None.

(* ------------------------------------------------------------------ *)
(** ** Exporter ([exportToJSON], lines 500-543) *)

(** [entries.map(entry => [entry.points, entry.performance])]. *)
Definition compact_entry (entry : ScoringEntry) : json :=
  JArr [JNum (points entry); JStr (performance entry)].

(** The [compactData] object of the three nested loops (the keys of a JS
    object are distinct, so each assignment adds a new property). *)
Definition compactData (t : Table ScoringEntry) : json :=
  JObj (map (fun '(gender, categories) =>
    (gender, JObj (map (fun '(category, events) =>
      (category, JObj (map (fun '(eventName, entries) =>
        (eventName, JArr (map compact_entry entries))) events))) categories))) t).

Definition dq : string := String "034" EmptyString.
Definition nl : string := String "010" EmptyString.

Definition hex_char (n : nat) : ascii :=
  if (n <? 10)%nat then ascii_of_nat (48 + n) else ascii_of_nat (87 + n).

(** [QuoteJSONString] on one code unit (below 256). *)
Definition quote_char (c : ascii) : string :=
  let n := code c in
  if (n =? 34)%nat then String "092" dq
  else if (n =? 92)%nat then String "092" (String "092" EmptyString)
  else if (n =? 8)%nat then String "092" "b"
  else if (n =? 12)%nat then String "092" "f"
  else if (n =? 10)%nat then String "092" "n"
  else if (n =? 13)%nat then String "092" "r"
  else if (n =? 9)%nat then String "092" "t"
  else if (n <? 32)%nat then
    String "092" (String "u" (String "0" (String "0"
      (String (hex_char (n / 16)) (String (hex_char (n mod 16)) EmptyString)))))
  else String c EmptyString.

Fixpoint quote_chars (s : string) : string :=
  match s with
  | EmptyString => EmptyString
  | String c s' => (quote_char c ++ quote_chars s')%string
  end.

Definition QuoteJSONString (s : string) : string := (dq ++ quote_chars s ++ dq)%string.

Fixpoint uint_to_string (u : Decimal.uint) : string :=
  match u with
  | Decimal.Nil => EmptyString
  | Decimal.D0 u => String "0" (uint_to_string u)
  | Decimal.D1 u => String "1" (uint_to_string u)
  | Decimal.D2 u => String "2" (uint_to_string u)
  | Decimal.D3 u => String "3" (uint_to_string u)
  | Decimal.D4 u => String "4" (uint_to_string u)
  | Decimal.D5 u => String "5" (uint_to_string u)
  | Decimal.D6 u => String "6" (uint_to_string u)
  | Decimal.D7 u => String "7" (uint_to_string u)
  | Decimal.D8 u => String "8" (uint_to_string u)
  | Decimal.D9 u => String "9" (uint_to_string u)
  end.

(** [Number::toString] of an integer. *)
Definition number_to_string (z : Z) : string :=
  match z with
  | Z0 => "0"
  | Zpos p => uint_to_string (Pos.to_uint p)
  | Zneg p => String "-" (uint_to_string (Pos.to_uint p))
  end.

(** [JSON.stringify(v)]. *)
Fixpoint json_min (v : json) : string :=
  match v with
  | JNull => "null"
  | JBool b => if b then "true" else "false"
  | JNum n => number_to_string n
  | JStr s => QuoteJSONString s
  | JArr l => ("[" ++ String.concat "," (map json_min l) ++ "]")%string
  | JObj kvs =>
      ("{" ++ String.concat ","
                (map (fun '(k, x) => QuoteJSONString k ++ ":" ++ json_min x) kvs)
           ++ "}")%string
  end.

(** [JSON.stringify(v, null, 2)] at the current [indent]. *)
Fixpoint json_pretty (indent : string) (v : json) : string :=
  let ind := (indent ++ "  ")%string in
  match v with
  | JArr [] => "[]"
  | JArr l =>
      ("[" ++ nl ++ ind ++ String.concat ("," ++ nl ++ ind) (map (json_pretty ind) l)
           ++ nl ++ indent ++ "]")%string
  | JObj [] => "{}"
  | JObj kvs =>
      ("{" ++ nl ++ ind
           ++ String.concat ("," ++ nl ++ ind)
                (map (fun '(k, x) => QuoteJSONString k ++ ": " ++ json_pretty ind x) kvs)
           ++ nl ++ indent ++ "}")%string
  | _ => json_min v
  end.

(** The number of leading characters other than a double quote. *)
Fixpoint nonquote_run (s : string) : nat :=
  match s with
  | String c s' => if (code c =? 34)%nat then O else S (nonquote_run s')
  | EmptyString => O
  end.

(** The global expression [/\[\s+(\d+),\s+Q([^Q]+)Q\s+\]/g], Q standing for
    a double quote, replaced by [[$1, Q$2Q]]. No run
    can give characters back: the character after each greedy run is not
    one the run could end with and still be followed by what comes next. *)
Definition pair_step : matcher := fun _ s =>
  match s with
  | String c s1 =>
    let w1 := ws_run s1 in
    let s2 := str_drop w1 s1 in
    let d := digit_run s2 in
    if (code c =? 91)%nat && negb (w1 =? 0)%nat && negb (d =? 0)%nat then
      match str_drop d s2 with
      | String comma s3 =>
        let w2 := ws_run s3 in
        if (code comma =? 44)%nat && negb (w2 =? 0)%nat then
          match str_drop w2 s3 with
          | String q s4 =>
            let k := nonquote_run s4 in
            if (code q =? 34)%nat && negb (k =? 0)%nat then
              match str_drop k s4 with
              | String _ s5 =>
                let w3 := ws_run s5 in
                if negb (w3 =? 0)%nat then
                  match str_drop w3 s5 with
                  | String rb _ =>
                    if (code rb =? 93)%nat then
                      Some ((w1 + d + w2 + k + w3 + 4)%nat,
                            ("[" ++ str_take d s2 ++ ", " ++ dq ++ str_take k s4 ++ dq ++ "]")%string)
                    else None
                  | EmptyString => None
                  end
                else None
              | EmptyString => None
              end
            else None
          | EmptyString => None
          end
        else None
      | EmptyString => None
      end
    else None
  | EmptyString => None
  end.

(** The two texts written by [exportToJSON] (after the optional merge):
    [prettyJson] and [minifiedJson]. *)
Definition exportToJSON (t : Table ScoringEntry) : string * string :=
  let compact := compactData (cleanAndSortData t) in
  (js_replace_all pair_step (json_pretty EmptyString compact), json_min compact).

(** [JSON.parse]: a lexer and a parser over the tokens. *)
Inductive token :=
| TLBrace | TRBrace | TLBrack | TRBrack | TColon | TComma
| TStr (s : string) | TNum (n : Z) | TTrue | TFalse | TNull.

Definition json_ws (c : ascii) : bool :=
  (code c =? 9)%nat || (code c =? 10)%nat || (code c =? 13)%nat || (code c =? 32)%nat.

(** The character denoted by [\e] for [e] other than [u]. *)
Definition unescape (e : ascii) : option ascii :=
  let n := code e in
  if (n =? 34)%nat || (n =? 92)%nat || (n =? 47)%nat then Some e
  else if (n =? 98)%nat then Some (ascii_of_nat 8)
  else if (n =? 102)%nat then Some (ascii_of_nat 12)
  else if (n =? 110)%nat then Some (ascii_of_nat 10)
  else if (n =? 114)%nat then Some (ascii_of_nat 13)
  else if (n =? 116)%nat then Some (ascii_of_nat 9)
  else None.

(** The rest of a string literal after its opening quote: the string and
    the text after the closing quote.  A [\uXXXX] escape of a code unit
    above 255 is outside the model. *)
Fixpoint lex_string (s : string) : option (string * string) :=
  match s with
  | EmptyString => None
  | String c s' =>
    if (code c =? 34)%nat then Some (EmptyString, s')
    else if (code c =? 92)%nat then
      match s' with
      | String e s'' =>
        if (code e =? 117)%nat then
          match s'' with
          | String h1 (String h2 (String h3 (String h4 rest))) =>
            match hex_value h1, hex_value h2, hex_value h3, hex_value h4 with
            | Some a, Some b, Some c', Some d =>
              let n := (((a * 16 + b) * 16 + c') * 16 + d)%Z in
              if (n <? 256)%Z then
                option_map (fun '(x, r) => (String (ascii_of_nat (Z.to_nat n)) x, r))
                           (lex_string rest)
              else None
            | _, _, _, _ => None
            end
          | _ => None
          end
        else
          match unescape e with
          | Some ch => option_map (fun '(x, r) => (String ch x, r)) (lex_string s'')
          | None => None
          end
      | EmptyString => None
      end
    else if (code c <? 32)%nat then None
    else option_map (fun '(x, r) => (String c x, r)) (lex_string s')
  end.

Definition digit_uint (c : ascii) (u : Decimal.uint) : Decimal.uint :=
  match (code c - 48)%nat with
  | 0 => Decimal.D0 u | 1 => Decimal.D1 u | 2 => Decimal.D2 u | 3 => Decimal.D3 u
  | 4 => Decimal.D4 u | 5 => Decimal.D5 u | 6 => Decimal.D6 u | 7 => Decimal.D7 u
  | 8 => Decimal.D8 u | _ => Decimal.D9 u
  end.

(** The longest prefix of decimal digits. *)
Fixpoint digits_uint (s : string) : Decimal.uint * string :=
  match s with
  | String c s' =>
      if is_digit c then let '(u, r) := digits_uint s' in (digit_uint c u, r)
      else (Decimal.Nil, s)
  | EmptyString => (Decimal.Nil, EmptyString)
  end.

(** An unsigned integer literal: [0], or a non-zero digit and more
    digits.  A fraction or an exponent is outside the model. *)
Definition lex_unsigned (s : string) : option (N * string) :=
  let '(u, r) :=
    match s with
    | String c s' =>
        if (code c =? 48)%nat then (Decimal.D0 Decimal.Nil, s') else digits_uint s
    | EmptyString => (Decimal.Nil, EmptyString)
    end in
  match u with
  | Decimal.Nil => None
  | _ =>
    match r with
    | String c _ =>
        if (code c =? 46)%nat || (code c =? 101)%nat || (code c =? 69)%nat then None
        else Some (N.of_uint u, r)
    | EmptyString => Some (N.of_uint u, r)
    end
  end.

(** A number literal ([-0] is read as the integer 0). *)
Definition lex_number (s : string) : option (Z * string) :=
  match s with
  | String c s' =>
      if (code c =? 45)%nat
      then option_map (fun '(n, r) => (Z.opp (Z.of_N n), r)) (lex_unsigned s')
      else option_map (fun '(n, r) => (Z.of_N n, r)) (lex_unsigned s)
  | EmptyString => None
  end.

Fixpoint lex (fuel : nat) (s : string) : option (list token) :=
  match fuel with
  | O => None
  | S f =>
    match s with
    | EmptyString => Some []
    | String c s' =>
      if json_ws c then lex f s'
      else if (code c =? 123)%nat then option_map (cons TLBrace) (lex f s')
      else if (code c =? 125)%nat then option_map (cons TRBrace) (lex f s')
      else if (code c =? 91)%nat then option_map (cons TLBrack) (lex f s')
      else if (code c =? 93)%nat then option_map (cons TRBrack) (lex f s')
      else if (code c =? 58)%nat then option_map (cons TColon) (lex f s')
      else if (code c =? 44)%nat then option_map (cons TComma) (lex f s')
      else if (code c =? 34)%nat then
        match lex_string s' with
        | Some (x, r) => option_map (cons (TStr x)) (lex f r)
        | None => None
        end
      else if (code c =? 45)%nat || is_digit c then
        match lex_number s with
        | Some (n, r) => option_map (cons (TNum n)) (lex f r)
        | None => None
        end
      else if starts_with "true" s then option_map (cons TTrue) (lex f (str_drop 4 s))
      else if starts_with "false" s then option_map (cons TFalse) (lex f (str_drop 5 s))
      else if starts_with "null" s then option_map (cons TNull) (lex f (str_drop 4 s))
      else None
    end
  end.

(** A member [k: v] of an object literal is an assignment: a repeated
    key keeps its first position and takes the last value. *)
Fixpoint parse_value (fuel : nat) (ts : list token) : option (json * list token) :=
  match fuel with
  | O => None
  | S f =>
    match ts with
    | TNull :: r => Some (JNull, r)
    | TTrue :: r => Some (JBool true, r)
    | TFalse :: r => Some (JBool false, r)
    | TNum n :: r => Some (JNum n, r)
    | TStr s :: r => Some (JStr s, r)
    | TLBrack :: TRBrack :: r => Some (JArr [], r)
    | TLBrack :: r => parse_elements f r []
    | TLBrace :: TRBrace :: r => Some (JObj [], r)
    | TLBrace :: r => parse_members f r []
    | _ => None
    end
  end
with parse_elements (fuel : nat) (ts : list token) (acc : list json)
  : option (json * list token) :=
  match fuel with
  | O => None
  | S f =>
    match parse_value f ts with
    | Some (v, TComma :: r) => parse_elements f r (acc ++ [v])
    | Some (v, TRBrack :: r) => Some (JArr (acc ++ [v]), r)
    | _ => None
    end
  end
with parse_members (fuel : nat) (ts : list token) (acc : obj json)
  : option (json * list token) :=
  match fuel with
  | O => None
  | S f =>
    match ts with
    | TStr k :: TColon :: r =>
      match parse_value f r with
      | Some (v, TComma :: r') => parse_members f r' (obj_set k v acc)
      | Some (v, TRBrace :: r') => Some (JObj (obj_set k v acc), r')
      | _ => None
      end
    | _ => None
    end
  end.

(** [JSON.parse(text)]; [None] is a thrown [SyntaxError]. *)
Definition JSON_parse (text : string) : option json :=
  match lex (S (String.length text)) text with
  | Some ts =>
      match parse_value (S (List.length ts)) ts with
      | Some (v, []) => Some v
      | _ => None
      end
  | None => None
  end.

(** Tables whose exported texts the pretty-printing replacement cannot
    misread: no key or performance contains [[] and no performance
    contains a double quote. *)
Definition no_char (n : nat) (s : string) : bool :=
  negb (str_has (fun c => (code c =? n)%nat) s).

Definition export_safe (t : Table ScoringEntry) : bool :=
  forallb (fun '(g, cats) =>
    no_char 91 g && forallb (fun '(c, evs) =>
      no_char 91 c && forallb (fun '(e, entries) =>
        no_char 91 e && forallb (fun entry =>
          no_char 91 (performance entry) && no_char 34 (performance entry)) entries)
      evs) cats) t.

(** The keys of every object of a table are distinct (as in a JS object). *)
Fixpoint distinct_keys {V} (o : obj V) : bool :=
  match o with
  | [] => true
  | (k, _) :: o' => negb (existsb (String.eqb k) (map fst o')) && distinct_keys o'
  end.

Definition table_keys_distinct (t : Table ScoringEntry) : bool :=
  distinct_keys t && forallb (fun '(_, cats) =>
    distinct_keys cats && forallb (fun '(_, evs) => distinct_keys evs) cats) t.

(* ------------------------------------------------------------------ *)
(** ** Event catalog ([eventsConfig] and [buildEventMap], lines 700-1078) *)

(** A track event of the configuration.  [te_distance] is
    [`${event.distance}`], the decimal text of the configured number;
    a missing [allow...] flag is [undefined], i.e. false. *)
Record TrackEvent := mkTrackEvent {
  te_distance : string; te_unit : string; te_name : option string;
  te_allowHurdles : bool; te_allowShortTrack : bool;
  te_allowSteeplechase : bool; te_allowWalkModifier : bool }.

Definition run (d u : string) (h sh sc : bool) : TrackEvent :=
  mkTrackEvent d u None h sh sc false.

Definition run_named (d u n : string) (h sh sc : bool) : TrackEvent :=
  mkTrackEvent d u (Some n) h sh sc false.

Definition walk (d u : string) (n : option string) : TrackEvent :=
  mkTrackEvent d u n false false false true.

(** [eventsConfig.trackEvents]: each group's [category] with its events,
    in declaration order. *)
Definition trackEvents : list (string * list TrackEvent) :=
  [("sprints",
    [run "50" "m" true false false; run "55" "m" true false false;
     run "60" "m" true false false; run "100" "m" true false false;
     run "110" "m" true false false; run "150" "m" false false false;
     run "200" "m" true true false; run "300" "m" true true false;
     run "400" "m" true true false; run "500" "m" false true false]);
   ("middle_distance",
    [run "600" "m" true true false; run "800" "m" true true false;
     run "1000" "m" true true false; run "1500" "m" false true false;
     run "1" "mile" false true false; run "2000" "m" false true true]);
   ("long_distance",
    [run "3000" "m" false true true; run "5000" "m" false true false;
     run "10000" "m" false false false; run "2" "km" false true false;
     run "2" "mile" false true false; run "5" "km" false true false;
     run "10" "km" false true false; run "10" "mile" false true false;
     run "15" "km" false false false; run "20" "km" false false false;
     run_named "21.0975" "km" "hm" false false false;
     run "25" "km" false false false; run "30" "km" false false false;
     run_named "42.195" "km" "marathon" false false false;
     run "100" "km" false false false]);
   ("race_walk",
    [walk "3000" "m" None; walk "5000" "m" None;
     walk "10000" "m" (Some "10,000mW"); walk "15000" "m" (Some "15,000mW");
     walk "20000" "m" (Some "20,000mW"); walk "30000" "m" (Some "30,000mW");
     walk "35000" "m" (Some "35,000mW"); walk "50000" "m" (Some "50,000mW");
     walk "3" "km" None; walk "5" "km" None; walk "10" "km" None;
     walk "15" "km" None; walk "20" "km" None;
     walk "21.0975" "km" (Some "hmw"); walk "30" "km" None;
     walk "35" "km" None; walk "42.195" "km" (Some "marw");
     walk "50" "km" None])].

(** [eventsConfig.trackEvents.race_walk.events]. *)
Definition raceWalkEvents : list TrackEvent :=
  match find (fun '(c, _) => String.eqb c "race_walk") trackEvents with
  | Some (_, evs) => evs
  | None => []
  end.

(** [eventsConfig.fieldEvents]: each group's [category] with the
    [abbr] of its events. *)
Definition fieldEvents : list (string * list string) :=
  [("jumps", ["hj"; "pv"; "lj"; "tj"]);
   ("throws", ["sp"; "dt"; "ht"; "jt"; "wt"])].

(** [eventsConfig.combinedEvents.events]: [abbr] and [allowShortTrack]. *)
Definition combinedEvents : list (string * bool) :=
  [("dec", false); ("hept", true); ("pent", true)].

(** [eventsConfig.relayEvents.events]: [name], [allowShortTrack] and
    [allowMixed]. *)
Definition relayEvents : list (string * bool * bool) :=
  [("4x100m", false, false); ("4x200m", true, false); ("4x400m", true, true)].

(** [eventsConfig.categoryKeywords], in declaration order.  The [é] of
    ['combinée'] is the code unit 233. *)
Definition categoryKeywords : list (string * list string) :=
  [("sprints", ["sprint"]);
   ("hurdles", ["hurdle"; "haie"]);
   ("middle_distance", ["demi-fond"; "middle"]);
   ("long_distance", ["long distance"; "fond"]);
   ("jumps", ["jump"; "saut"]);
   ("throws", ["throw"; "lancer"]);
   ("combined", ["combined"; ("combin" ++ String (ascii_of_nat 233) "e")%string]);
   ("relays", ["relay"; "relai"]);
   ("race_walk", ["walk"; "marche"])].

(** The fields of an event-map value that [buildEventMap] sets itself
    ([category], [type], [modifier], [gender]); the configured event's
    own fields spread after them never carry these names. *)
Record EventInfo := mkEventInfo {
  ei_category : string; ei_type : string;
  ei_modifier : option string; ei_gender : option string }.

(** [event.name || `${event.distance}${event.unit}`]. *)
Definition track_baseName (e : TrackEvent) : string :=
  match te_name e with
  | Some n => if String.eqb n "" then (te_distance e ++ te_unit e)%string else n
  | None => (te_distance e ++ te_unit e)%string
  end.

(** One event of the loop over the track groups. *)
Definition track_step (category : string) (m : obj EventInfo) (e : TrackEvent)
  : obj EventInfo :=
  let baseName := track_baseName e in
  let m := if negb (String.eqb category "race_walk")
           then obj_set baseName (mkEventInfo category "track" None None) m
           else m in
  let m := if te_allowHurdles e
           then obj_set (baseName ++ " h") (mkEventInfo category "track" (Some "h") None) m
           else m in
  let m := if te_allowShortTrack e
           then obj_set (baseName ++ " sh") (mkEventInfo category "track" (Some "sh") None) m
           else m in
  if te_allowSteeplechase e
  then obj_set (baseName ++ " sc") (mkEventInfo category "track" (Some "sc") None) m
  else m.

Definition field_step (category : string) (m : obj EventInfo) (abbr : string)
  : obj EventInfo :=
  obj_set abbr (mkEventInfo category "field" None None) m.

Definition combined_step (m : obj EventInfo) (e : string * bool) : obj EventInfo :=
  let '(abbr, allowShortTrack) := e in
  let m := obj_set abbr (mkEventInfo "combined" "combined" None None) m in
  if allowShortTrack
  then obj_set (abbr ++ " sh") (mkEventInfo "combined" "combined" (Some "sh") None) m
  else m.

(** [s.replace(/m$/, 'mix')]. *)
Definition replace_final_m (s : string) : string :=
  let n := String.length s in
  if (1 <=? n)%nat && String.eqb (str_drop (n - 1) s) "m"
  then (str_take (n - 1) s ++ "mix")%string else s.

Definition relay_step_map (m : obj EventInfo) (e : string * bool * bool)
  : obj EventInfo :=
  let '(baseName, allowShortTrack, allowMixed) := e in
  let m := obj_set baseName (mkEventInfo "relays" "relay" None None) m in
  let m := if allowShortTrack
           then obj_set (baseName ++ " sh") (mkEventInfo "relays" "relay" (Some "sh") None) m
           else m in
  if allowMixed then
    let mixName := replace_final_m baseName in
    let m := obj_set mixName (mkEventInfo "relays" "relay" (Some "mix") (Some "mixed")) m in
    if allowShortTrack
    then obj_set (mixName ++ " sh") (mkEventInfo "relays" "relay" (Some "mix+sh") (Some "mixed")) m
    else m
  else m.

Definition walk_step (m : obj EventInfo) (e : TrackEvent) : obj EventInfo :=
  let baseName := track_baseName e in
  if te_allowWalkModifier e then
    let m := match te_name e with
             | Some n => if String.eqb n "" then m
                         else obj_set baseName (mkEventInfo "race_walk" "race_walk" None None) m
             | None => m
             end in
    let m := obj_set (baseName ++ " w") (mkEventInfo "race_walk" "race_walk" (Some "w") None) m in
    obj_set (baseName ++ " walk") (mkEventInfo "race_walk" "race_walk" (Some "walk") None) m
  else m.

(** [buildEventMap()]: a [Map] filled by [set], which overwrites a key
    in place and appends a new one. *)
Definition buildEventMap : obj EventInfo :=
  let m := fold_left (fun m '(category, evs) => fold_left (track_step category) evs m)
                     trackEvents [] in
  let m := fold_left (fun m '(category, abbrs) => fold_left (field_step category) abbrs m)
                     fieldEvents m in
  let m := fold_left combined_step combinedEvents m in
  let m := fold_left relay_step_map relayEvents m in
  fold_left walk_step raceWalkEvents m.

(** [getCategoryForEvent(eventName)] of the configuration module (and the
    extractor's method of the same name, which delegates to it). *)
Definition getCategoryForEvent (eventName : string) : option string :=
  match obj_get eventName buildEventMap with
  | Some eventInfo => Some (ei_category eventInfo)
  | None => None
  end.

Definition isKnownEvent (eventName : string) : bool :=
  match obj_get eventName buildEventMap with Some _ => true | None => false end.

Definition getEventInfo (eventName : string) : option EventInfo :=
  obj_get eventName buildEventMap.

(* ------------------------------------------------------------------ *)
(** ** Section and header detection (lines 95-185) *)

(** The gender branch of [detectSection] on the lowercased line. *)
Definition detect_gender (lineLower : string) : option string :=
  if str_contains "women" lineLower || str_contains "femmes" lineLower
  then Some "women"
  else if (str_contains "men" lineLower || str_contains "hommes" lineLower)
          && negb (str_contains "women" lineLower)
  then Some "men"
  else if str_contains "mixed" lineLower || str_contains "mixte" lineLower
  then Some "mixed"
  else None.

(** The loop over [categoryKeywords]: the first category one of whose
    keywords the lowercased line includes. *)
Fixpoint detect_category (kws : list (string * list string)) (lineLower : string)
  : option string :=
  match kws with
  | [] => None
  | (category, keywords) :: rest =>
      if existsb (fun keyword => str_contains keyword lineLower) keywords
      then Some category
      else detect_category rest lineLower
  end.

(** [detectSection(line)]: a present key of [result] is [Some]. *)
Definition detectSection (line : string) : option Section :=
  let lineLower := js_toLowerCase line in
  let g := detect_gender lineLower in
  let c := detect_category categoryKeywords lineLower in
  match g, c with
  | None, None => None
  | _, _ => Some (mkSection g c)
  end.

(** [{ ...currentSection, ...sectionInfo }]. *)
Definition spread_section (cur info : Section) : Section :=
  mkSection (match sec_gender info with Some g => Some g | None => sec_gender cur end)
            (match sec_category info with Some c => Some c | None => sec_category cur end).

(** [/points?/i.test(col)]. *)
Definition points_column (col : string) : bool :=
  str_contains "point" (js_toLowerCase col).

(** [/^\d+(?:\.\d+)?$/.test(s)]. *)
Definition number_token (s : string) : bool :=
  (0 <? digit_run s)%nat && (number_len s =? String.length s)%nat.

(** [/^(m|km|miles?)$/i.test(s)]. *)
Definition unit_token (s : string) : bool :=
  let l := js_toLowerCase s in
  String.eqb l "m" || String.eqb l "km" || String.eqb l "mile" || String.eqb l "miles".

(** [/^(h|sh|sc|w)$/i.test(s)]. *)
Definition modifier_token (s : string) : bool :=
  is_modifier (js_toLowerCase s).

(** The loop of [detectTableHeaders] over [eventTokens]: a number
    followed by a unit is joined with it, and a following modifier is
    joined to the result; the names before normalization. *)
Fixpoint header_names (toks : list string) : list string :=
  match toks with
  | [] => []
  | a :: r1 =>
      match r1 with
      | b :: r2 =>
          if number_token a && unit_token b then
            match r2 with
            | c :: r3 =>
                if modifier_token c
                then (a ++ " " ++ b ++ " " ++ c)%string :: header_names r3
                else (a ++ " " ++ b)%string :: header_names r2
            | [] => [(a ++ " " ++ b)%string]
            end
          else if modifier_token b
          then (a ++ " " ++ b)%string :: header_names r2
          else a :: header_names r1
      | [] => [a]
      end
  end.

(** [events.push(normalized)] for each truthy [normalizeEventName]. *)
Definition normalized_events (names : list string) : list string :=
  flat_map (fun name => match normalizeEventName name with
                        | Some e => if String.eqb e "" then [] else [e]
                        | None => []
                        end) names.

(** [detectTableHeaders(line)]: [{events, pointsPosition}] or null. *)
Definition detectTableHeaders (line : string) : option (list string * Side) :=
  let lineLower := js_toLowerCase line in
  if negb (str_contains "points" lineLower) && negb (str_contains "point" lineLower)
  then None else
  let columns := split_tokens line in
  if (List.length columns <? 2)%nat then None else
  let positioned :=
    match columns with
    | c0 :: rest =>
        if points_column c0 then Some (Left, rest)
        else if points_column (last columns EmptyString)
        then Some (Right, removelast columns)
        else None
    | [] => None
    end in
  match positioned with
  | None => None
  | Some (pointsPosition, eventTokens) =>
      match normalized_events (header_names eventTokens) with
      | [] => None
      | events => Some (events, pointsPosition)
      end
  end.

(** [isTableEnd(line)]: [/^(©|world\s*athletics|page\s*\d+)$/i] (the
    copyright sign is the code unit 169; under [i] only ASCII letters
    fold, so the test is made on the lowercased line) or a single digit. *)
Definition end_marker (line : string) : bool :=
  let l := js_toLowerCase line in
  String.eqb l (String (ascii_of_nat 169) EmptyString)
  || (starts_with "world" l &&
      let r := str_drop 5 l in String.eqb (str_drop (ws_run r) r) "athletics")
  || (starts_with "page" l &&
      let r := str_drop 4 l in
      let d := str_drop (ws_run r) r in
      (0 <? digit_run d)%nat && (digit_run d =? String.length d)%nat).

Definition isTableEnd (line : string) : bool :=
  end_marker line ||
  ((String.length line =? 1)%nat && forallb is_digit (list_ascii_of_string line)).

(* ------------------------------------------------------------------ *)
(** ** The scan loop ([parseContentEnhanced], lines 42-90) *)

Record ParseState := mkParseState {
  currentSection : Section;
  eventHeaders : list string;
  inTable : bool;
  pointsColumnPosition : option Side;
  tables_of : Table ScoringEntry }.

(** The body of the loop for one line. *)
Definition parse_line (getCategory : string -> option string)
  (st : ParseState) (raw : string) : ParseState :=
  let line := js_trim raw in
  if String.eqb line EmptyString then st else
  match detectSection line with
  | Some sectionInfo =>
      mkParseState (spread_section (currentSection st) sectionInfo)
                   (eventHeaders st) false (pointsColumnPosition st) (tables_of st)
  | None =>
      match detectTableHeaders line with
      | Some (events, pointsPosition) =>
          if (0 <? List.length events)%nat
          then mkParseState (currentSection st) events true (Some pointsPosition)
                            (tables_of st)
          else st
      | None =>
          if inTable st && (0 <? List.length (eventHeaders st))%nat then
            if isTableEnd line
            then mkParseState (currentSection st) [] false
                              (pointsColumnPosition st) (tables_of st)
            else
              match parseCrossReferencedRow line (eventHeaders st)
                      (pointsColumnPosition st) with
              | Some dataRow =>
                  match row_points dataRow with
                  | Some _ =>
                      mkParseState (currentSection st) (eventHeaders st) (inTable st)
                        (pointsColumnPosition st)
                        (storeCrossReferencedData getCategory (currentSection st)
                           dataRow (tables_of st))
                  | None => st
                  end
              | None => st
              end
          else st
      end
  end.

(** [text.split('\n')]. *)
Definition split_lines (text : string) : list string :=
  split_at (fun c => (code c =? 10)%nat) EmptyString text.

Definition parse_init (t : Table ScoringEntry) : ParseState :=
  mkParseState (mkSection None None) [] false None t.

(** [parseContentEnhanced(text)] on an extractor whose tables are [t]. *)
Definition parseContentEnhanced (getCategory : string -> option string)
  (text : string) (t : Table ScoringEntry) : Table ScoringEntry :=
  tables_of (fold_left (parse_line getCategory) (split_lines text) (parse_init t)).

(** The tables of [extract()]: a fresh extractor parses the text with the
    catalog's [getCategoryForEvent]. *)
Definition extract_tables (text : string) : Table ScoringEntry :=
  parseContentEnhanced getCategoryForEvent text [].

(* ------------------------------------------------------------------ *)
(** ** Statistics ([getStatistics], lines 628-656) *)

Record GenderStats := mkGenderStats {
  gs_categories : nat; gs_events : nat; gs_entries : nat }.

Record Statistics := mkStatistics {
  st_genders : nat; st_totalEvents : nat; st_totalEntries : nat;
  st_byGender : obj GenderStats }.

(** [Object.values(events).reduce((sum, data) => sum + data.length, 0)]. *)
Definition entry_count {A} (events : obj (list A)) : nat :=
  fold_left (fun sum '(_, data) => sum + List.length data)%nat events 0%nat.

Definition stats_category {A} (gender : string) (st : Statistics)
  (c : string * obj (list A)) : Statistics :=
  let events := snd c in
  let eventCount := List.length events in
  let entryCount := entry_count events in
  let gs := obj_get_or (mkGenderStats 0 0 0) gender (st_byGender st) in
  mkStatistics (st_genders st) (st_totalEvents st + eventCount)
    (st_totalEntries st + entryCount)
    (obj_set gender (mkGenderStats (gs_categories gs) (gs_events gs + eventCount)
                                   (gs_entries gs + entryCount)) (st_byGender st)).

Definition stats_gender {A} (st : Statistics) (g : string * obj (obj (list A)))
  : Statistics :=
  let '(gender, categories) := g in
  let st := mkStatistics (st_genders st) (st_totalEvents st) (st_totalEntries st)
              (obj_set gender (mkGenderStats (List.length categories) 0 0)
                       (st_byGender st)) in
  fold_left (stats_category gender) categories st.

(** [getStatistics()] on the tables [t]. *)
Definition getStatistics {A} (t : Table A) : Statistics :=
  fold_left stats_gender t (mkStatistics (List.length t) 0 0 []).

(* ================================================================== *)
(** * Proofs *)

(* ------------------------------------------------------------------ *)
(** ** Association lists *)

Lemma obj_get_In {V} (k : string) (o : obj V) v :
  obj_get k o = Some v -> In (k, v) o.
Proof.
  induction o as [|[k' v'] o IH]; simpl; [discriminate|].
  destruct (String.eqb_spec k k'); [intros [= ->]; subst; auto | auto].
Qed.

Lemma obj_get_None {V} (k : string) (o : obj V) v :
  obj_get k o = None -> ~ In (k, v) o.
Proof.
  induction o as [|[k' v'] o IH]; simpl; [auto|].
  destruct (String.eqb_spec k k'); [discriminate|].
  intros Hg [Heq | Hin]; [congruence | exact (IH Hg Hin)].
Qed.

Lemma NoDup_In_get {V} (k : string) (o : obj V) v :
  NoDup (map fst o) -> In (k, v) o -> obj_get k o = Some v.
Proof.
  induction o as [|[k' v'] o IH]; simpl; [tauto|].
  intros Hnd Hin. inversion Hnd as [|? ? Hnot Hnd']; subst.
  destruct (String.eqb_spec k k') as [->|Hne].
  - destruct Hin as [[= <-]|Hin]; [reflexivity|].
    exfalso. apply Hnot. now apply (in_map fst) in Hin.
  - destruct Hin as [[= -> ->]|Hin]; [congruence | auto].
Qed.

Lemma NoDup_In_fun {V} (k : string) (o : obj V) v1 v2 :
  NoDup (map fst o) -> In (k, v1) o -> In (k, v2) o -> v1 = v2.
Proof.
  intros Hnd H1 H2.
  apply (NoDup_In_get _ _ _ Hnd) in H1. apply (NoDup_In_get _ _ _ Hnd) in H2.
  congruence.
Qed.

Lemma obj_set_In {V} (k : string) (v : V) o k' v' :
  In (k', v') (obj_set k v o) -> (k' = k /\ v' = v) \/ In (k', v') o.
Proof.
  induction o as [|[k0 v0] o IH]; simpl.
  - intros [[= -> ->]|[]]; auto.
  - destruct (String.eqb_spec k k0) as [->|Hne]; simpl.
    + intros [[= -> ->]|Hin]; auto.
    + intros [[= -> ->]|Hin]; auto. destruct (IH Hin); auto.
Qed.

Lemma obj_set_In_same {V} (k : string) (v : V) o : In (k, v) (obj_set k v o).
Proof.
  induction o as [|[k0 v0] o IH]; simpl; [auto|].
  destruct (String.eqb_spec k k0) as [->|]; simpl; auto.
Qed.

Lemma obj_set_In_other {V} (k : string) (v : V) o k' v' :
  k' <> k -> In (k', v') o -> In (k', v') (obj_set k v o).
Proof.
  induction o as [|[k0 v0] o IH]; simpl; [tauto|].
  destruct (String.eqb_spec k k0) as [->|Hne]; simpl.
  - intros Hne [[= -> ->]|Hin]; [congruence | auto].
  - intros Hne' [[= -> ->]|Hin]; auto.
Qed.

Lemma obj_set_keys {V} (k : string) (v : V) o :
  map fst (obj_set k v o) = map fst o \/ map fst (obj_set k v o) = map fst o ++ [k].
Proof.
  induction o as [|[k0 v0] o IH]; simpl; [auto|].
  destruct (String.eqb_spec k k0) as [->|]; simpl; [auto|].
  destruct IH as [-> | ->]; auto.
Qed.

Lemma obj_set_NoDup {V} (k : string) (v : V) o :
  NoDup (map fst o) -> NoDup (map fst (obj_set k v o)).
Proof.
  induction o as [|[k0 v0] o IH]; simpl; intros Hnd.
  - constructor; [auto | constructor].
  - inversion Hnd as [|? ? Hnot Hnd']; subst.
    destruct (String.eqb_spec k k0) as [->|Hne]; simpl; [constructor; auto|].
    constructor; [|auto].
    destruct (obj_set_keys k v o) as [-> | ->]; [auto|].
    rewrite in_app_iff. simpl. intuition congruence.
Qed.

Lemma obj_get_set_same {V} (k : string) (v : V) o : obj_get k (obj_set k v o) = Some v.
Proof.
  induction o as [|[k0 v0] o IH]; simpl; [now rewrite String.eqb_refl|].
  destruct (String.eqb_spec k k0) as [->|Hne]; simpl.
  - now rewrite String.eqb_refl.
  - apply String.eqb_neq in Hne. now rewrite Hne.
Qed.

Lemma obj_get_set_other {V} (k k' : string) (v : V) o :
  k' <> k -> obj_get k' (obj_set k v o) = obj_get k' o.
Proof.
  intros Hne. induction o as [|[k0 v0] o IH]; simpl.
  - apply String.eqb_neq in Hne. now rewrite Hne.
  - destruct (String.eqb_spec k k0) as [->|]; simpl.
    + apply String.eqb_neq in Hne. now rewrite Hne.
    + now rewrite IH.
Qed.

(* ------------------------------------------------------------------ *)
(** ** The clean-and-sort pass *)

From Stdlib Require Import Sorting.Permutation Sorting.Sorted.

Section CleanSortProofs.
Context {E : Type} `{HasEntryFields E}.

(** What the deduplication map holds after a prefix [seen] of the
    entries: unique keys, each bound to the first entry of maximal points
    with that performance, and every seen performance bound. *)
Definition dedup_inv (seen : list E) (m : obj E) : Prop :=
  NoDup (map fst m) /\
  (forall k v, In (k, v) m -> e_performance v = k /\
     exists l1 l2, seen = l1 ++ v :: l2 /\
       (forall x, In x l1 -> e_performance x = k -> (e_points x < e_points v)%Z) /\
       (forall x, In x l2 -> e_performance x = k -> (e_points x <= e_points v)%Z)) /\
  (forall e, In e seen -> exists v, In (e_performance e, v) m).

Lemma dedup_inv_nil : dedup_inv [] [].
Proof. split; [constructor | split; simpl; tauto]. Qed.

Lemma first_max_le (seen l1 l2 : list E) v k x :
  seen = l1 ++ v :: l2 ->
  (forall x, In x l1 -> e_performance x = k -> (e_points x < e_points v)%Z) ->
  (forall x, In x l2 -> e_performance x = k -> (e_points x <= e_points v)%Z) ->
  In x seen -> e_performance x = k -> (e_points x <= e_points v)%Z.
Proof.
  intros -> H1 H2 Hin Hk. apply in_app_iff in Hin as [Hin|[<-|Hin]].
  - specialize (H1 x Hin Hk). lia.
  - lia.
  - auto.
Qed.

Lemma dedup_inv_step seen m e :
  dedup_inv seen m -> dedup_inv (seen ++ [e]) (dedup_step m e).
Proof.
  intros (Hnd & Hkv & Hcov). unfold dedup_step.
  remember (e_performance e) as k eqn:Hk.
  destruct (obj_get k m) as [old|] eqn:Hg.
  - apply obj_get_In in Hg as Hold.
    destruct (Hkv _ _ Hold) as (Hpo & l1 & l2 & Hs & H1 & H2).
    destruct (e_points old <? e_points e)%Z eqn:Hlt.
    + apply Z.ltb_lt in Hlt.
      assert (Hnd' := obj_set_NoDup k e m Hnd).
      split; [exact Hnd'|split].
      * intros k' v' Hin.
        destruct (String.eqb_spec k' k) as [->|Hne].
        -- assert (v' = e) as ->
             by exact (NoDup_In_fun _ _ _ _ Hnd' Hin (obj_set_In_same k e m)).
           split; [now rewrite Hk|]. exists seen, []. split; [reflexivity|].
           split; [|simpl; tauto].
           intros x Hx Hxk.
           assert (Hle := first_max_le seen l1 l2 old k x Hs H1 H2 Hx Hxk). lia.
        -- destruct (obj_set_In _ _ _ _ _ Hin) as [[? _]|Hin']; [congruence|].
           destruct (Hkv _ _ Hin') as (Hp & m1 & m2 & Hs' & G1 & G2).
           split; [exact Hp|]. exists m1, (m2 ++ [e]).
           split; [rewrite Hs'; now rewrite <- app_assoc|].
           split; [exact G1|]. intros x Hx Hxk.
           apply in_app_iff in Hx as [Hx|[<-|[]]]; [auto | congruence].
      * intros e' Hin. apply in_app_iff in Hin as [Hin|[<-|[]]].
        -- destruct (String.eqb_spec (e_performance e') k) as [Heq|Hne].
           ++ exists e. rewrite Heq. apply obj_set_In_same.
           ++ destruct (Hcov e' Hin) as [v Hv]. exists v.
              now apply obj_set_In_other.
        -- exists e. rewrite <- Hk. apply obj_set_In_same.
    + assert (Hle : (e_points e <= e_points old)%Z) by (apply Z.ltb_ge in Hlt; lia).
      split; [exact Hnd|split].
      * intros k' v' Hin.
        destruct (Hkv _ _ Hin) as (Hp & m1 & m2 & Hs' & G1 & G2).
        split; [exact Hp|]. exists m1, (m2 ++ [e]).
        split; [rewrite Hs'; now rewrite <- app_assoc|].
        split; [exact G1|]. intros x Hx Hxk.
        apply in_app_iff in Hx as [Hx|[<-|[]]]; [auto|].
        assert (k' = k) as -> by congruence.
        assert (v' = old) as -> by exact (NoDup_In_fun _ _ _ _ Hnd Hin Hold).
        exact Hle.
      * intros e' Hin. apply in_app_iff in Hin as [Hin|[<-|[]]]; [auto|].
        exists old. rewrite <- Hk. exact Hold.
  - assert (Hnd' := obj_set_NoDup k e m Hnd).
    split; [exact Hnd'|split].
    + intros k' v' Hin.
      destruct (String.eqb_spec k' k) as [->|Hne].
      * assert (v' = e) as ->
          by exact (NoDup_In_fun _ _ _ _ Hnd' Hin (obj_set_In_same k e m)).
        split; [now rewrite Hk|]. exists seen, []. split; [reflexivity|].
        split; [|simpl; tauto].
        intros x Hx Hxk. exfalso.
        destruct (Hcov x Hx) as [v Hv]. rewrite Hxk in Hv.
        exact (obj_get_None _ _ v Hg Hv).
      * destruct (obj_set_In _ _ _ _ _ Hin) as [[? _]|Hin']; [congruence|].
        destruct (Hkv _ _ Hin') as (Hp & m1 & m2 & Hs' & G1 & G2).
        split; [exact Hp|]. exists m1, (m2 ++ [e]).
        split; [rewrite Hs'; now rewrite <- app_assoc|].
        split; [exact G1|]. intros x Hx Hxk.
        apply in_app_iff in Hx as [Hx|[<-|[]]]; [auto | congruence].
    + intros e' Hin. apply in_app_iff in Hin as [Hin|[<-|[]]].
      * destruct (String.eqb_spec (e_performance e') k) as [Heq|Hne].
        -- exists e. rewrite Heq. apply obj_set_In_same.
        -- destruct (Hcov e' Hin) as [v Hv]. exists v.
           now apply obj_set_In_other.
      * exists e. rewrite <- Hk. apply obj_set_In_same.
Qed.

Lemma dedup_inv_fold l : forall seen m,
  dedup_inv seen m -> dedup_inv (seen ++ l) (fold_left dedup_step l m).
Proof.
  induction l as [|e l IH]; simpl; intros seen m Hinv.
  - now rewrite app_nil_r.
  - replace (seen ++ e :: l) with ((seen ++ [e]) ++ l)
      by now rewrite <- app_assoc.
    apply IH. now apply dedup_inv_step.
Qed.

Lemma dedup_inv_all l : dedup_inv l (fold_left dedup_step l []).
Proof. exact (dedup_inv_fold l [] [] dedup_inv_nil). Qed.

Lemma map_perf_snd (m : obj E) :
  (forall k v, In (k, v) m -> e_performance v = k) ->
  map e_performance (map snd m) = map fst m.
Proof.
  induction m as [|[k v] m IH]; simpl; intros Hk; [reflexivity|].
  rewrite (Hk k v (or_introl eq_refl)), IH; auto.
Qed.

(** Sorting. *)
Definition Rdesc (a b : E) : Prop := (e_points b <= e_points a)%Z.

Lemma insert_desc_perm e l : Permutation (insert_desc e l) (e :: l).
Proof.
  induction l as [|x l IH]; simpl; [auto|].
  destruct (e_points x <? e_points e)%Z; [auto|].
  eapply perm_trans; [apply perm_skip, IH | apply perm_swap].
Qed.

Lemma sort_desc_fold_perm l : forall acc,
  Permutation (fold_left (fun acc e => insert_desc e acc) l acc) (l ++ acc).
Proof.
  induction l as [|e l IH]; simpl; intros acc; [auto|].
  eapply perm_trans; [apply IH|].
  eapply perm_trans; [apply Permutation_app_head, insert_desc_perm|].
  apply Permutation_sym, Permutation_middle.
Qed.

Lemma sort_desc_perm l : Permutation (sort_desc l) l.
Proof.
  unfold sort_desc. rewrite <- (app_nil_r l) at 2. apply sort_desc_fold_perm.
Qed.

Lemma insert_desc_sorted e l : Sorted Rdesc l -> Sorted Rdesc (insert_desc e l).
Proof.
  induction l as [|x l IH]; simpl; intros Hs; [repeat constructor|].
  destruct (e_points x <? e_points e)%Z eqn:Hlt.
  - apply Z.ltb_lt in Hlt. constructor; [exact Hs|]. constructor. unfold Rdesc. lia.
  - apply Z.ltb_ge in Hlt.
    apply Sorted_inv in Hs as [Hs Hhd]. constructor; [auto|].
    destruct l as [|y l]; simpl.
    + constructor. unfold Rdesc. lia.
    + inversion Hhd; subst.
      destruct (e_points y <? e_points e)%Z; constructor; unfold Rdesc in *; lia.
Qed.

Lemma sort_desc_fold_sorted l : forall acc, Sorted Rdesc acc ->
  Sorted Rdesc (fold_left (fun acc e => insert_desc e acc) l acc).
Proof.
  induction l as [|e l IH]; simpl; intros acc Hs; [exact Hs|].
  apply IH, insert_desc_sorted, Hs.
Qed.

Lemma Sorted_nth_error (l : list E) :
  Sorted Rdesc l -> sorted_desc l.
Proof.
  induction l as [|x l IH]; intros Hs i e1 e2 H1 H2; [destruct i; discriminate|].
  apply Sorted_inv in Hs as [Hs Hhd]. destruct i as [|i]; simpl in *.
  - injection H1 as <-. destruct l as [|y l]; [discriminate|].
    injection H2 as <-. inversion Hhd; subst. exact H1.
  - exact (IH Hs i e1 e2 H1 H2).
Qed.

Lemma sort_desc_sorted l : sorted_desc (sort_desc l).
Proof. apply Sorted_nth_error, sort_desc_fold_sorted. constructor. Qed.

(** The three properties of one cleaned entry list. *)
Lemma cleanEntries_props (l : list E) :
  NoDup (map e_performance (cleanEntries l)) /\
  keeps_max l (cleanEntries l) /\ sorted_desc (cleanEntries l).
Proof.
  destruct (dedup_inv_all l) as (Hnd & Hkv & Hcov).
  unfold cleanEntries, uniqueValues.
  set (m := fold_left dedup_step l []) in *.
  split; [|split; [|apply sort_desc_sorted]].
  - eapply Permutation_NoDup; [apply Permutation_map, Permutation_sym, sort_desc_perm|].
    rewrite map_perf_snd; [exact Hnd|]. intros k v Hin. apply (Hkv k v Hin).
  - intros p [e [He Hp]].
    destruct (Hcov e He) as [v Hv]. rewrite Hp in Hv.
    destruct (Hkv _ _ Hv) as (Hpv & l1 & l2 & Hs & H1 & H2).
    exists v. split; [|split; [|split]].
    + eapply Permutation_in; [apply Permutation_sym, sort_desc_perm|].
      apply (in_map snd) in Hv. exact Hv.
    + rewrite Hs. apply in_app_iff. right. left. reflexivity.
    + exact Hpv.
    + intros x Hx Hxp. exact (first_max_le l l1 l2 v p x Hs H1 H2 Hx Hxp).
Qed.

Lemma cleanEntries_first_max (l : list E) e' :
  In e' (cleanEntries l) ->
  exists l1 l2, l = l1 ++ e' :: l2 /\
    (forall x, In x l1 -> e_performance x = e_performance e' ->
               (e_points x < e_points e')%Z) /\
    (forall x, In x l2 -> e_performance x = e_performance e' ->
               (e_points x <= e_points e')%Z).
Proof.
  intros Hin. destruct (dedup_inv_all l) as (Hnd & Hkv & Hcov).
  unfold cleanEntries, uniqueValues in Hin.
  eapply Permutation_in in Hin; [|apply sort_desc_perm].
  apply in_map_iff in Hin as [[k v] [Hv Hkvin]]. simpl in Hv. subst v.
  destruct (Hkv _ _ Hkvin) as (Hp & l1 & l2 & Hs & H1 & H2). subst k.
  exists l1, l2. auto.
Qed.

End CleanSortProofs.

Lemma leaves_cleanAndSortData (t : Table ScoringEntry) :
  leaves (cleanAndSortData t) =
  map (fun '(g, c, e, l) => (g, c, e, cleanEntries l)) (leaves t).
Proof.
  induction t as [|[g cats] t IH]; [reflexivity|].
  unfold leaves, cleanAndSortData in *. simpl. rewrite map_app, IH. f_equal.
  clear IH. induction cats as [|[c evs] cats IH]; [reflexivity|].
  simpl. rewrite map_app, IH. f_equal.
  clear IH. induction evs as [|[e l] evs IH]; [reflexivity|].
  simpl. now rewrite IH.
Qed.

Lemma Forall2_map_self {X Y} (R : X -> Y -> Prop) (f : X -> Y) l :
  (forall x, In x l -> R x (f x)) -> Forall2 R l (map f l).
Proof.
  induction l as [|x l IH]; simpl; intros Hx; constructor; auto.
Qed.

(* ------------------------------------------------------------------ *)
(** ** Claims on the clean-and-sort pass *)

(** C1: after the clean-and-sort pass, every (gender, category, event)
    leaf is paired with the leaf it came from, and (1) its performance
    strings are pairwise distinct, (2) every observed performance is kept
    by an observed entry whose points are the maximum of the points of
    the observed entries with that performance, and (3) the points are
    non-increasing along the list. *)
Theorem cleanAndSortData_leaf_invariants (t : Table ScoringEntry) :
  Forall2 (fun '(g, c, e, l) '(g', c', e', l') =>
             g' = g /\ c' = c /\ e' = e /\
             NoDup (map performance l') /\ keeps_max l l' /\ sorted_desc l')
          (leaves t) (leaves (cleanAndSortData t)).
Proof.
  rewrite leaves_cleanAndSortData. apply Forall2_map_self.
  intros [[[g c] e] l] _. split; [reflexivity|]. split; [reflexivity|].
  split; [reflexivity|]. exact (cleanEntries_props l).
Qed.

(** C9: an entry kept by the deduplication is the first of the entries
    with its performance that reach the maximal points: every earlier
    entry with that performance has strictly fewer points, so a later
    tie never replaces the stored entry. *)
Theorem cleanEntries_tie_keeps_earlier {E : Type} `{HasEntryFields E}
  (l : list E) (kept : E) :
  In kept (cleanEntries l) ->
  exists l1 l2, l = l1 ++ kept :: l2 /\
    (forall x, In x l1 -> e_performance x = e_performance kept ->
               (e_points x < e_points kept)%Z) /\
    (forall x, In x l2 -> e_performance x = e_performance kept ->
               (e_points x <= e_points kept)%Z).
Proof. apply cleanEntries_first_max. Qed.

Lemma cleanEntries_tie_keeps_earlier_witness :
  let a := (1%nat, mkEntry "9.46" 1400) in
  let b := (2%nat, mkEntry "9.46" 1400) in
  In a (cleanEntries [a; b]) /\ ~ In b (cleanEntries [a; b]) /\
  exists l1 l2, [a; b] = l1 ++ a :: l2 /\
    (forall x, In x l1 -> e_performance x = e_performance a ->
               (e_points x < e_points a)%Z) /\
    (forall x, In x l2 -> e_performance x = e_performance a ->
               (e_points x <= e_points a)%Z).
Proof.
  intros a b. split; [|split].
  - vm_compute. left. reflexivity.
  - vm_compute. intros [H|[]]. discriminate H.
  - apply (cleanEntries_tie_keeps_earlier [a; b] a). vm_compute. left. reflexivity.
Defined.

(** C6 (as stated, refuted): two rows of one table with equal points and
    different performances for the same event leave two adjacent entries
    with equal points after the pass, so the order is not strictly
    descending. *)
Lemma cleanAndSortData_not_strictly_descending :
  ~ Forall (fun '(_, _, _, l) => strictly_desc l)
      (leaves (cleanAndSortData
        (ingest_rows sample_catalog (mkSection (Some "men") (Some "sprints"))
           ["100m"] (Some Left) ["1400 9.46"; "1400 9.47"] []))).
Proof.
  intros H. apply Forall_inv in H. vm_compute in H.
  specialize (H 0%nat _ _ eq_refl eq_refl). vm_compute in H. discriminate H.
Qed.

(** C6 (amended): after the pass every event's entries are sorted by
    points in non-increasing order (equal points may be adjacent). *)
Theorem cleanAndSortData_nonincreasing (t : Table ScoringEntry) :
  Forall (fun '(_, _, _, l) => sorted_desc l) (leaves (cleanAndSortData t)).
Proof.
  rewrite leaves_cleanAndSortData. apply Forall_forall.
  intros x Hx. apply in_map_iff in Hx as [[[[g c] e] l] [<- _]].
  apply sort_desc_sorted.
Qed.

(* ------------------------------------------------------------------ *)
(** ** Claims on the row parser and the aggregator *)

(** C4: whenever the row parser returns a row for a points column on the
    left (right), the first (last) reconstructed token parses with
    [parseInt] to an integer in [0, 1500], and that integer is the row's
    points. *)
Theorem parseCrossReferencedRow_points_in_range
  (line : string) (eventHeaders : list string) (side : Side) (row : DataRow) :
  parseCrossReferencedRow line eventHeaders (Some side) = Some row ->
  exists tok n,
    points_token side (reconstruct_tokens line) = Some tok /\
    js_parseInt tok = Some n /\
    row_points row = Some n /\ (0 <= n <= 1500)%Z.
Proof.
  unfold parseCrossReferencedRow, points_token.
  destruct (reconstruct_tokens line) as [|first rest]; [discriminate|].
  destruct side.
  - destruct (js_parseInt first) as [n|] eqn:Hp; [|discriminate].
    simpl. destruct ((n <? 0)%Z || (1500 <? n)%Z) eqn:Hr; [discriminate|].
    intros Hrow. injection Hrow as <-.
    apply orb_false_iff in Hr as [H1 H2]. apply Z.ltb_ge in H1. apply Z.ltb_ge in H2.
    exists first, n. repeat split; try assumption; reflexivity.
  - destruct (js_parseInt (last (first :: rest) EmptyString)) as [n|] eqn:Hp;
      [|discriminate].
    simpl. destruct ((n <? 0)%Z || (1500 <? n)%Z) eqn:Hr; [discriminate|].
    intros Hrow. injection Hrow as <-.
    apply orb_false_iff in Hr as [H1 H2]. apply Z.ltb_ge in H1. apply Z.ltb_ge in H2.
    exists (last (first :: rest) EmptyString), n.
    repeat split; try assumption; reflexivity.
Qed.

Lemma parseCrossReferencedRow_points_in_range_witness :
  exists tok n,
    parseCrossReferencedRow "9.46 19.03 1400" ["100m"; "200m"] (Some Right) =
      Some (mkRow (Some 1400%Z) [Some "9.46"; Some "19.03"] ["100m"; "200m"]) /\
    points_token Right (reconstruct_tokens "9.46 19.03 1400") = Some tok /\
    js_parseInt tok = Some n /\
    Some 1400%Z = Some n /\ (0 <= n <= 1500)%Z.
Proof.
  assert (Hrow : parseCrossReferencedRow "9.46 19.03 1400" ["100m"; "200m"] (Some Right) =
      Some (mkRow (Some 1400%Z) [Some "9.46"; Some "19.03"] ["100m"; "200m"]))
    by (vm_compute; reflexivity).
  destruct (parseCrossReferencedRow_points_in_range _ _ _ _ Hrow)
    as (tok & n & H1 & H2 & H3 & H4).
  exists tok, n. split; [exact Hrow|]. split; [exact H1|]. split; [exact H2|].
  split; [exact H3|exact H4].
Defined.

(** C5 (code bug): a row the parser accepts with points 0 is dropped by
    the aggregator, for every catalog, although its section has a gender
    and a category and its event and performance are present; the same
    row with points 1 is stored. *)
Theorem storeCrossReferencedData_drops_zero_points :
  let section := mkSection (Some "men") (Some "sprints") in
  parseCrossReferencedRow "0 9.46" ["100m"] (Some Left) =
    Some (mkRow (Some 0%Z) [Some "9.46"] ["100m"]) /\
  (forall getCategory (t : Table ScoringEntry),
     storeCrossReferencedData getCategory section
       (mkRow (Some 0%Z) [Some "9.46"] ["100m"]) t = t) /\
  storeCrossReferencedData sample_catalog section
    (mkRow (Some 1%Z) [Some "9.46"] ["100m"]) [] =
    [("men", [("sprints", [("100m", [mkEntry "9.46" 1])])])].
Proof.
  intros section. split; [|split].
  - vm_compute. reflexivity.
  - intros getCategory t. reflexivity.
  - vm_compute. reflexivity.
Qed.

(* ------------------------------------------------------------------ *)
(** ** Claims on the merge with a prior export *)

(** The text [{"men":null}] (Q a double quote: brace, Q, men, Q, colon,
    null, brace). *)
Definition men_null_text : string :=
  ("{" ++ String (ascii_of_nat 34) "men" ++ String (ascii_of_nat 34) ":null}")%string.

(** [JSON.parse] as [loadAndMerge] sees it: a [SyntaxError] is thrown. *)
Definition JSON_parse_throwing (text : string) : string + json :=
  match JSON_parse text with
  | Some v => inr v
  | None => inl "Unexpected token in JSON"
  end.

(** C7 (as stated, refuted): a prior export [{"men":null}] is valid JSON
    but not a table; [JSON.parse] accepts it, and the merge still changes
    the tables: the gender object is created before [Object.entries(null)]
    throws, and the warning is logged afterwards. *)
Lemma loadAndMerge_bad_shape_changes_tables :
  let st := mkState ScoringEntry [] [] in
  JSON_parse men_null_text = Some (JObj [("men", JNull)]) /\
  loadAndMerge ScoringEntry (fun _ => mkEntry EmptyString 0) (fun _ => true)
    (fun _ => inr men_null_text) JSON_parse_throwing
    "scoring-tables.json" st =
  (mkState ScoringEntry [("men", [])]
     [Warn "Cannot convert undefined or null to object"], Ok tt) /\
  tables ScoringEntry st <> [("men", [])].
Proof. split; [|split]; [vm_compute; reflexivity | vm_compute; reflexivity | discriminate]. Qed.

(** C7 (amended): for every file, whatever its contents, [loadAndMerge]
    returns normally; and when the prior export exists but reading it or
    [JSON.parse] fails, [loadAndMerge] leaves the tables unchanged and
    adds exactly one warning to the log. *)
Theorem loadAndMerge_parse_failure_keeps_tables
  (A : Type) (of_json : json -> A) (existsSync : string -> bool)
  (readFileSync : string -> string + string)
  (json_parse : string -> string + json) :
  (forall filePath (st : State A),
     snd (loadAndMerge A of_json existsSync readFileSync json_parse filePath st) = Ok tt) /\
  (forall filePath (st : State A),
     existsSync filePath = true ->
     (exists msg, readFileSync filePath = inl msg) \/
     (exists contents msg, readFileSync filePath = inr contents /\
                           json_parse contents = inl msg) ->
     exists msg, loadAndMerge A of_json existsSync readFileSync json_parse filePath st =
                 (mkState A (tables A st) (logs A st ++ [Warn msg]), Ok tt)).
Proof.
  split.
  - intros path st'. unfold loadAndMerge.
    destruct (negb (existsSync path)); [reflexivity|].
    unfold try_catch.
    lazymatch goal with
    | |- snd (match ?r with _ => _ end) = _ => destruct r as [st'' [[]|e]]
    end; reflexivity.
  - intros filePath st Hex Hfail.
    unfold loadAndMerge. rewrite Hex. simpl.
    destruct Hfail as [[msg Hr] | (contents & msg & Hr & Hp)].
    + exists msg. unfold try_catch, bind, lift. rewrite Hr. reflexivity.
    + exists msg. unfold try_catch, bind, lift. rewrite Hr. simpl. rewrite Hp.
      reflexivity.
Qed.

Lemma loadAndMerge_parse_failure_keeps_tables_witness :
  let st := mkState ScoringEntry [("men", [("sprints", [("100m", [mkEntry "9.46" 1400])])])] [] in
  JSON_parse_throwing "{" = inl "Unexpected token in JSON" /\
  (exists msg, loadAndMerge ScoringEntry (fun _ => mkEntry EmptyString 0) (fun _ => true)
      (fun _ => inr "{") JSON_parse_throwing "scoring-tables.json" st =
    (mkState ScoringEntry (tables ScoringEntry st) (logs ScoringEntry st ++ [Warn msg]),
     Ok tt)).
Proof.
  intros st. split; [vm_compute; reflexivity|].
  refine (proj2 (loadAndMerge_parse_failure_keeps_tables ScoringEntry
           (fun _ => mkEntry EmptyString 0) (fun _ => true) (fun _ => inr "{")
           JSON_parse_throwing) "scoring-tables.json" st _ _).
  - reflexivity.
  - right. exists "{", "Unexpected token in JSON". split; [reflexivity|].
    vm_compute. reflexivity.
Defined.

(* ------------------------------------------------------------------ *)
(** ** The event-name normalizer: strings and global replacement *)

Lemma str_drop_add (a b : nat) (s : string) :
  str_drop (a + b) s = str_drop b (str_drop a s).
Proof.
  revert s. induction a as [|a IH]; intros s; [reflexivity|].
  destruct s as [|c s']; simpl; [destruct b; reflexivity | apply IH].
Qed.

Lemma str_app_assoc (a b c : string) : (a ++ (b ++ c))%string = ((a ++ b) ++ c)%string.
Proof. induction a as [|x a IH]; simpl; [reflexivity | now rewrite IH]. Qed.

Lemma str_length_app (a b : string) :
  String.length (a ++ b) = (String.length a + String.length b)%nat.
Proof. induction a as [|x a IH]; simpl; [reflexivity | now rewrite IH]. Qed.

Lemma str_drop_nil (k : nat) : str_drop k EmptyString = EmptyString.
Proof. destruct k; reflexivity. Qed.

Lemma str_drop_app_lt (k : nat) (p t : string) :
  (k < String.length p)%nat -> str_drop k (p ++ t) = (str_drop k p ++ t)%string.
Proof.
  revert p. induction k as [|k IH]; intros p Hk; [reflexivity|].
  destruct p as [|c p']; simpl in *; [lia|]. apply IH. lia.
Qed.

Lemma starts_with_nil (s : string) : starts_with EmptyString s = true.
Proof. destruct s; reflexivity. Qed.

Lemma starts_with_app (p s : string) :
  starts_with p s = true -> s = (p ++ str_drop (String.length p) s)%string.
Proof.
  revert s. induction p as [|a p IH]; intros s H; [reflexivity|].
  destruct s as [|b s']; [discriminate|]. simpl in H.
  apply andb_true_iff in H as [Hab H]. apply Ascii.eqb_eq in Hab. subst b.
  simpl. f_equal. apply IH. exact H.
Qed.

Lemma starts_with_cons (a : ascii) (p s : string) :
  starts_with (String a p) s = true ->
  exists s', s = String a s' /\ starts_with p s' = true.
Proof.
  destruct s as [|b s']; [discriminate|]. simpl.
  intros H. apply andb_true_iff in H as [Hab H]. apply Ascii.eqb_eq in Hab.
  subst b. exists s'. split; [reflexivity | exact H].
Qed.

(** A word character cannot start a text whose first character is not a
    word character. *)
Lemma starts_with_nonword (a : ascii) (p t : string) :
  is_word a = true -> nonword_at 0 t = true -> starts_with (String a p) t = false.
Proof.
  intros Ha Ht. destruct t as [|c t']; [reflexivity|].
  unfold nonword_at in Ht. simpl in *.
  destruct (Ascii.eqb a c) eqn:E; [|reflexivity].
  apply Ascii.eqb_eq in E. subst c. rewrite Ha in Ht. discriminate.
Qed.

Lemma starts_with_head_neq (a c : ascii) (p t : string) :
  a <> c -> starts_with (String a p) (String c t) = false.
Proof.
  intros Hne. simpl. destruct (Ascii.eqb a c) eqn:E; [|reflexivity].
  apply Ascii.eqb_eq in E. contradiction.
Qed.

Lemma str_contains_nil_l (s : string) : str_contains EmptyString s = true.
Proof. destruct s; reflexivity. Qed.

Lemma str_contains_app_r (w r t : string) :
  str_contains w t = true -> str_contains w (r ++ t)%string = true.
Proof.
  induction r as [|c r IH]; intros H; [exact H|].
  simpl. rewrite (IH H). apply orb_true_r.
Qed.

Lemma str_contains_at (w s : string) :
  str_contains w s = true -> exists i, starts_with w (str_drop i s) = true.
Proof.
  induction s as [|c s IH]; intros H.
  - exists O. destruct w; [reflexivity | discriminate].
  - simpl in H. apply orb_true_iff in H as [H|H].
    + exists O. exact H.
    + destruct (IH H) as [i Hi]. exists (S i). exact Hi.
Qed.

Lemma digit_run_drop (k : nat) (s : string) :
  (k < digit_run s)%nat ->
  exists c t, str_drop k s = String c t /\ is_digit c = true.
Proof.
  revert s. induction k as [|k IH]; intros s Hk; destruct s as [|c s'];
    simpl in Hk; try lia.
  - destruct (is_digit c) eqn:Hc; [|lia]. exists c, s'. split; [reflexivity | exact Hc].
  - destruct (is_digit c) eqn:Hc; [|lia]. apply IH. lia.
Qed.

Lemma ws_run_drop (k : nat) (s : string) :
  (k < ws_run s)%nat ->
  exists c t, str_drop k s = String c t /\ is_ws c = true.
Proof.
  revert s. induction k as [|k IH]; intros s Hk; destruct s as [|c s'];
    simpl in Hk; try lia.
  - destruct (is_ws c) eqn:Hc; [|lia]. exists c, s'. split; [reflexivity | exact Hc].
  - destruct (is_ws c) eqn:Hc; [|lia]. apply IH. lia.
Qed.

Lemma digit_run_le (s : string) : (digit_run s <= String.length s)%nat.
Proof.
  induction s as [|c s IH]; simpl; [lia|]. destruct (is_digit c); lia.
Qed.

(** Every position of the greedy number holds a digit or a period. *)
Lemma number_len_drop (k : nat) (s : string) :
  (k < number_len s)%nat ->
  exists c t, str_drop k s = String c t /\ (is_digit c || (code c =? 46)%nat) = true.
Proof.
  unfold number_len. intros Hk.
  destruct (Nat.lt_ge_cases k (digit_run s)) as [Hd|Hd].
  - destruct (digit_run_drop k s Hd) as (c & t & Ht & Hc).
    exists c, t. rewrite Hc. split; [exact Ht | reflexivity].
  - destruct (str_drop (digit_run s) s) as [|c r] eqn:Hr; [lia|].
    destruct ((code c =? 46)%nat && (0 <? digit_run r)%nat) eqn:Hdot; [|lia].
    apply andb_true_iff in Hdot as [Hdot _].
    replace k with (digit_run s + (k - digit_run s))%nat by lia.
    rewrite str_drop_add, Hr.
    destruct (k - digit_run s)%nat as [|j] eqn:Hj.
    + exists c, r. rewrite Hdot, orb_true_r. split; reflexivity.
    + simpl. destruct (digit_run_drop j r) as (c' & t & Ht & Hc); [lia|].
      exists c', t. rewrite Hc. split; [exact Ht | reflexivity].
Qed.

(** The normalizer's patterns only ever compare the leading character
    with a lowercase letter. *)
Lemma lower_not_digit (a c : ascii) :
  is_lower a = true -> (is_digit c || (code c =? 46)%nat || is_ws c) = true -> a <> c.
Proof.
  intros Ha Hc ->. unfold is_lower, is_digit, is_ws in *.
  apply andb_true_iff in Ha as [Ha1 Ha2].
  apply Nat.leb_le in Ha1. apply Nat.leb_le in Ha2.
  repeat (apply orb_true_iff in Hc as [Hc|Hc]);
    repeat match goal with
    | H : (_ && _) = true |- _ => apply andb_true_iff in H as [? ?]
    | H : (_ <=? _)%nat = true |- _ => apply Nat.leb_le in H
    | H : (_ =? _)%nat = true |- _ => apply Nat.eqb_eq in H
    end; lia.
Qed.

Lemma string_cases (w : string) : w = EmptyString \/ exists a q, w = String a q.
Proof. destruct w as [|a q]; [left; reflexivity | right; exists a, q; reflexivity]. Qed.

Section GsubKeeps.

(** A global replacement keeps every occurrence of [w] when no match
    covers the start of an occurrence and no attempt inside an occurrence
    matches. *)
Variable step : matcher.
Variable w : string.

Hypothesis no_overlap : forall prev s n r, step prev s = Some (n, r) ->
  forall k, (k <= n)%nat -> starts_with w (str_drop k s) = false.

Hypothesis no_inner : forall prev s k, (0 < k < String.length w)%nat ->
  starts_with (str_drop k w) s = true -> step prev s = None.

Lemma gsub_copies_inner (t : string) : forall j prev, (0 < j)%nat ->
  starts_with (str_drop j w) t = true ->
  starts_with (str_drop j w) (gsub_from step O prev t) = true.
Proof.
  induction t as [|c t IH]; intros j prev Hj Ht.
  - destruct (str_drop j w) as [|a q] eqn:Hq; [apply starts_with_nil | discriminate].
  - destruct (str_drop j w) as [|a q] eqn:Hq; [apply starts_with_nil|].
    assert (Hjl : (j < String.length w)%nat).
    { destruct (Nat.lt_ge_cases j (String.length w)) as [H|H]; [exact H|].
      exfalso. revert Hq. clear -H. revert j H.
      induction w as [|b w' IHw]; intros j H; simpl; [rewrite str_drop_nil; discriminate|].
      destruct j as [|j]; simpl in H; [lia|]. apply IHw. lia. }
    simpl. rewrite (no_inner prev (String c t) j); [| lia | rewrite Hq; exact Ht].
    apply starts_with_cons in Ht as (s' & Hs & Hq').
    injection Hs as <- <-. simpl. rewrite Ascii.eqb_refl. simpl.
    assert (Hq1 : str_drop (S j) w = q).
    { clear -Hq. revert j Hq. induction w as [|b w' IHw]; intros j Hq.
      - rewrite str_drop_nil in Hq. discriminate.
      - destruct j as [|j]; simpl in *; [now injection Hq as _ ->|]. apply IHw. exact Hq. }
    rewrite <- Hq1. apply IH; [lia|]. rewrite Hq1. exact Hq'.
Qed.

Lemma gsub_keeps_from (s : string) : forall skip prev i, (skip <= i)%nat ->
  starts_with w (str_drop i s) = true ->
  str_contains w (gsub_from step skip prev s) = true.
Proof.
  induction s as [|c s IH]; intros skip prev i Hi Hw.
  - rewrite str_drop_nil in Hw.
    destruct (string_cases w) as [-> | (a & q & Hwq)]; [apply str_contains_nil_l|].
    rewrite Hwq in Hw. discriminate.
  - destruct skip as [|k].
    + simpl. destruct (step prev (String c s)) as [[n r]|] eqn:E.
      * destruct (Nat.le_gt_cases i n) as [Hin|Hin].
        { rewrite (no_overlap prev (String c s) n r E i Hin) in Hw. discriminate. }
        destruct i as [|i]; [lia|].
        apply str_contains_app_r. apply (IH n (Some c) i); [lia | exact Hw].
      * destruct i as [|i].
        { simpl in Hw.
          destruct (string_cases w) as [-> | (a & q & Hwq)]; [apply str_contains_nil_l|].
          rewrite Hwq in Hw |- *.
          simpl. apply orb_true_iff. left.
          apply starts_with_cons in Hw as (s' & Hs & Hq).
          injection Hs as <- <-. simpl. rewrite Ascii.eqb_refl. simpl.
          assert (Hq1 : q = str_drop 1 w) by (rewrite Hwq; reflexivity).
          rewrite Hq1. apply gsub_copies_inner; [lia|]. rewrite <- Hq1. exact Hq. }
        simpl. apply orb_true_iff. right. apply (IH O (Some c) i); [lia | exact Hw].
    + destruct i as [|i]; [lia|]. simpl. apply (IH k (Some c) i); [lia | exact Hw].
Qed.

Lemma gsub_keeps (s : string) :
  str_contains w s = true -> str_contains w (js_replace_all step s) = true.
Proof.
  intros H. apply str_contains_at in H as [i Hi].
  apply (gsub_keeps_from s O None i); [lia | exact Hi].
Qed.

End GsubKeeps.

Lemma starts_with_short (q : string) : forall w t,
  (String.length q < String.length w)%nat ->
  forallb is_word (list_ascii_of_string w) = true ->
  nonword_at 0 t = true -> starts_with w (q ++ t) = false.
Proof.
  induction q as [|c q IH]; intros w t Hlen Hw Ht;
    destruct w as [|a p]; simpl in Hlen; try lia;
    simpl in Hw; apply andb_true_iff in Hw as [Ha Hp].
  - apply starts_with_nonword; assumption.
  - cbn [starts_with append]. destruct (Ascii.eqb a c); [|reflexivity].
    apply IH; [lia | exact Hp | exact Ht].
Qed.

(** The texts a match of the normalizer's rewrites can end with, each
    followed by a non-word character. *)
Definition match_windows : list string :=
  ["miles"; "m"; "km"; "mile";
   "mh"; "msh"; "msc"; "mw"; "kmh"; "kmsh"; "kmsc"; "kmw";
   "mileh"; "milesh"; "milesc"; "milew"].

Definition kept_words : list string := ["walk"; "marathon"].

Lemma window_no_start (w P t : string) (k : nat) :
  In w kept_words -> In P match_windows -> (k < String.length P)%nat ->
  nonword_at 0 t = true -> starts_with w (str_drop k (P ++ t)) = false.
Proof.
  intros Hw HP Hk Ht. rewrite (str_drop_app_lt k P t Hk).
  simpl in Hw, HP.
  destruct Hw as [<- | [<- | []]];
  (repeat (destruct HP as [<- | HP];
     [simpl in Hk;
      repeat (destruct k as [|k];
        [solve [first [reflexivity
                      | apply starts_with_short; [simpl; lia | reflexivity | exact Ht]]]
        | try lia]) |])); destruct HP.
Qed.

Lemma kept_word_head (w : string) :
  In w kept_words -> exists a q, w = String a q /\ is_lower a = true.
Proof.
  simpl. intros [<- | [<- | []]]; eexists _, _; split; reflexivity.
Qed.

(** A kept word does not start at a digit, a period or a whitespace. *)
Lemma kept_word_not_digit (w : string) (k : nat) (s : string) :
  In w kept_words ->
  (exists c t, str_drop k s = String c t /\
               (is_digit c || (code c =? 46)%nat || is_ws c) = true) ->
  starts_with w (str_drop k s) = false.
Proof.
  intros Hw (c & t & Hs & Hc). destruct (kept_word_head w Hw) as (a & q & -> & Ha).
  rewrite Hs. apply starts_with_head_neq. exact (lower_not_digit a c Ha Hc).
Qed.

Lemma window_of (P v : string) :
  starts_with P v = true -> nonword_at (String.length P) v = true ->
  exists t, v = (P ++ t)%string /\ nonword_at 0 t = true.
Proof.
  intros Hs Hn. exists (str_drop (String.length P) v). split.
  - exact (starts_with_app P v Hs).
  - exact Hn.
Qed.

Lemma unit_b_window (v : string) (u : nat) :
  unit_b v = Some u ->
  exists P t, v = (P ++ t)%string /\ u = String.length P /\
              In P ["m"; "km"; "mile"] /\ nonword_at 0 t = true.
Proof.
  unfold unit_b.
  destruct (starts_with "m" v && nonword_at 1 v) eqn:E1.
  { intros H; injection H as <-. apply andb_true_iff in E1 as [Hs Hn].
    destruct (window_of "m" v Hs Hn) as (t & -> & Ht).
    exists "m", t. repeat split; simpl; auto. }
  destruct (starts_with "km" v && nonword_at 2 v) eqn:E2.
  { intros H; injection H as <-. apply andb_true_iff in E2 as [Hs Hn].
    destruct (window_of "km" v Hs Hn) as (t & -> & Ht).
    exists "km", t. repeat split; simpl; auto. }
  destruct (starts_with "mile" v && nonword_at 4 v) eqn:E3; [|discriminate].
  intros H; injection H as <-. apply andb_true_iff in E3 as [Hs Hn].
  destruct (window_of "mile" v Hs Hn) as (t & -> & Ht).
  exists "mile", t. repeat split; simpl; auto.
Qed.

Lemma modifier_b_window (v : string) (m : nat) :
  modifier_b v = Some m ->
  exists Q t, v = (Q ++ t)%string /\ m = String.length Q /\
              In Q ["h"; "sh"; "sc"; "w"] /\ nonword_at 0 t = true.
Proof.
  unfold modifier_b.
  destruct (starts_with "h" v && nonword_at 1 v) eqn:E1.
  { intros H; injection H as <-. apply andb_true_iff in E1 as [Hs Hn].
    destruct (window_of "h" v Hs Hn) as (t & -> & Ht).
    exists "h", t. repeat split; simpl; auto. }
  destruct (starts_with "sh" v && nonword_at 2 v) eqn:E2.
  { intros H; injection H as <-. apply andb_true_iff in E2 as [Hs Hn].
    destruct (window_of "sh" v Hs Hn) as (t & -> & Ht).
    exists "sh", t. repeat split; simpl; auto. }
  destruct (starts_with "sc" v && nonword_at 2 v) eqn:E3.
  { intros H; injection H as <-. apply andb_true_iff in E3 as [Hs Hn].
    destruct (window_of "sc" v Hs Hn) as (t & -> & Ht).
    exists "sc", t. repeat split; simpl; auto. }
  destruct (starts_with "w" v && nonword_at 1 v) eqn:E4; [|discriminate].
  intros H; injection H as <-. apply andb_true_iff in E4 as [Hs Hn].
  destruct (window_of "w" v Hs Hn) as (t & -> & Ht).
  exists "w", t. repeat split; simpl; auto.
Qed.

Lemma after_prefix (P v : string) (m : nat) :
  starts_with P v = true -> modifier_b (str_drop (String.length P) v) = Some m ->
  exists Q t, v = (P ++ Q ++ t)%string /\ m = String.length Q /\
              In Q ["h"; "sh"; "sc"; "w"] /\ nonword_at 0 t = true.
Proof.
  intros Hs Hm. destruct (modifier_b_window _ _ Hm) as (Q & t & Hv & Hl & HQ & Ht).
  exists Q, t. split; [|tauto]. rewrite (starts_with_app P v Hs) at 1. rewrite Hv.
  reflexivity.
Qed.

Lemma unit_modifier_window (v : string) (u m : nat) :
  unit_modifier v = Some (u, m) ->
  exists P Q t, v = (P ++ Q ++ t)%string /\ u = String.length P /\
    m = String.length Q /\ In (P ++ Q)%string match_windows /\ nonword_at 0 t = true.
Proof.
  assert (Hwin : forall P Q, In P ["m"; "km"; "mile"] -> In Q ["h"; "sh"; "sc"; "w"] ->
                 In (P ++ Q)%string match_windows).
  { intros P Q HP HQ. simpl in HP, HQ.
    destruct HP as [<- | [<- | [<- | []]]]; destruct HQ as [<- | [<- | [<- | [<- | []]]]];
      simpl; tauto. }
  unfold unit_modifier.
  destruct (if starts_with "m" v then modifier_b (str_drop 1 v) else None) as [k|] eqn:E1.
  { intros H; injection H as <- <-.
    destruct (starts_with "m" v) eqn:Hs; [|discriminate].
    destruct (after_prefix "m" v k Hs E1) as (Q & t & Hv & Hl & HQ & Ht).
    exists "m", Q, t. repeat split; try assumption. apply Hwin; simpl; tauto. }
  destruct (if starts_with "km" v then modifier_b (str_drop 2 v) else None) as [k|] eqn:E2.
  { intros H; injection H as <- <-.
    destruct (starts_with "km" v) eqn:Hs; [|discriminate].
    destruct (after_prefix "km" v k Hs E2) as (Q & t & Hv & Hl & HQ & Ht).
    exists "km", Q, t. repeat split; try assumption. apply Hwin; simpl; tauto. }
  destruct (if starts_with "mile" v then modifier_b (str_drop 4 v) else None) as [k|] eqn:E3;
    [|discriminate].
  intros H; injection H as <- <-.
  destruct (starts_with "mile" v) eqn:Hs; [|discriminate].
  destruct (after_prefix "mile" v k Hs E3) as (Q & t & Hv & Hl & HQ & Ht).
  exists "mile", Q, t. repeat split; try assumption. apply Hwin; simpl; tauto.
Qed.

Lemma kept_word_digits (w s : string) (k : nat) :
  In w kept_words -> (k < digit_run s)%nat -> starts_with w (str_drop k s) = false.
Proof.
  intros Hw Hk. apply kept_word_not_digit; [exact Hw|].
  destruct (digit_run_drop k s Hk) as (c & t & Ht & Hc).
  exists c, t. rewrite Hc. split; [exact Ht | reflexivity].
Qed.

Lemma kept_word_window (w s v P t : string) (a k : nat) :
  In w kept_words -> str_drop a s = v -> v = (P ++ t)%string ->
  In P match_windows -> nonword_at 0 t = true ->
  (a <= k < a + String.length P)%nat -> starts_with w (str_drop k s) = false.
Proof.
  intros Hw Hv HvP HP Ht Hk.
  replace k with (a + (k - a))%nat by lia. rewrite str_drop_add, Hv, HvP.
  apply window_no_start; [exact Hw | exact HP | lia | exact Ht].
Qed.

Lemma miles_step_no_overlap (w : string) : In w kept_words ->
  forall prev s n r, miles_step prev s = Some (n, r) ->
  forall k, (k <= n)%nat -> starts_with w (str_drop k s) = false.
Proof.
  intros Hw prev s n r H k Hk. unfold miles_step in H.
  destruct (negb (is_word_opt prev) && starts_with "miles" s && nonword_at 5 s) eqn:E;
    [|discriminate].
  injection H as <- <-.
  apply andb_true_iff in E as [E Hn]. apply andb_true_iff in E as [_ Hs].
  destruct (window_of "miles" s Hs Hn) as (t & Hst & Ht).
  apply (kept_word_window w s s "miles" t 0); simpl; auto; lia.
Qed.

Lemma unit_step_no_overlap (w : string) : In w kept_words ->
  forall prev s n r, unit_step prev s = Some (n, r) ->
  forall k, (k <= n)%nat -> starts_with w (str_drop k s) = false.
Proof.
  intros Hw prev s n r H k Hk. unfold unit_step in H.
  destruct (digit_run s =? 0)%nat; [discriminate|].
  destruct (ws_run (str_drop (number_len s) s) =? 0)%nat eqn:HW; [discriminate|].
  apply Nat.eqb_neq in HW.
  destruct (unit_b (str_drop (ws_run (str_drop (number_len s) s))
                      (str_drop (number_len s) s))) as [u|] eqn:Eu; [|discriminate].
  injection H as <- _.
  destruct (unit_b_window _ _ Eu) as (P & t & Hv & -> & HP & Ht).
  set (N := number_len s) in *. set (W := ws_run (str_drop N s)) in *.
  destruct (Nat.lt_ge_cases k N) as [HkN|HkN].
  { apply kept_word_not_digit; [exact Hw|].
    destruct (number_len_drop k s HkN) as (c & t' & Ht' & Hc).
    exists c, t'. rewrite Hc. split; [exact Ht' | reflexivity]. }
  destruct (Nat.lt_ge_cases k (N + W)) as [HkW|HkW].
  { apply kept_word_not_digit; [exact Hw|].
    replace k with (N + (k - N))%nat by lia. rewrite str_drop_add.
    destruct (ws_run_drop (k - N) (str_drop N s)) as (c & t' & Ht' & Hc); [lia|].
    exists c, t'. rewrite Hc, orb_true_r. split; [exact Ht' | reflexivity]. }
  apply (kept_word_window w s (str_drop W (str_drop N s)) P t (N + W)); try assumption.
  - rewrite str_drop_add. reflexivity.
  - simpl in HP. simpl. tauto.
  - destruct P as [|c P']; [simpl in HP; intuition discriminate|]. simpl in *. lia.
Qed.

Lemma modifier_step_no_overlap (w : string) : In w kept_words ->
  forall prev s n r, modifier_step prev s = Some (n, r) ->
  forall k, (k <= n)%nat -> starts_with w (str_drop k s) = false.
Proof.
  intros Hw prev s n r H k Hk. unfold modifier_step in H.
  destruct (digit_run s =? 0)%nat eqn:HN; [discriminate|]. apply Nat.eqb_neq in HN.
  destruct (unit_modifier (str_drop (digit_run s) s)) as [[u m]|] eqn:Eu; [|discriminate].
  injection H as <- _.
  destruct (unit_modifier_window _ _ _ Eu) as (P & Q & t & Hv & -> & -> & HPQ & Ht).
  destruct (Nat.lt_ge_cases k (digit_run s)) as [HkN|HkN].
  { apply kept_word_digits; assumption. }
  apply (kept_word_window w s (str_drop (digit_run s) s) (P ++ Q) t (digit_run s));
    try assumption.
  all: first [ reflexivity | rewrite Hv; apply str_app_assoc
             | rewrite str_length_app; lia ].
Qed.

Lemma relay_step_no_overlap (w : string) : In w kept_words ->
  forall prev s n r, relay_step prev s = Some (n, r) ->
  forall k, (k <= n)%nat -> starts_with w (str_drop k s) = false.
Proof.
  intros Hw prev s n r H k Hk. unfold relay_step in H.
  destruct (starts_with "4x" s) eqn:H4; [|discriminate]. cbn [negb] in H.
  destruct (digit_run (str_drop 2 s) =? 0)%nat eqn:HN; [discriminate|].
  apply Nat.eqb_neq in HN.
  set (N := digit_run (str_drop 2 s)) in *.
  destruct (starts_with "m" (str_drop (2 + N) s)) eqn:Hm; [|discriminate]. cbn [negb] in H.
  destruct (starts_with "ix" (str_drop 1 (str_drop (2 + N) s))
            && nonword_at 2 (str_drop 1 (str_drop (2 + N) s))); [discriminate|].
  destruct (modifier_b (str_drop 1 (str_drop (2 + N) s))) as [m|] eqn:Em; [|discriminate].
  injection H as <- _.
  destruct (after_prefix "m" (str_drop (2 + N) s) m Hm Em) as (Q & t & Hv & -> & HQ & Ht).
  destruct (Nat.lt_ge_cases k 2) as [Hk2|Hk2].
  { rewrite (starts_with_app "4x" s H4).
    simpl in Hw. destruct Hw as [<- | [<- | []]];
      (destruct k as [|[|k]]; [reflexivity | reflexivity | lia]). }
  destruct (Nat.lt_ge_cases k (2 + N)) as [HkN|HkN].
  { replace k with (2 + (k - 2))%nat by lia. rewrite str_drop_add.
    apply kept_word_digits; [exact Hw | lia]. }
  apply (kept_word_window w s (str_drop (2 + N) s) ("m" ++ Q) t (2 + N)); try assumption.
  all: first [ reflexivity | exact Hv | simpl; lia
             | simpl in HQ; destruct HQ as [<- | [<- | [<- | [<- | []]]]]; simpl; tauto ].
Qed.

Lemma kept_inner_head (w s : string) (k : nat) :
  In w kept_words -> (0 < k < String.length w)%nat ->
  starts_with (str_drop k w) s = true ->
  exists a s', s = String a s' /\ In a ["a"; "l"; "k"; "r"; "t"; "h"; "o"; "n"]%char.
Proof.
  intros Hw Hk Hs. simpl in Hw.
  destruct Hw as [<- | [<- | []]]; simpl in Hk;
    (do 8 (destruct k as [|k];
       [first [ lia
              | apply starts_with_cons in Hs as (s' & -> & _);
                eexists _, s'; split; [reflexivity | simpl; tauto] ] |])); lia.
Qed.

Ltac inner_none :=
  match goal with
  | Hw : In _ kept_words, Hk : (0 < _ < _)%nat, Hs : starts_with _ _ = true |- _ =>
      destruct (kept_inner_head _ _ _ Hw Hk Hs) as (a & s' & -> & Ha);
      simpl in Ha;
      repeat (destruct Ha as [<- | Ha]; [solve [reflexivity
        | match goal with
          | |- context [starts_with ?p (String ?a ?s)] =>
              replace (starts_with p (String a s)) with false by reflexivity;
              rewrite andb_false_r; reflexivity
          end] |]);
      destruct Ha
  end.

Lemma miles_step_no_inner (w : string) : In w kept_words ->
  forall prev s k, (0 < k < String.length w)%nat ->
  starts_with (str_drop k w) s = true -> miles_step prev s = None.
Proof. intros Hw prev s k Hk Hs. unfold miles_step. inner_none. Qed.

Lemma unit_step_no_inner (w : string) : In w kept_words ->
  forall prev s k, (0 < k < String.length w)%nat ->
  starts_with (str_drop k w) s = true -> unit_step prev s = None.
Proof. intros Hw prev s k Hk Hs. unfold unit_step. inner_none. Qed.

Lemma modifier_step_no_inner (w : string) : In w kept_words ->
  forall prev s k, (0 < k < String.length w)%nat ->
  starts_with (str_drop k w) s = true -> modifier_step prev s = None.
Proof. intros Hw prev s k Hk Hs. unfold modifier_step. inner_none. Qed.

Lemma relay_step_no_inner (w : string) : In w kept_words ->
  forall prev s k, (0 < k < String.length w)%nat ->
  starts_with (str_drop k w) s = true -> relay_step prev s = None.
Proof. intros Hw prev s k Hk Hs. unfold relay_step. inner_none. Qed.

(** The rewrites from [toLowerCase()] on keep every occurrence of
    [marathon] and [walk]. *)
Lemma normalize_units_keeps (w n : string) : In w kept_words ->
  str_contains w (js_toLowerCase n) = true -> str_contains w (normalize_units n) = true.
Proof.
  intros Hw H. unfold normalize_units.
  apply (gsub_keeps relay_step w (relay_step_no_overlap w Hw) (relay_step_no_inner w Hw)).
  apply (gsub_keeps modifier_step w (modifier_step_no_overlap w Hw)
           (modifier_step_no_inner w Hw)).
  apply (gsub_keeps unit_step w (unit_step_no_overlap w Hw) (unit_step_no_inner w Hw)).
  pose proof (gsub_keeps miles_step w (miles_step_no_overlap w Hw)
                (miles_step_no_inner w Hw) _ H) as H1.
  destruct (String.eqb (js_replace_all miles_step (js_toLowerCase n)) "mile") eqn:E.
  { apply String.eqb_eq in E. rewrite E in H1. simpl in Hw.
    destruct Hw as [<- | [<- | []]]; discriminate H1. }
  destruct (is_mile_modifier (js_replace_all miles_step (js_toLowerCase n))).
  - apply str_contains_app_r. exact H1.
  - exact H1.
Qed.

(* ------------------------------------------------------------------ *)
(** ** Claims on the event-name normalizer *)

(** C10: every descriptor whose trimmed, whitespace-collapsed and
    lowercased form contains [marathon] or [walk] is accepted
    ([normalizeEventName] does not return [null]), whatever else it
    contains: the last two alternatives of the validation pattern are
    unanchored and the rewrites before it never break those words. *)
Theorem normalizeEventName_accepts_marathon_walk (d : string) :
  (str_contains "marathon" (js_toLowerCase (js_replace_all ws_step (js_trim d)))
   || str_contains "walk" (js_toLowerCase (js_replace_all ws_step (js_trim d)))) = true ->
  normalizeEventName d <> None.
Proof.
  intros H. unfold normalizeEventName.
  destruct (String.eqb d EmptyString) eqn:Ed.
  { apply String.eqb_eq in Ed. subst d. discriminate H. }
  destruct (is_comma_walk (js_replace_all ws_step (js_trim d))); [discriminate|].
  destruct (is_relay (normalize_units (js_replace_all ws_step (js_trim d)))); [discriminate|].
  unfold is_event_like.
  apply orb_true_iff in H as [H|H].
  - rewrite (normalize_units_keeps "marathon" _ ltac:(simpl; tauto) H).
    rewrite orb_true_r. simpl. discriminate.
  - rewrite (normalize_units_keeps "walk" _ ltac:(simpl; tauto) H).
    rewrite orb_true_r. discriminate.
Qed.

Lemma normalizeEventName_accepts_marathon_walk_witness :
  normalizeEventName "Sidewalk" = Some "sidewalk" /\
  normalizeEventName "Sidewalk" <> None.
Proof.
  split; [vm_compute; reflexivity|].
  apply normalizeEventName_accepts_marathon_walk. vm_compute. reflexivity.
Defined.

(* ------------------------------------------------------------------ *)
From Stdlib Require Import DecimalPos DecimalN DecimalFacts.

(** ** The exporter: lexing printed JSON *)

Fixpoint str_all (p : ascii -> bool) (s : string) : bool :=
  match s with
  | EmptyString => true
  | String c s' => p c && str_all p s'
  end.

Lemma str_all_app p (a b : string) :
  str_all p (a ++ b) = str_all p a && str_all p b.
Proof. induction a as [|c a IH]; simpl; [reflexivity|]. rewrite IH. apply andb_assoc. Qed.

Lemma str_app_nil_r (a : string) : (a ++ EmptyString)%string = a.
Proof. induction a as [|c a IH]; simpl; [reflexivity | now rewrite IH]. Qed.

Lemma str_has_app p (a b : string) :
  str_has p (a ++ b) = str_has p a || str_has p b.
Proof. induction a as [|c a IH]; simpl; [reflexivity|]. rewrite IH. apply orb_assoc. Qed.

Lemma str_drop_app_len (a b : string) : str_drop (String.length a) (a ++ b) = b.
Proof. induction a as [|c a IH]; simpl; [destruct b; reflexivity | exact IH]. Qed.

Lemma str_drop_app_add (a b : string) k :
  str_drop (String.length a + k) (a ++ b) = str_drop k b.
Proof. induction a as [|c a IH]; simpl; [reflexivity | exact IH]. Qed.

Lemma str_take_app_len (a b : string) : str_take (String.length a) (a ++ b) = a.
Proof. induction a as [|c a IH]; simpl; [destruct b; reflexivity | now rewrite IH]. Qed.

Lemma ws_run_app (a b : string) :
  str_all is_ws a = true -> ws_run (a ++ b) = (String.length a + ws_run b)%nat.
Proof.
  induction a as [|c a IH]; simpl; [reflexivity|].
  intros H. apply andb_true_iff in H as [H1 H2]. rewrite H1, IH by exact H2. reflexivity.
Qed.

Lemma digit_run_app (a b : string) :
  str_all is_digit a = true -> digit_run (a ++ b) = (String.length a + digit_run b)%nat.
Proof.
  induction a as [|c a IH]; simpl; [reflexivity|].
  intros H. apply andb_true_iff in H as [H1 H2]. rewrite H1, IH by exact H2. reflexivity.
Qed.

Lemma nonquote_run_app (a b : string) :
  no_char 34 a = true -> nonquote_run (a ++ b) = (String.length a + nonquote_run b)%nat.
Proof.
  unfold no_char. induction a as [|c a IH]; simpl; [reflexivity|].
  intros H. apply negb_true_iff, orb_false_iff in H as [H1 H2].
  rewrite H1, IH by (apply negb_true_iff; exact H2). reflexivity.
Qed.

(** The text after a number literal does not continue it. *)
Definition num_delim (s : string) : bool :=
  match s with
  | String c _ => negb (is_digit c) && negb ((code c =? 46)%nat || (code c =? 101)%nat
                                             || (code c =? 69)%nat)
  | EmptyString => true
  end.

Definition lexes (s : string) (ts : list token) : Prop :=
  forall f, (String.length s < f)%nat -> lex f s = Some ts.

Lemma lexes_nil : lexes EmptyString [].
Proof. intros [|f] H; [simpl in H; lia | reflexivity]. Qed.

Lemma lexes_ws c s ts : json_ws c = true -> lexes s ts -> lexes (String c s) ts.
Proof.
  intros Hc H [|f] Hf; [simpl in Hf; lia|]. cbn [lex]. rewrite Hc.
  apply H. simpl in Hf. lia.
Qed.

Lemma lexes_ws_str w s ts : str_all json_ws w = true -> lexes s ts -> lexes (w ++ s) ts.
Proof.
  induction w as [|c w IH]; simpl; [auto|].
  intros Hw H. apply andb_true_iff in Hw as [H1 H2]. apply lexes_ws; auto.
Qed.

Ltac lex_punct :=
  intros H [|f] Hf; [simpl in Hf; lia|]; simpl; unfold option_map;
  rewrite H by (simpl in Hf; lia); reflexivity.

Lemma lexes_lbrace s ts : lexes s ts -> lexes (String "{" s) (TLBrace :: ts).
Proof. lex_punct. Qed.
Lemma lexes_rbrace s ts : lexes s ts -> lexes (String "}" s) (TRBrace :: ts).
Proof. lex_punct. Qed.
Lemma lexes_lbrack s ts : lexes s ts -> lexes (String "[" s) (TLBrack :: ts).
Proof. lex_punct. Qed.
Lemma lexes_rbrack s ts : lexes s ts -> lexes (String "]" s) (TRBrack :: ts).
Proof. lex_punct. Qed.
Lemma lexes_colon s ts : lexes s ts -> lexes (String ":" s) (TColon :: ts).
Proof. lex_punct. Qed.
Lemma lexes_comma s ts : lexes s ts -> lexes (String "," s) (TComma :: ts).
Proof. lex_punct. Qed.
Lemma lexes_null s ts : lexes s ts -> lexes ("null" ++ s) (TNull :: ts).
Proof. lex_punct. Qed.
Lemma lexes_true s ts : lexes s ts -> lexes ("true" ++ s) (TTrue :: ts).
Proof. lex_punct. Qed.
Lemma lexes_false s ts : lexes s ts -> lexes ("false" ++ s) (TFalse :: ts).
Proof. lex_punct. Qed.
Lemma lex_string_quote_char (c : ascii) (r : string) :
  lex_string (quote_char c ++ r) =
  option_map (fun '(x, r') => (String c x, r')) (lex_string r).
Proof.
  destruct c as [b0 b1 b2 b3 b4 b5 b6 b7].
  destruct b0, b1, b2, b3, b4, b5, b6, b7; reflexivity.
Qed.

Lemma lex_string_quote (x rest : string) :
  lex_string (quote_chars x ++ dq ++ rest) = Some (x, rest).
Proof.
  induction x as [|c x IH]; [reflexivity|].
  simpl quote_chars. rewrite <- str_app_assoc, lex_string_quote_char, IH. reflexivity.
Qed.

Lemma lex_quote_step f s :
  lex (S f) (String "034" s) =
  match lex_string s with
  | Some (x, r) => option_map (cons (TStr x)) (lex f r)
  | None => None
  end.
Proof. reflexivity. Qed.

Lemma lexes_str x rest ts : lexes rest ts -> lexes (QuoteJSONString x ++ rest) (TStr x :: ts).
Proof.
  intros H [|f] Hf; [simpl in Hf; lia|].
  assert (E : (QuoteJSONString x ++ rest)%string = String "034" (quote_chars x ++ dq ++ rest))
    by (unfold QuoteJSONString; rewrite <- !str_app_assoc; reflexivity).
  rewrite E in *. rewrite lex_quote_step, lex_string_quote. unfold option_map.
  rewrite H; [reflexivity|].
  simpl in Hf. rewrite !str_length_app in Hf. simpl in Hf. lia.
Qed.

(** Numbers. *)
Lemma digits_uint_app (u : Decimal.uint) (rest : string) :
  num_delim rest = true -> digits_uint (uint_to_string u ++ rest) = (u, rest).
Proof.
  intros Hr. induction u; simpl; try (rewrite IHu; reflexivity).
  destruct rest as [|c r]; [reflexivity|]. simpl in Hr |- *.
  destruct (is_digit c); [discriminate | reflexivity].
Qed.

Lemma pos_to_uint_head (p : positive) u : Pos.to_uint p <> Decimal.D0 u.
Proof.
  intros H.
  assert (Hn : Pos.to_uint p = Decimal.unorm (Pos.to_uint p)).
  { rewrite <- DecimalPos.Unsigned.to_of, DecimalPos.Unsigned.of_to. reflexivity. }
  rewrite H, unorm_D0 in Hn.
  destruct (Decimal.uint_eq_dec u Decimal.Nil) as [->|Hu].
  - apply (Unsigned.to_uint_nonzero p). exact H.
  - apply (f_equal Decimal.nb_digits) in Hn. simpl in Hn.
    pose proof (nb_digits_unorm u Hu). lia.
Qed.

Lemma uint_to_string_digits (u : Decimal.uint) : str_all is_digit (uint_to_string u) = true.
Proof. induction u; simpl; auto. Qed.

Lemma lex_unsigned_uint u rest :
  num_delim rest = true -> u <> Decimal.Nil -> (forall u', u <> Decimal.D0 u') ->
  lex_unsigned (uint_to_string u ++ rest) = Some (N.of_uint u, rest).
Proof.
  intros Hr Hnil H0.
  destruct u; [contradiction | exfalso; eapply H0; reflexivity | ..];
    unfold lex_unsigned; simpl; rewrite (digits_uint_app _ _ Hr); cbn iota beta;
    (destruct rest as [|c r]; [reflexivity|]); simpl in Hr;
    apply andb_true_iff in Hr as [_ Hr]; apply negb_true_iff in Hr; rewrite Hr; reflexivity.
Qed.

Lemma lex_number_app (z : Z) (rest : string) :
  num_delim rest = true -> lex_number (number_to_string z ++ rest) = Some (z, rest).
Proof.
  intros Hr. destruct z as [|p|p].
  - simpl. destruct rest as [|c r]; [reflexivity|]. simpl in Hr.
    apply andb_true_iff in Hr as [_ Hr]. apply negb_true_iff in Hr.
    unfold lex_unsigned. simpl. rewrite Hr. reflexivity.
  - assert (E : exists c s', (number_to_string (Z.pos p) ++ rest)%string = String c s'
                             /\ (code c =? 45)%nat = false).
    { unfold number_to_string. destruct (Pos.to_uint p) eqn:E;
        [exfalso; exact (Unsigned.to_uint_nonnil p E) | ..];
        eexists; eexists; split; reflexivity. }
    destruct E as (c & s' & E & Hc). unfold lex_number. rewrite E, Hc, <- E.
    unfold number_to_string. rewrite lex_unsigned_uint;
      [| exact Hr | apply Unsigned.to_uint_nonnil | apply pos_to_uint_head].
    simpl. unfold N.of_uint. rewrite DecimalPos.Unsigned.of_to. reflexivity.
  - unfold number_to_string, lex_number. simpl String.append. cbn iota.
    replace (code "-" =? 45)%nat with true by reflexivity.
    rewrite lex_unsigned_uint;
      [| exact Hr | apply Unsigned.to_uint_nonnil | apply pos_to_uint_head].
    simpl. unfold N.of_uint. rewrite DecimalPos.Unsigned.of_to. reflexivity.
Qed.

Definition num_heads : list ascii := ["-"; "0"; "1"; "2"; "3"; "4"; "5"; "6"; "7"; "8"; "9"]%char.

Lemma lex_num_step f c s : In c num_heads ->
  lex (S f) (String c s) =
  match lex_number (String c s) with
  | Some (n, r) => option_map (cons (TNum n)) (lex f r)
  | None => None
  end.
Proof.
  intros H. repeat (destruct H as [<-|H]; [reflexivity|]). destruct H.
Qed.

Lemma number_to_string_head (z : Z) :
  exists c s, number_to_string z = String c s /\ In c num_heads.
Proof.
  destruct z as [|p|p]; unfold number_to_string.
  - do 2 eexists. split; [reflexivity | simpl; tauto].
  - destruct (Pos.to_uint p) eqn:E;
      [exfalso; exact (Unsigned.to_uint_nonnil p E) | ..];
      do 2 eexists; (split; [reflexivity | simpl; tauto]).
  - do 2 eexists. split; [reflexivity | simpl; tauto].
Qed.

Lemma lexes_num z rest ts : num_delim rest = true -> lexes rest ts ->
  lexes (number_to_string z ++ rest) (TNum z :: ts).
Proof.
  intros Hr H [|f] Hf; [simpl in Hf; lia|].
  destruct (number_to_string_head z) as (c & s & Hs & Hc).
  pose proof (lex_number_app z rest Hr) as Hn.
  rewrite Hs in Hn, Hf |- *. simpl String.append in *.
  rewrite lex_num_step by exact Hc. rewrite Hn. unfold option_map.
  rewrite H; [reflexivity|]. simpl in Hf. rewrite str_length_app in Hf. lia.
Qed.

(** The tokens of a JSON value, and the induction principle of values. *)
Fixpoint join_tokens (ls : list (list token)) : list token :=
  match ls with
  | [] => []
  | [x] => x
  | x :: ls' => x ++ TComma :: join_tokens ls'
  end.

Fixpoint tokens (v : json) : list token :=
  match v with
  | JNull => [TNull]
  | JBool b => [if b then TTrue else TFalse]
  | JNum n => [TNum n]
  | JStr s => [TStr s]
  | JArr l => TLBrack :: join_tokens (map tokens l) ++ [TRBrack]
  | JObj kvs =>
      TLBrace :: join_tokens (map (fun '(k, x) => TStr k :: TColon :: tokens x) kvs)
              ++ [TRBrace]
  end.

Fixpoint json_ind2 (P : json -> Prop) (HN : P JNull) (HB : forall b, P (JBool b))
  (HZ : forall n, P (JNum n)) (HS : forall s, P (JStr s))
  (HA : forall l, Forall P l -> P (JArr l))
  (HO : forall kvs, Forall (fun kv => P (snd kv)) kvs -> P (JObj kvs)) (v : json) : P v :=
  match v with
  | JNull => HN
  | JBool b => HB b
  | JNum n => HZ n
  | JStr s => HS s
  | JArr l =>
      HA l ((fix go (l : list json) : Forall P l :=
               match l with
               | [] => Forall_nil P
               | x :: l' => @Forall_cons _ P x l' (json_ind2 P HN HB HZ HS HA HO x) (go l')
               end) l)
  | JObj kvs =>
      HO kvs ((fix go (kvs : list (string * json)) : Forall (fun kv => P (snd kv)) kvs :=
                 match kvs with
                 | [] => Forall_nil _
                 | (k, x) :: kvs' =>
                     @Forall_cons _ (fun kv => P (snd kv)) (k, x) kvs'
                       (json_ind2 P HN HB HZ HS HA HO x) (go kvs')
                 end) kvs)
  end.

Lemma lexes_join {X} (pr : X -> string) (tk : X -> list token) (sep : string) (l : list X) :
  Forall (fun x => forall r ts, num_delim r = true -> lexes r ts ->
                   lexes (pr x ++ r) (tk x ++ ts)) l ->
  (forall r ts, lexes r ts -> lexes (sep ++ r) (TComma :: ts)) ->
  (forall r, num_delim (sep ++ r) = true) ->
  forall rest ts, num_delim rest = true -> lexes rest ts ->
  lexes (String.concat sep (map pr l) ++ rest) (join_tokens (map tk l) ++ ts).
Proof.
  intros Hl Hsep Hd. induction Hl as [|x l Hx Hl IH]; intros rest ts Hr H; [exact H|].
  destruct l as [|y l].
  - simpl. apply Hx; assumption.
  - change (String.concat sep (map pr (x :: y :: l)))
      with (pr x ++ sep ++ String.concat sep (map pr (y :: l)))%string.
    change (join_tokens (map tk (x :: y :: l)))
      with (tk x ++ TComma :: join_tokens (map tk (y :: l))).
    rewrite <- !str_app_assoc, <- List.app_assoc. simpl (_ :: _) at 1.
    apply Hx; [apply Hd|]. apply Hsep. apply IH; assumption.
Qed.

Ltac norm_app :=
  repeat first [ rewrite <- str_app_assoc | rewrite <- List.app_assoc
               | progress cbn [String.append List.app] ].

Lemma lexes_min (v : json) : forall rest ts, num_delim rest = true -> lexes rest ts ->
  lexes (json_min v ++ rest) (tokens v ++ ts).
Proof.
  induction v as [| b | n | s | l IH | kvs IH] using json_ind2;
    intros rest ts Hr H; cbn [json_min tokens].
  - apply lexes_null; exact H.
  - destruct b; [apply lexes_true | apply lexes_false]; exact H.
  - apply lexes_num; assumption.
  - apply lexes_str; exact H.
  - norm_app.
    apply lexes_lbrack. apply (lexes_join json_min tokens ","); auto.
    + intros r ts' Hr'. apply lexes_comma; exact Hr'.
    + apply lexes_rbrack. exact H.
  - norm_app.
    apply lexes_lbrace.
    apply (lexes_join (fun '(k, x) => (QuoteJSONString k ++ ":" ++ json_min x)%string)
                      (fun '(k, x) => TStr k :: TColon :: tokens x) ","); auto.
    + eapply Forall_impl; [|exact IH]. intros [k x] Hx r ts' Hr' H'. simpl in Hx.
      rewrite <- !str_app_assoc. apply lexes_str. apply lexes_colon. apply Hx; assumption.
    + intros r ts' Hr'. apply lexes_comma; exact Hr'.
    + apply lexes_rbrace. exact H.
Qed.

(** The pretty text after the replacement: a pair of a non-negative
    integer and a non-empty string is printed on one line. *)
Definition is_pair (l : list json) : option (Z * string) :=
  match l with
  | [JNum n; JStr s] =>
      if (0 <=? n)%Z && negb (String.eqb s EmptyString) then Some (n, s) else None
  | _ => None
  end.

Fixpoint json_pretty_pairs (indent : string) (v : json) : string :=
  let ind := (indent ++ "  ")%string in
  match v with
  | JArr [] => "[]"
  | JArr l =>
      match is_pair l with
      | Some (n, s) =>
          ("[" ++ number_to_string n ++ ", " ++ QuoteJSONString s ++ "]")%string
      | None =>
          ("[" ++ nl ++ ind ++ String.concat ("," ++ nl ++ ind) (map (json_pretty_pairs ind) l)
               ++ nl ++ indent ++ "]")%string
      end
  | JObj [] => "{}"
  | JObj kvs =>
      ("{" ++ nl ++ ind
           ++ String.concat ("," ++ nl ++ ind)
                (map (fun '(k, x) => QuoteJSONString k ++ ": " ++ json_pretty_pairs ind x) kvs)
           ++ nl ++ indent ++ "}")%string
  | _ => json_min v
  end.

Lemma is_pair_Some l n s : is_pair l = Some (n, s) ->
  l = [JNum n; JStr s] /\ (0 <= n)%Z /\ s <> EmptyString.
Proof.
  destruct l as [|[] [|[] [|]]]; simpl; try discriminate.
  destruct ((0 <=? n0)%Z) eqn:E1; simpl; [|discriminate].
  destruct (String.eqb s0 EmptyString) eqn:E2; simpl; [discriminate|].
  intros Heq. injection Heq as <- <-. split; [reflexivity|]. split; [apply Z.leb_le; exact E1|].
  intros ->. discriminate.
Qed.

Definition spaces (s : string) : bool := str_all (fun c => Ascii.eqb c " ") s.

Lemma spaces_app a b : spaces a = true -> spaces b = true -> spaces (a ++ b) = true.
Proof. unfold spaces. rewrite str_all_app. intros -> ->. reflexivity. Qed.

Lemma spaces_json_ws s : spaces s = true -> str_all json_ws s = true.
Proof.
  unfold spaces. induction s as [|c s IH]; simpl; [auto|].
  intros H. apply andb_true_iff in H as [H1 H2]. apply Ascii.eqb_eq in H1. subst c.
  simpl. auto.
Qed.

Lemma nl_spaces_json_ws s : spaces s = true -> str_all json_ws (nl ++ s) = true.
Proof. intros H. simpl. apply spaces_json_ws. exact H. Qed.

Lemma lexes_spaces w r ts : spaces w = true -> lexes r ts -> lexes (w ++ r) ts.
Proof. intros Hw. apply lexes_ws_str, spaces_json_ws, Hw. Qed.

Ltac skip_ws :=
  unfold nl; cbn [String.append];
  repeat first [ apply lexes_ws; [reflexivity|] | apply lexes_spaces; [assumption|] ].

Lemma lexes_pp (v : json) : forall indent rest ts, spaces indent = true ->
  num_delim rest = true -> lexes rest ts ->
  lexes (json_pretty_pairs indent v ++ rest) (tokens v ++ ts).
Proof.
  induction v as [| b | n | s | l IH | kvs IH] using json_ind2;
    intros indent rest ts Hi Hr H;
    try (apply lexes_min; assumption).
  - assert (Hi' : spaces (indent ++ "  ") = true) by (apply spaces_app; auto).
    destruct l as [|x l'].
    + simpl. apply lexes_lbrack, lexes_rbrack. exact H.
    + cbn [json_pretty_pairs tokens]. destruct (is_pair (x :: l')) as [[n s]|] eqn:E.
      * apply is_pair_Some in E as (E & _ & _). rewrite E.
        cbn [tokens map join_tokens]. norm_app.
        apply lexes_lbrack. apply lexes_num; [reflexivity|].
        apply lexes_comma. apply lexes_ws; [reflexivity|].
        apply lexes_str, lexes_rbrack. exact H.
      * norm_app.
        apply lexes_lbrack. skip_ws.
        apply (lexes_join (json_pretty_pairs (indent ++ "  ")%string) tokens ("," ++ nl ++ indent ++ "  ")%string).
        -- eapply Forall_impl; [|exact IH]. intros y Hy r ts' Hr' H'. apply Hy; auto.
        -- intros r ts' H'. norm_app. apply lexes_comma.
           skip_ws. exact H'.
        -- reflexivity.
        -- reflexivity.
        -- skip_ws.
           apply lexes_rbrack. exact H.
  - assert (Hi' : spaces (indent ++ "  ") = true) by (apply spaces_app; auto).
    destruct kvs as [|kv kvs'].
    + simpl. apply lexes_lbrace, lexes_rbrace. exact H.
    + cbn [json_pretty_pairs tokens].
      norm_app.
      apply lexes_lbrace. skip_ws.
      apply (lexes_join (fun '(k, x) => (QuoteJSONString k ++ ": " ++ json_pretty_pairs (indent ++ "  ") x)%string)
                        (fun '(k, x) => TStr k :: TColon :: tokens x) ("," ++ nl ++ indent ++ "  ")%string).
      * eapply Forall_impl; [|exact IH]. intros [k x] Hx r ts' Hr' H'. simpl in Hx.
        rewrite <- !str_app_assoc. apply lexes_str. simpl String.append.
        apply lexes_colon. apply lexes_ws; [reflexivity|]. apply Hx; auto.
      * intros r ts' H'. norm_app. apply lexes_comma.
        skip_ws. exact H'.
      * reflexivity.
      * reflexivity.
      * skip_ws.
        apply lexes_rbrace. exact H.
Qed.

(** ** The exporter: parsing the tokens of a value *)

(** The value [JSON.parse] builds from the tokens of [v]: a repeated key
    keeps its first position and takes its last value. *)
Fixpoint json_canon (v : json) : json :=
  match v with
  | JArr l => JArr (map json_canon l)
  | JObj kvs => JObj (fold_left (fun acc '(k, x) => obj_set k (json_canon x) acc) kvs [])
  | _ => v
  end.

Lemma tokens_head v : exists t ts, tokens v = t :: ts /\ t <> TRBrack /\ t <> TRBrace.
Proof.
  destruct v as [| [] | | | |]; simpl;
    do 2 eexists; (split; [reflexivity | split; discriminate]).
Qed.

Lemma tokens_length v : (1 <= List.length (tokens v))%nat.
Proof. destruct (tokens_head v) as (t & ts & -> & _). simpl. lia. Qed.

Lemma parse_value_lbrack f ts : (forall r, ts <> TRBrack :: r) ->
  parse_value (S f) (TLBrack :: ts) = parse_elements f ts [].
Proof.
  intros H. destruct ts as [|t ts]; [reflexivity|].
  destruct t; try reflexivity. exfalso. eapply H. reflexivity.
Qed.

Lemma parse_value_lbrace f ts : (forall r, ts <> TRBrace :: r) ->
  parse_value (S f) (TLBrace :: ts) = parse_members f ts [].
Proof.
  intros H. destruct ts as [|t ts]; [reflexivity|].
  destruct t; try reflexivity. exfalso. eapply H. reflexivity.
Qed.

Section ParseLists.

Definition parses (v : json) : Prop :=
  forall f rest, (List.length (tokens v) < f)%nat ->
    parse_value f (tokens v ++ rest) = Some (json_canon v, rest).

Lemma parse_elements_ok (l : list json) : Forall parses l -> l <> [] ->
  forall f acc rest, (List.length (join_tokens (map tokens l)) + 1 < f)%nat ->
  parse_elements f (join_tokens (map tokens l) ++ TRBrack :: rest) acc =
  Some (JArr (acc ++ map json_canon l), rest).
Proof.
  induction 1 as [|x l Hx Hl IH]; intros Hne f acc rest Hf; [contradiction|].
  destruct f as [|f]; [lia|].
  destruct l as [|y l].
  - simpl in Hf |- *. rewrite Hx by lia. reflexivity.
  - change (join_tokens (map tokens (x :: y :: l)))
      with (tokens x ++ TComma :: join_tokens (map tokens (y :: l))) in Hf |- *.
    rewrite List.length_app in Hf. cbn [List.length] in Hf. pose proof (tokens_length x).
    rewrite <- List.app_assoc. cbn [List.app parse_elements]. rewrite Hx by lia. cbn iota beta.
    rewrite IH by (discriminate || lia). rewrite <- List.app_assoc. reflexivity.
Qed.

Lemma parse_members_ok (kvs : list (string * json)) :
  Forall (fun kv => parses (snd kv)) kvs -> kvs <> [] ->
  forall f acc rest,
  (List.length (join_tokens (map (fun '(k, x) => TStr k :: TColon :: tokens x) kvs)) + 1 < f)%nat ->
  parse_members f (join_tokens (map (fun '(k, x) => TStr k :: TColon :: tokens x) kvs)
                     ++ TRBrace :: rest) acc =
  Some (JObj (fold_left (fun acc '(k, x) => obj_set k (json_canon x) acc) kvs acc), rest).
Proof.
  induction 1 as [|[k x] l Hx Hl IH]; intros Hne f acc rest Hf; [contradiction|].
  simpl in Hx. destruct f as [|f]; [lia|].
  destruct l as [|[k' y] l].
  - simpl in Hf |- *. rewrite Hx by lia. reflexivity.
  - change (join_tokens (map (fun '(k, x) => TStr k :: TColon :: tokens x) ((k, x) :: (k', y) :: l)))
      with ((TStr k :: TColon :: tokens x) ++ TComma ::
            join_tokens (map (fun '(k, x) => TStr k :: TColon :: tokens x) ((k', y) :: l)))
      in Hf |- *.
    rewrite List.length_app in Hf. cbn [List.length] in Hf. pose proof (tokens_length x).
    rewrite <- List.app_assoc. cbn [List.app parse_members]. rewrite Hx by lia. cbn iota beta.
    rewrite IH by (discriminate || lia). reflexivity.
Qed.

End ParseLists.

Lemma parse_value_ok (v : json) : parses v.
Proof.
  induction v as [| b | n | s | l IH | kvs IH] using json_ind2;
    intros [|f] rest Hf; try (simpl in Hf; lia); try reflexivity.
  - destruct b; reflexivity.
  - destruct l as [|x l']; [reflexivity|].
    cbn [tokens json_canon List.app]. rewrite <- List.app_assoc. cbn [List.app].
    rewrite parse_value_lbrack.
    + rewrite parse_elements_ok; [reflexivity | exact IH | discriminate |].
      cbn [tokens List.length] in Hf. rewrite List.length_app in Hf.
      cbn [List.length] in Hf. lia.
    + intros r Hr. destruct (tokens_head x) as (t & ts & Ht & Hb & _).
      destruct l' as [|y l'].
      * simpl in Hr. rewrite Ht in Hr. simpl in Hr. injection Hr as Hr _. contradiction.
      * change (join_tokens (map tokens (x :: y :: l')))
          with (tokens x ++ TComma :: join_tokens (map tokens (y :: l'))) in Hr.
        rewrite Ht in Hr. simpl in Hr. injection Hr as Hr _. contradiction.
  - destruct kvs as [|[k x] kvs']; [reflexivity|].
    cbn [tokens json_canon List.app]. rewrite <- List.app_assoc. cbn [List.app].
    rewrite parse_value_lbrace.
    + rewrite parse_members_ok; [reflexivity | exact IH | discriminate |].
      cbn [tokens List.length] in Hf. rewrite List.length_app in Hf.
      cbn [List.length] in Hf. lia.
    + intros r Hr. destruct kvs' as [|[k' y] kvs']; simpl in Hr; discriminate.
Qed.

Lemma JSON_parse_lexes s v : lexes s (tokens v) -> JSON_parse s = Some (json_canon v).
Proof.
  intros H. unfold JSON_parse. rewrite H by lia.
  pose proof (parse_value_ok v (S (List.length (tokens v))) [] ltac:(lia)) as Hp.
  rewrite List.app_nil_r in Hp. rewrite Hp. reflexivity.
Qed.

Lemma JSON_parse_min v : JSON_parse (json_min v) = Some (json_canon v).
Proof.
  apply JSON_parse_lexes.
  pose proof (lexes_min v EmptyString [] eq_refl lexes_nil) as H.
  rewrite str_app_nil_r, List.app_nil_r in H. exact H.
Qed.

Lemma JSON_parse_pp v : JSON_parse (json_pretty_pairs EmptyString v) = Some (json_canon v).
Proof.
  apply JSON_parse_lexes.
  pose proof (lexes_pp v EmptyString EmptyString [] eq_refl eq_refl lexes_nil) as H.
  rewrite str_app_nil_r, List.app_nil_r in H. exact H.
Qed.

(** ** The exporter: the replacement on the pretty text *)

Definition is_lbrack (c : ascii) : bool := (code c =? 91)%nat.

Lemma gsub_prev (s : string) : forall k p p',
  gsub_from pair_step k p s = gsub_from pair_step k p' s.
Proof.
  induction s as [|c s IH]; intros k p p'; destruct k; reflexivity.
Qed.

Lemma gsub_skip (a rest : string) : forall p,
  gsub_from pair_step (String.length a) p (a ++ rest) = gsub_from pair_step 0 None rest.
Proof.
  induction a as [|c a IH]; intros p; [apply gsub_prev|]. simpl. apply IH.
Qed.

Lemma gsub_none p c s : pair_step p (String c s) = None ->
  gsub_from pair_step 0 p (String c s) = String c (gsub_from pair_step 0 None s).
Proof. intros H. cbn [gsub_from]. rewrite H. f_equal. apply gsub_prev. Qed.

Lemma gsub_some p c s n r : pair_step p (String c s) = Some (n, r) ->
  gsub_from pair_step 0 p (String c s) = (r ++ gsub_from pair_step n (Some c) s)%string.
Proof. intros H. cbn [gsub_from]. rewrite H. reflexivity. Qed.

Lemma gsub_plain (a : string) : str_has is_lbrack a = false -> forall rest p,
  gsub_from pair_step 0 p (a ++ rest) = (a ++ gsub_from pair_step 0 None rest)%string.
Proof.
  induction a as [|c a IH]; intros Ha rest p; [apply gsub_prev|].
  simpl in Ha. apply orb_false_iff in Ha as [Hc Ha].
  simpl String.append. rewrite gsub_none.
  - simpl. f_equal. apply IH. exact Ha.
  - unfold is_lbrack in Hc. unfold pair_step. cbv beta iota zeta. rewrite Hc. reflexivity.
Qed.

Lemma gsub_join {X} (pr pr' : X -> string) (sep : string) (l : list X) :
  Forall (fun x => forall r p, gsub_from pair_step 0 p (pr x ++ r) =
                               (pr' x ++ gsub_from pair_step 0 None r)%string) l ->
  str_has is_lbrack sep = false ->
  forall rest p, gsub_from pair_step 0 p (String.concat sep (map pr l) ++ rest) =
                 (String.concat sep (map pr' l) ++ gsub_from pair_step 0 None rest)%string.
Proof.
  intros Hl Hsep. induction Hl as [|x l Hx Hl IH]; intros rest p; [apply gsub_prev|].
  destruct l as [|y l].
  - simpl. apply Hx.
  - change (String.concat sep (map pr (x :: y :: l)))
      with (pr x ++ sep ++ String.concat sep (map pr (y :: l)))%string.
    change (String.concat sep (map pr' (x :: y :: l)))
      with (pr' x ++ sep ++ String.concat sep (map pr' (y :: l)))%string.
    rewrite <- !str_app_assoc. rewrite Hx, gsub_plain, IH by exact Hsep. reflexivity.
Qed.

(** Evaluation of one attempt of the pair expression. *)
Lemma ws_run_digits (D Z : string) : str_all is_digit D = true -> D <> EmptyString ->
  ws_run (D ++ Z) = 0%nat.
Proof.
  destruct D as [|c D]; [contradiction|]. simpl. intros H _.
  apply andb_true_iff in H as [H _]. unfold is_digit in H. unfold is_ws.
  apply andb_true_iff in H as [H1 H2]. apply Nat.leb_le in H1, H2.
  destruct ((9 <=? code c)%nat && (code c <=? 13)%nat) eqn:E1.
  { apply andb_true_iff in E1 as [_ E1]. apply Nat.leb_le in E1. lia. }
  destruct ((code c =? 32)%nat) eqn:E2; [apply Nat.eqb_eq in E2; lia|].
  destruct ((code c =? 160)%nat) eqn:E3; [apply Nat.eqb_eq in E3; lia|]. reflexivity.
Qed.

Lemma pair_step_fail_digit p W Y : str_all is_ws W = true ->
  ws_run Y = 0%nat -> digit_run Y = 0%nat -> pair_step p (String "[" (W ++ Y)) = None.
Proof.
  intros HW Hw Hd. unfold pair_step. cbv beta iota zeta.
  rewrite ws_run_app, Hw, Nat.add_0_r, str_drop_app_len, Hd by exact HW.
  rewrite andb_false_r. reflexivity.
Qed.

Lemma pair_step_fail_comma p W D c Z : str_all is_ws W = true ->
  str_all is_digit D = true -> D <> EmptyString ->
  is_digit c = false -> (code c =? 44)%nat = false ->
  pair_step p (String "[" (W ++ D ++ String c Z)) = None.
Proof.
  intros HW HD HD0 Hc Hc'. unfold pair_step. cbv beta iota zeta.
  rewrite ws_run_app, ws_run_digits, Nat.add_0_r, str_drop_app_len by assumption.
  rewrite digit_run_app by exact HD. simpl digit_run. rewrite Hc, Nat.add_0_r, str_drop_app_len.
  rewrite Hc'. destruct (_ && _ && _); reflexivity.
Qed.

Ltac ps_prefix :=
  unfold pair_step; cbv beta iota zeta;
  rewrite ws_run_app, ws_run_digits, Nat.add_0_r, str_drop_app_len by assumption;
  rewrite digit_run_app by assumption; simpl digit_run; rewrite Nat.add_0_r, str_drop_app_len;
  cbv beta iota zeta;
  rewrite ws_run_app by assumption.

Lemma pair_step_fail_quote p W D W2 q Y : str_all is_ws W = true ->
  str_all is_digit D = true -> D <> EmptyString -> str_all is_ws W2 = true ->
  is_ws q = false -> (code q =? 34)%nat = false ->
  pair_step p (String "[" (W ++ D ++ String "," (W2 ++ String q Y))) = None.
Proof.
  intros HW HD HD0 HW2 Hq Hq'. ps_prefix.
  simpl ws_run. rewrite Hq, Nat.add_0_r, str_drop_app_len. cbv beta iota zeta. rewrite Hq'.
  destruct (_ && _); [|reflexivity]. destruct (_ && _); reflexivity.
Qed.

Lemma pair_step_fail_empty p W D W2 Z : str_all is_ws W = true ->
  str_all is_digit D = true -> D <> EmptyString -> str_all is_ws W2 = true ->
  pair_step p (String "[" (W ++ D ++ String "," (W2 ++ String "034" (String "034" Z)))) = None.
Proof.
  intros HW HD HD0 HW2. ps_prefix.
  simpl ws_run. rewrite Nat.add_0_r, str_drop_app_len. cbv beta iota zeta.
  destruct (_ && _); [|reflexivity]. destruct (_ && _); reflexivity.
Qed.

Lemma pair_step_fail_close p W D W2 Q c Z : str_all is_ws W = true ->
  str_all is_digit D = true -> D <> EmptyString -> str_all is_ws W2 = true ->
  no_char 34 Q = true -> is_ws c = false ->
  pair_step p (String "[" (W ++ D ++ String "," (W2 ++ String "034" (Q ++ String "034" (String c Z)))))
  = None.
Proof.
  intros HW HD HD0 HW2 HQ Hc. ps_prefix.
  simpl ws_run. rewrite Nat.add_0_r, str_drop_app_len. cbv beta iota zeta.
  rewrite nonquote_run_app by exact HQ. simpl nonquote_run. rewrite Nat.add_0_r, str_drop_app_len.
  cbv beta iota zeta. simpl ws_run. rewrite Hc.
  destruct (_ && _); [|reflexivity]. destruct (_ && _); [|reflexivity].
  destruct (_ && _); reflexivity.
Qed.

Lemma pair_step_match p W D W2 Q W3 R : str_all is_ws W = true -> String.length W <> 0%nat ->
  str_all is_digit D = true -> D <> EmptyString ->
  str_all is_ws W2 = true -> String.length W2 <> 0%nat ->
  no_char 34 Q = true -> String.length Q <> 0%nat ->
  str_all is_ws W3 = true -> String.length W3 <> 0%nat ->
  pair_step p (String "[" (W ++ D ++ String "," (W2 ++ String "034" (Q ++ String "034" (W3 ++ String "]" R)))))
  = Some ((String.length W + String.length D + String.length W2 + String.length Q
           + String.length W3 + 4)%nat,
          ("[" ++ D ++ ", " ++ dq ++ Q ++ dq ++ "]")%string).
Proof.
  intros HW HW0 HD HD0 HW2 HW20 HQ HQ0 HW3 HW30. ps_prefix.
  simpl ws_run. rewrite Nat.add_0_r, str_drop_app_len. cbv beta iota zeta.
  rewrite nonquote_run_app by exact HQ. simpl nonquote_run. rewrite Nat.add_0_r, str_drop_app_len.
  cbv beta iota zeta. rewrite ws_run_app by exact HW3. simpl ws_run.
  rewrite Nat.add_0_r, str_drop_app_len. cbv beta iota zeta.
  rewrite str_take_app_len, str_take_app_len.
  apply Nat.eqb_neq in HW0, HW20, HQ0, HW30. rewrite HW0, HW20, HQ0, HW30.
  assert (HD1 : (String.length D =? 0)%nat = false).
  { destruct D; [contradiction|reflexivity]. }
  rewrite HD1. reflexivity.
Qed.

Lemma quote_char_lbrack c : str_has is_lbrack (quote_char c) = is_lbrack c.
Proof. destruct c as [[] [] [] [] [] [] [] []]; reflexivity. Qed.

Lemma quote_char_quote c : (code c =? 34)%nat = false ->
  str_has (fun c => (code c =? 34)%nat) (quote_char c) = false.
Proof.
  destruct c as [[] [] [] [] [] [] [] []]; intros H;
    first [reflexivity | vm_compute in H; discriminate H].
Qed.

Lemma quote_char_nonempty c : quote_char c <> EmptyString.
Proof. destruct c as [[] [] [] [] [] [] [] []]; discriminate. Qed.

Lemma quote_chars_lbrack s : str_has is_lbrack (quote_chars s) = str_has is_lbrack s.
Proof.
  induction s as [|c s IH]; [reflexivity|]. simpl. rewrite str_has_app, quote_char_lbrack, IH.
  reflexivity.
Qed.

Lemma quote_chars_quote s : no_char 34 s = true -> no_char 34 (quote_chars s) = true.
Proof.
  unfold no_char. induction s as [|c s IH]; [reflexivity|]. simpl.
  intros H. apply negb_true_iff, orb_false_iff in H as [H1 H2].
  rewrite str_has_app, quote_char_quote by exact H1.
  apply IH. rewrite H2. reflexivity.
Qed.

Lemma quote_chars_length c s : String.length (quote_chars (String c s)) <> 0%nat.
Proof.
  simpl. rewrite str_length_app. destruct (quote_char c) eqn:E; [|simpl; lia].
  exfalso. exact (quote_char_nonempty c E).
Qed.

Lemma spaces_ws s : spaces s = true -> str_all is_ws s = true.
Proof.
  unfold spaces. induction s as [|c s IH]; simpl; [auto|].
  intros H. apply andb_true_iff in H as [H1 H2]. apply Ascii.eqb_eq in H1. subst c.
  rewrite IH by exact H2. reflexivity.
Qed.

Lemma spaces_lbrack s : spaces s = true -> str_has is_lbrack s = false.
Proof.
  unfold spaces. induction s as [|c s IH]; simpl; [auto|].
  intros H. apply andb_true_iff in H as [H1 H2]. apply Ascii.eqb_eq in H1. subst c.
  rewrite IH by exact H2. reflexivity.
Qed.

Lemma nl_ind_ws s : spaces s = true -> str_all is_ws (nl ++ s) = true.
Proof. intros H. simpl. rewrite spaces_ws by exact H. reflexivity. Qed.

Lemma nl_ind_lbrack s : spaces s = true -> str_has is_lbrack (nl ++ s) = false.
Proof. intros H. simpl. rewrite spaces_lbrack by exact H. reflexivity. Qed.

Lemma uint_to_string_lbrack u : str_has is_lbrack (uint_to_string u) = false.
Proof. induction u; simpl; auto. Qed.

Lemma number_to_string_lbrack n : str_has is_lbrack (number_to_string n) = false.
Proof. destruct n; simpl; auto using uint_to_string_lbrack. Qed.

Lemma number_to_string_digits n : (0 <= n)%Z ->
  str_all is_digit (number_to_string n) = true /\ number_to_string n <> EmptyString.
Proof.
  intros Hn. destruct n as [|p|p]; [split; [reflexivity | discriminate]| |lia].
  split; [apply uint_to_string_digits|]. unfold number_to_string.
  destruct (Pos.to_uint p) eqn:E; [exfalso; exact (Unsigned.to_uint_nonnil p E) | discriminate ..].
Qed.

Fixpoint json_safe (v : json) : bool :=
  match v with
  | JStr s => no_char 91 s && no_char 34 s
  | JArr l => forallb json_safe l
  | JObj kvs => forallb (fun '(k, x) => no_char 91 k && json_safe x) kvs
  | _ => true
  end.

Lemma quote_lbrack s : no_char 91 s = true -> str_has is_lbrack (QuoteJSONString s) = false.
Proof.
  intros H. unfold QuoteJSONString. simpl. rewrite str_has_app, quote_chars_lbrack.
  unfold no_char in H. apply negb_true_iff in H. unfold is_lbrack in *. rewrite H. reflexivity.
Qed.

(** The first character of a pretty-printed value. *)
Lemma pretty_first ind x : exists c t, json_pretty ind x = String c t /\ is_ws c = false /\
  (is_digit c = true -> exists n, x = JNum n /\ (0 <= n)%Z) /\
  ((code c =? 34)%nat = true -> exists s, x = JStr s).
Proof.
  destruct x as [| [] | n | s | [|y l] | [|kv kvs]];
    try (do 2 eexists; split; [reflexivity|];
         split; [reflexivity|]; split; intros H; discriminate H).
  - destruct (number_to_string_head n) as (c & t & E & Hc). exists c, t. split; [exact E|].
    assert (Hn : is_digit c = true -> (0 <= n)%Z).
    { destruct n as [|p|p]; [lia|lia|]. simpl in E. injection E as <- _. discriminate. }
    simpl in Hc. split; [|split].
    + repeat destruct Hc as [<-|Hc]; first [reflexivity | contradiction].
    + intros H. exists n. auto.
    + repeat destruct Hc as [<-|Hc]; first [discriminate | contradiction].
  - do 2 eexists. split; [reflexivity|]. split; [reflexivity|]. split; [discriminate|].
    intros _. exists s. reflexivity.
Qed.

Lemma concat_cons sep (f : json -> string) y l :
  String.concat sep (map f (y :: l)) =
  (f y ++ match l with [] => EmptyString | _ => sep ++ String.concat sep (map f l) end)%string.
Proof. destruct l; simpl; [rewrite str_app_nil_r|]; reflexivity. Qed.

Lemma reshape_pair (W D Y M C : string) :
  (W ++ ((D ++ (("," ++ W) ++ (Y ++ M))) ++ C))%string =
  (W ++ (D ++ String "," (W ++ (Y ++ (M ++ C)))))%string.
Proof. rewrite <- !str_app_assoc. reflexivity. Qed.

Lemma quote_app s X : (QuoteJSONString s ++ X)%string = String "034" (quote_chars s ++ String "034" X).
Proof. unfold QuoteJSONString. simpl. rewrite <- str_app_assoc. reflexivity. Qed.

Lemma arr_no_pair p indent ind x l rest : spaces ind = true ->
  forallb json_safe (x :: l) = true -> is_pair (x :: l) = None ->
  pair_step p (String "[" ((nl ++ ind) ++ String.concat ("," ++ nl ++ ind)
                             (map (json_pretty ind) (x :: l)) ++ (nl ++ indent) ++ String "]" rest))
  = None.
Proof.
  intros Hi Hs E.
  assert (HW : str_all is_ws (nl ++ ind) = true) by (apply nl_ind_ws; exact Hi).
  rewrite concat_cons. cbv iota.
  destruct (pretty_first ind x) as (c & t & Ex & Hws & Hdig & _).
  destruct (is_digit c) eqn:Hc.
  2: { apply pair_step_fail_digit; [exact HW| |]; rewrite Ex; simpl;
       rewrite ?Hws, ?Hc; reflexivity. }
  destruct (Hdig eq_refl) as (n & -> & Hn). clear Ex.
  destruct (number_to_string_digits n Hn) as [HD HD0].
  change (json_pretty ind (JNum n)) with (number_to_string n).
  destruct l as [|y l].
  - rewrite str_app_nil_r.
    apply (pair_step_fail_comma p (nl ++ ind) (number_to_string n) "010" (indent ++ String "]" rest));
      auto.
  - rewrite concat_cons.
    set (M := match l with [] => EmptyString | _ => ("," ++ nl ++ ind) ++ String.concat ("," ++ nl ++ ind) (map (json_pretty ind) l) end%string).
    set (C := ((nl ++ indent) ++ String "]" rest)%string).
    rewrite reshape_pair.
    destruct (pretty_first ind y) as (c2 & t2 & Ey & Hws2 & _ & Hq2).
    destruct ((code c2 =? 34)%nat) eqn:Hc2.
    + destruct (Hq2 eq_refl) as (s & ->). clear Ey.
      simpl in Hs. apply andb_true_iff in Hs as [Hs _]. apply andb_true_iff in Hs as [_ Hs].
      destruct s as [|ch s].
      * apply (pair_step_fail_empty p (nl ++ ind) (number_to_string n) (nl ++ ind) (M ++ C)); auto.
      * destruct l as [|z l].
        -- exfalso. simpl in E. apply Z.leb_le in Hn. rewrite Hn in E. discriminate E.
        -- change (json_pretty ind (JStr (String ch s))) with (QuoteJSONString (String ch s)).
           rewrite quote_app.
           apply (pair_step_fail_close p (nl ++ ind) (number_to_string n) (nl ++ ind)
                    (quote_chars (String ch s)) "," (((nl ++ ind) ++ String.concat ("," ++ nl ++ ind) (map (json_pretty ind) (z :: l))) ++ C));
             auto using quote_chars_quote.
    + rewrite Ey.
      apply (pair_step_fail_quote p (nl ++ ind) (number_to_string n) (nl ++ ind) c2 (t2 ++ (M ++ C)));
        auto.
Qed.

Lemma gsub_skip_eq N (a rest : string) p : N = String.length a ->
  gsub_from pair_step N p (a ++ rest) = gsub_from pair_step 0 None rest.
Proof. intros ->. apply gsub_skip. Qed.

Ltac plain_side :=
  first [ reflexivity | apply spaces_lbrack; assumption | apply nl_ind_lbrack; assumption
        | apply quote_lbrack; assumption ].

Lemma gsub_pretty (v : json) : forall indent rest p, json_safe v = true -> spaces indent = true ->
  gsub_from pair_step 0 p (json_pretty indent v ++ rest) =
  (json_pretty_pairs indent v ++ gsub_from pair_step 0 None rest)%string.
Proof.
  induction v as [| b | n | s | l IH | kvs IH] using json_ind2; intros indent rest p Hs Hi.
  - apply gsub_plain. reflexivity.
  - apply gsub_plain. destruct b; reflexivity.
  - apply gsub_plain. apply number_to_string_lbrack.
  - apply gsub_plain. apply quote_lbrack. simpl in Hs. apply andb_true_iff in Hs as [Hs _]. exact Hs.
  - assert (Hi' : spaces (indent ++ "  ") = true) by (apply spaces_app; auto).
    destruct l as [|x l'].
    + change (json_pretty indent (JArr []) ++ rest)%string with (String "[" ("]" ++ rest)).
      rewrite gsub_none by reflexivity. rewrite gsub_plain by reflexivity. reflexivity.
    + assert (ET : (json_pretty indent (JArr (x :: l')) ++ rest)%string =
                   String "[" ((nl ++ (indent ++ "  ")) ++ String.concat ("," ++ nl ++ (indent ++ "  "))
                      (map (json_pretty (indent ++ "  ")) (x :: l')) ++ (nl ++ indent) ++ String "]" rest)).
      { cbn [json_pretty]. rewrite <- !str_app_assoc. reflexivity. }
      rewrite ET. destruct (is_pair (x :: l')) as [[n s]|] eqn:E.
      * pose proof (is_pair_Some _ _ _ E) as (Ex & Hn & Hs0). rewrite Ex in *.
        cbn [json_pretty_pairs]. rewrite E.
        simpl in Hs. apply andb_true_iff in Hs as [Hs _]. apply andb_true_iff in Hs as [_ Hs].
        destruct (number_to_string_digits n Hn) as [HD HD0].
        cbn [map String.concat].
        change (json_pretty (indent ++ "  ") (JNum n)) with (number_to_string n).
        change (json_pretty (indent ++ "  ") (JStr s)) with (QuoteJSONString s).
        remember (indent ++ "  ")%string as ind eqn:Hind.
        unfold QuoteJSONString. rewrite <- !str_app_assoc.
        erewrite gsub_some.
        2: { apply (pair_step_match p (nl ++ ind) (number_to_string n) (nl ++ ind) (quote_chars s)
                      (nl ++ indent) rest);
             try (apply nl_ind_ws; assumption); try (simpl; lia); auto using quote_chars_quote.
             destruct s as [|ch s]; [contradiction | apply quote_chars_length]. }
        match goal with |- context [gsub_from pair_step ?N (Some _) ?T] =>
          replace T with (((nl ++ ind) ++ number_to_string n ++ "," ++
                            (nl ++ ind) ++ dq ++ quote_chars s ++ dq ++
                              (nl ++ indent) ++ "]") ++ rest)%string
            by (rewrite <- !str_app_assoc; reflexivity);
          rewrite (gsub_skip_eq N)
        end.
        -- rewrite <- !str_app_assoc. reflexivity.
        -- rewrite !str_length_app. simpl. rewrite ?str_length_app. simpl. lia.
      * rewrite gsub_none by (apply arr_no_pair; assumption).
        rewrite gsub_plain by (apply nl_ind_lbrack; assumption).
        rewrite (gsub_join _ (json_pretty_pairs (indent ++ "  "))).
        -- replace ((nl ++ indent) ++ String "]" rest)%string with (((nl ++ indent) ++ "]") ++ rest)%string
             by (rewrite <- !str_app_assoc; reflexivity).
           rewrite gsub_plain
             by (rewrite str_has_app, nl_ind_lbrack by assumption; reflexivity).
           cbn [json_pretty_pairs]. rewrite E. rewrite <- !str_app_assoc. reflexivity.
        -- apply Forall_forall. intros y Hy r p'.
           apply (proj1 (Forall_forall _ _) IH y Hy); [|exact Hi'].
           apply (proj1 (forallb_forall _ _) Hs y Hy).
        -- simpl. rewrite spaces_lbrack by exact Hi'. reflexivity.
  - assert (Hi' : spaces (indent ++ "  ") = true) by (apply spaces_app; auto).
    destruct kvs as [|kv kvs'].
    + apply gsub_plain. reflexivity.
    + cbn [json_pretty json_pretty_pairs].
      rewrite <- !str_app_assoc.
      repeat (rewrite gsub_plain by plain_side).
      rewrite (gsub_join _ (fun '(k, x) => (QuoteJSONString k ++ ": " ++ json_pretty_pairs (indent ++ "  ") x)%string)).
      * repeat (rewrite gsub_plain by plain_side). reflexivity.
      * apply Forall_forall. intros [k y] Hy r p'.
        pose proof (proj1 (forallb_forall _ _) Hs (k, y) Hy) as Hky.
        apply andb_true_iff in Hky as [Hk Hy'].
        rewrite <- !str_app_assoc.
        rewrite gsub_plain by plain_side. rewrite gsub_plain by reflexivity.
        rewrite (proj1 (Forall_forall _ _) IH (k, y) Hy) by assumption. reflexivity.
      * simpl. rewrite spaces_lbrack by exact Hi'. reflexivity.
Qed.

(** ** The exporter: from the table to the compact value *)

Lemma cleanEntries_In (l : list ScoringEntry) e : In e (cleanEntries l) -> In e l.
Proof.
  intros H. destruct (cleanEntries_first_max l e H) as (l1 & l2 & -> & _).
  apply in_elt.
Qed.

Lemma compact_safe (t : Table ScoringEntry) :
  export_safe t = true -> json_safe (compactData (cleanAndSortData t)) = true.
Proof.
  unfold export_safe, compactData, cleanAndSortData. intros H.
  cbn [json_safe]. apply forallb_forall. intros [g x] Hin.
  apply in_map_iff in Hin as [[g1 cats1] [Heq Hin]]. injection Heq as <- <-.
  apply in_map_iff in Hin as [[g0 cats] [Heq Hin]]. injection Heq as <- <-.
  pose proof (proj1 (forallb_forall _ _) H _ Hin) as Hg. cbn beta iota in Hg.
  apply andb_true_iff in Hg as [-> Hcats]. cbn [andb json_safe].
  apply forallb_forall. intros [c x] Hin'.
  apply in_map_iff in Hin' as [[c1 evs1] [Heq Hin']]. injection Heq as <- <-.
  apply in_map_iff in Hin' as [[c0 evs] [Heq Hin']]. injection Heq as <- <-.
  pose proof (proj1 (forallb_forall _ _) Hcats _ Hin') as Hc. cbn beta iota in Hc.
  apply andb_true_iff in Hc as [-> Hevs]. cbn [andb json_safe].
  apply forallb_forall. intros [e x] Hin''.
  apply in_map_iff in Hin'' as [[e1 l1] [Heq Hin'']]. injection Heq as <- <-.
  apply in_map_iff in Hin'' as [[e0 l] [Heq Hin'']]. injection Heq as <- <-.
  pose proof (proj1 (forallb_forall _ _) Hevs _ Hin'') as He. cbn beta iota in He.
  apply andb_true_iff in He as [-> Hl]. cbn [andb json_safe].
  apply forallb_forall. intros j Hj.
  apply in_map_iff in Hj as [en [<- Hen]]. apply cleanEntries_In in Hen.
  pose proof (proj1 (forallb_forall _ _) Hl _ Hen) as Hp.
  unfold compact_entry. cbn [json_safe forallb]. rewrite Hp. reflexivity.
Qed.

Lemma distinct_keys_fst {V W} (o1 : obj V) (o2 : obj W) :
  map fst o1 = map fst o2 -> distinct_keys o1 = distinct_keys o2.
Proof.
  revert o2. induction o1 as [|[k v] o1 IH]; intros [|[k' w] o2]; simpl; try discriminate;
    [reflexivity|].
  intros Heq. injection Heq as <- Heq. rewrite Heq, (IH o2 Heq). reflexivity.
Qed.

Lemma map_fst_keyed {V W} (h : string * V -> string * W) (o : obj V) :
  (forall p, fst (h p) = fst p) -> map fst (map h o) = map fst o.
Proof. intros Hh. rewrite map_map. apply map_ext. exact Hh. Qed.

Lemma obj_set_new {V} (k : string) (v : V) (o : obj V) :
  ~ In k (map fst o) -> obj_set k v o = o ++ [(k, v)].
Proof.
  induction o as [|[k' v'] o IH]; simpl; intros H; [reflexivity|].
  destruct (String.eqb_spec k k') as [->|Hne]; [exfalso; auto|].
  rewrite IH by tauto. reflexivity.
Qed.

Lemma fold_obj_set_distinct (f : json -> json) (kvs : list (string * json)) : forall acc,
  distinct_keys kvs = true ->
  (forall k, In k (map fst kvs) -> ~ In k (map fst acc)) ->
  fold_left (fun acc '(k, x) => obj_set k (f x) acc) kvs acc =
  acc ++ map (fun '(k, x) => (k, f x)) kvs.
Proof.
  induction kvs as [|[k x] kvs IH]; intros acc Hd Hacc; simpl; [symmetry; apply List.app_nil_r|].
  simpl in Hd. apply andb_true_iff in Hd as [Hk Hd].
  rewrite obj_set_new by (apply Hacc; left; reflexivity).
  rewrite IH; [rewrite <- List.app_assoc; reflexivity | exact Hd |].
  intros k' Hk' Hin. rewrite map_app, in_app_iff in Hin. destruct Hin as [Hin | [<- | []]].
  - exact (Hacc k' (or_intror Hk') Hin).
  - apply negb_true_iff in Hk.
    simpl in Hk'. assert (existsb (String.eqb k) (map fst kvs) = true) as Hk2
      by (apply existsb_exists; exists k; split; [exact Hk' | apply String.eqb_refl]).
    congruence.
Qed.

Lemma canon_obj kvs : distinct_keys kvs = true ->
  json_canon (JObj kvs) = JObj (map (fun '(k, x) => (k, json_canon x)) kvs).
Proof.
  intros Hd. cbn [json_canon]. f_equal. apply fold_obj_set_distinct; [exact Hd|].
  intros k _ [].
Qed.

Lemma forallb_map_ext {A B} (f : B -> bool) (g : A -> B) (h : A -> bool) (l : list A) :
  (forall x, f (g x) = h x) -> forallb f (map g l) = forallb h l.
Proof. intros H. induction l as [|x l IH]; simpl; [reflexivity|]. rewrite H, IH. reflexivity. Qed.

Lemma table_keys_distinct_clean t :
  table_keys_distinct (cleanAndSortData t) = table_keys_distinct t.
Proof.
  unfold table_keys_distinct, cleanAndSortData. f_equal.
  - apply distinct_keys_fst, map_fst_keyed. intros [g c]. reflexivity.
  - apply forallb_map_ext. intros [g cats]. f_equal.
    + apply distinct_keys_fst, map_fst_keyed. intros [c e]. reflexivity.
    + apply forallb_map_ext. intros [c evs].
      apply distinct_keys_fst, map_fst_keyed. intros [e l]. reflexivity.
Qed.

Lemma canon_compact t : table_keys_distinct t = true -> json_canon (compactData t) = compactData t.
Proof.
  unfold table_keys_distinct, compactData. intros H. apply andb_true_iff in H as [Ht Hcats].
  rewrite canon_obj.
  2: { rewrite <- Ht. apply distinct_keys_fst, map_fst_keyed. intros [g c]. reflexivity. }
  f_equal. rewrite map_map. apply map_ext_in. intros [g cats] Hin. f_equal.
  pose proof (proj1 (forallb_forall _ _) Hcats _ Hin) as Hc. cbn beta iota in Hc.
  apply andb_true_iff in Hc as [Hc Hevs].
  rewrite canon_obj.
  2: { rewrite <- Hc. apply distinct_keys_fst, map_fst_keyed. intros [c e]. reflexivity. }
  f_equal. rewrite map_map. apply map_ext_in. intros [c evs] Hin'. f_equal.
  pose proof (proj1 (forallb_forall _ _) Hevs _ Hin') as He. cbn beta iota in He.
  rewrite canon_obj.
  2: { rewrite <- He. apply distinct_keys_fst, map_fst_keyed. intros [e l]. reflexivity. }
  f_equal. rewrite map_map. apply map_ext. intros [e l]. f_equal.
  cbn [json_canon]. f_equal. rewrite map_map. apply map_ext. intros en. reflexivity.
Qed.

Lemma pretty_replace v : json_safe v = true ->
  js_replace_all pair_step (json_pretty EmptyString v) = json_pretty_pairs EmptyString v.
Proof.
  intros Hs. unfold js_replace_all.
  rewrite <- (str_app_nil_r (json_pretty EmptyString v)).
  rewrite gsub_pretty by (first [exact Hs | reflexivity]).
  apply str_app_nil_r.
Qed.

Definition sample_export_table : Table ScoringEntry :=
  [("men", [("sprints", [("100m", [mkEntry "10.00" 1300; mkEntry "9.50" 1390;
                                   mkEntry "9.50" 1400]);
                         ("200m", [mkEntry "19.50" 1380])])]);
   ("women", [("throws", [("shot put", [mkEntry "22.00" 1350])])])].

Definition quote_bracket_table : Table ScoringEntry :=
  [("men", [("sprints", [("100m", [mkEntry (String "x" (String "034" " ]")) 1400;
                                   mkEntry "9.50" 1390])])])].

(** X16: when no key holds an opening bracket, no performance holds an
    opening bracket or a double quote, and the keys of each object are
    distinct, the pretty text (after
    the pair-collapsing replacement) and the minified text written by
    [exportToJSON] decode to the same value: the compact
    gender/category/event object of [cleanAndSortData t], every event holding
    its [[points, performance]] pairs in order. *)
Theorem exportToJSON_encodings_agree (t : Table ScoringEntry) :
  export_safe t = true -> table_keys_distinct t = true ->
  JSON_parse (fst (exportToJSON t)) = JSON_parse (snd (exportToJSON t)) /\
  JSON_parse (snd (exportToJSON t)) = Some (compactData (cleanAndSortData t)).
Proof.
  intros Hs Hd. unfold exportToJSON. cbv zeta. cbn [fst snd].
  rewrite pretty_replace by (apply compact_safe; exact Hs).
  rewrite JSON_parse_pp, JSON_parse_min.
  rewrite canon_compact by (rewrite table_keys_distinct_clean; exact Hd).
  split; reflexivity.
Qed.

Lemma exportToJSON_encodings_agree_witness :
  export_safe sample_export_table = true /\ table_keys_distinct sample_export_table = true /\
  (JSON_parse (fst (exportToJSON sample_export_table)) =
   JSON_parse (snd (exportToJSON sample_export_table)) /\
   JSON_parse (snd (exportToJSON sample_export_table)) =
   Some (compactData (cleanAndSortData sample_export_table))).
Proof.
  split; [reflexivity|]. split; [reflexivity|].
  apply exportToJSON_encodings_agree; reflexivity.
Defined.

(** C8 (code bug): for a table holding the performance x, Q, space,
    closing bracket (Q a double quote), the minified text decodes to the
    compact table, while the pretty text, after the replacement of line 532
    (whose group for the quoted performance, any characters but Q between
    two Q, ends the string at the escaped quote), decodes the
    performance as x, Q, closing bracket: the two encodings differ. *)
Theorem exportToJSON_pretty_changes_performance :
  JSON_parse (snd (exportToJSON quote_bracket_table)) =
    Some (compactData (cleanAndSortData quote_bracket_table)) /\
  JSON_parse (fst (exportToJSON quote_bracket_table)) =
    Some (JObj [("men", JObj [("sprints", JObj [("100m",
      JArr [JArr [JNum 1400; JStr (String "x" (String "034" "]"))];
            JArr [JNum 1390; JStr "9.50"]])])])]) /\
  JSON_parse (fst (exportToJSON quote_bracket_table)) <>
  JSON_parse (snd (exportToJSON quote_bracket_table)).
Proof. split; [|split]; [vm_compute; reflexivity | vm_compute; reflexivity | vm_compute; discriminate]. Qed.

(* ------------------------------------------------------------------ *)
(** ** Idempotence of the event-name normalizer

    Each global replacement of [normalize_units] is simulated by a local
    rewriting ([localU], [localD]); the result of [normalize_units] leaves
    no match to any of its replacements, keeps the whitespace shape that
    [trim] and the collapsing of whitespace runs produce, and is in lower
    case, so a second pass changes nothing. *)

Section NormalizerIdempotence.
Local Open Scope string_scope.

(** Every attempt of [st] fails, at every position of [s]. *)
Fixpoint clear (st : matcher) (p : option ascii) (s : string) : bool :=
  match st p s with
  | Some _ => false
  | None => match s with
            | EmptyString => true
            | String c s' => clear st (Some c) s'
            end
  end.

Fixpoint last_opt (a : string) (p : option ascii) : option ascii :=
  match a with EmptyString => p | String c a' => last_opt a' (Some c) end.

Fixpoint agree (P : ascii -> bool) (x y : string) : bool :=
  match x, y with
  | EmptyString, EmptyString => true
  | String a x', String b y' => Ascii.eqb a b && (P a || agree P x' y')
  | _, _ => false
  end.

Lemma gsub_clear st s : forall p, clear st p s = true -> gsub_from st O p s = s.
Proof.
  induction s as [|c s IH]; intros p H; cbn [clear gsub_from] in *;
    destruct (st p _) as [[n r]|]; try discriminate; auto.
  f_equal. apply IH; exact H.
Qed.

Lemma gsub_skip_app st a : forall s p,
  gsub_from st (String.length a) p (a ++ s) = gsub_from st O (last_opt a p) s.
Proof.
  induction a as [|c a IH]; intros s p; [reflexivity|].
  cbn [String.length String.append gsub_from last_opt]. apply IH.
Qed.

Lemma clear_app st a : forall b p,
  clear st p (a ++ b) = true -> clear st (last_opt a p) b = true.
Proof.
  induction a as [|c a IH]; intros b p H; [exact H|].
  cbn [String.append clear last_opt] in *. destruct (st p _); [discriminate|].
  apply IH; exact H.
Qed.

Lemma gsub_first st
  (Hst : forall q s n r, st q s = Some (n, r) -> first_char r = first_char s) s p :
  first_char (gsub_from st O p s) = first_char s.
Proof.
  destruct s as [|c s]; cbn [gsub_from].
  - destruct (st p EmptyString) as [[n r]|] eqn:E; [apply (Hst _ _ _ _ E)|reflexivity].
  - destruct (st p (String c s)) as [[n r]|] eqn:E; [|reflexivity].
    apply Hst in E. destruct r as [|a r]; [discriminate|]. exact E.
Qed.

Lemma gsub_all st (P : ascii -> bool)
  (Hst : forall q s n r, st q s = Some (n, r) -> str_all P s = true -> str_all P r = true) :
  forall s k p, str_all P s = true -> str_all P (gsub_from st k p s) = true.
Proof.
  induction s as [|c s IH]; intros k p H; destruct k as [|k]; cbn [gsub_from].
  - destruct (st p EmptyString) as [[n r]|] eqn:E; [apply (Hst _ _ _ _ E H)|reflexivity].
  - reflexivity.
  - destruct (st p (String c s)) as [[n r]|] eqn:E.
    + rewrite str_all_app, (Hst _ _ _ _ E H). simpl in H.
      apply andb_prop in H as [_ H]. apply IH; exact H.
    + simpl in *. apply andb_prop in H as [H1 H2]. rewrite H1. apply IH; exact H2.
  - simpl in H. apply andb_prop in H as [_ H]. apply IH; exact H.
Qed.

(** ** Agreement up to the first character of a class *)

Lemma agree_refl P x : agree P x x = true.
Proof. induction x as [|c x IH]; simpl; [reflexivity|]. rewrite Ascii.eqb_refl, IH, orb_true_r. reflexivity. Qed.

Lemma agree_cons P a x y : agree P (String a x) (String a y) = P a || agree P x y.
Proof. simpl. rewrite Ascii.eqb_refl. reflexivity. Qed.

Lemma agree_starts P w : forall x y, agree P x y = true ->
  str_all (fun c => negb (P c)) w = true -> starts_with w x = starts_with w y.
Proof.
  induction w as [|a w IH]; intros x y H Hw; [reflexivity|].
  destruct x as [|b x], y as [|b' y]; simpl in H; try discriminate; [reflexivity|].
  apply andb_prop in H as [Hb H]. apply Ascii.eqb_eq in Hb; subst b'.
  simpl in Hw. apply andb_prop in Hw as [Ha Hw]. simpl.
  destruct (Ascii.eqb a b) eqn:E; [|reflexivity]. apply Ascii.eqb_eq in E; subst b.
  destruct (P a); [discriminate|]. simpl in H. simpl. apply IH; assumption.
Qed.

Lemma agree_first P x y : agree P x y = true -> first_char x = first_char y.
Proof.
  destruct x as [|a x], y as [|b y]; simpl; intros H; try discriminate; [reflexivity|].
  apply andb_prop in H as [H _]. apply Ascii.eqb_eq in H; subst; reflexivity.
Qed.

Lemma agree_drop P w : forall x y, agree P x y = true ->
  str_all (fun c => negb (P c)) w = true -> starts_with w x = true ->
  agree P (str_drop (String.length w) x) (str_drop (String.length w) y) = true.
Proof.
  induction w as [|a w IH]; intros x y H Hw Hs; [exact H|].
  destruct x as [|b x], y as [|b' y]; simpl in H, Hs; try discriminate.
  apply andb_prop in H as [Hb H]. apply Ascii.eqb_eq in Hb; subst b'.
  apply andb_prop in Hs as [Hab Hs]. apply Ascii.eqb_eq in Hab; subst b.
  simpl in Hw. apply andb_prop in Hw as [Ha Hw].
  destruct (P a); [discriminate|]. simpl. apply IH; assumption.
Qed.

Lemma agree_sw_nw P w x y : agree P x y = true ->
  str_all (fun c => negb (P c)) w = true ->
  starts_with w x && nonword_at (String.length w) x =
  starts_with w y && nonword_at (String.length w) y.
Proof.
  intros H Hw. rewrite <- (agree_starts P w x y H Hw).
  destruct (starts_with w x) eqn:E; [|reflexivity]. simpl.
  unfold nonword_at. rewrite (agree_first P _ _ (agree_drop P w x y H Hw E)). reflexivity.
Qed.

Lemma agree_ws_run P (HP : forall c, is_ws c = true -> P c = false) : forall x y,
  agree P x y = true -> ws_run x = ws_run y /\
  agree P (str_drop (ws_run x) x) (str_drop (ws_run x) y) = true.
Proof.
  induction x as [|a x IH]; intros y H; destruct y as [|b y]; simpl in H; try discriminate.
  - split; reflexivity.
  - apply andb_prop in H as [Hb H]. apply Ascii.eqb_eq in Hb; subst b. simpl.
    destruct (is_ws a) eqn:Ew.
    + rewrite (HP a Ew) in H. simpl in H. destruct (IH y H) as [E1 E2].
      rewrite E1. split; [reflexivity|]. rewrite <- E1. exact E2.
    + split; [reflexivity|]. simpl. rewrite Ascii.eqb_refl. exact H.
Qed.

Lemma agree_all_eq P : forall x y, agree P x y = true ->
  str_all (fun c => negb (P c)) y = true -> x = y.
Proof.
  induction x as [|a x IH]; intros y H Hy; destruct y as [|b y]; simpl in H; try discriminate;
    [reflexivity|].
  apply andb_prop in H as [Hb H]. apply Ascii.eqb_eq in Hb; subst b.
  simpl in Hy. apply andb_prop in Hy as [Ha Hy]. destruct (P a); [discriminate|].
  simpl in H. f_equal. apply IH; assumption.
Qed.

Lemma str_take_drop k : forall s, (str_take k s ++ str_drop k s)%string = s.
Proof. induction k as [|k IH]; intros [|c s]; simpl; try reflexivity. f_equal. apply IH. Qed.

Lemma str_length_drop k : forall s, String.length (str_drop k s) = (String.length s - k)%nat.
Proof. induction k as [|k IH]; intros [|c s]; simpl; auto. Qed.

Lemma str_take_app_add (a b : string) k :
  str_take (String.length a + k) (a ++ b) = (a ++ str_take k b)%string.
Proof. induction a as [|c a IH]; simpl; [reflexivity|]. f_equal. apply IH. Qed.

Lemma starts_with_app_split (w s : string) :
  starts_with w s = true -> exists z, s = (w ++ z)%string.
Proof. intros H. exists (str_drop (String.length w) s). apply starts_with_app; exact H. Qed.

Lemma starts_with_app_l (w z : string) : starts_with w (w ++ z) = true.
Proof. induction w as [|a w IH]; simpl; [reflexivity|]. rewrite Ascii.eqb_refl. exact IH. Qed.

Lemma nonword_at_app (a z : string) :
  nonword_at (String.length a) (a ++ z) = nonword_at 0 z.
Proof. unfold nonword_at. rewrite str_drop_app_len. reflexivity. Qed.

Lemma digit_not_ws c : is_digit c = true -> is_ws c = false.
Proof. destruct c as [[] [] [] [] [] [] [] []]; vm_compute; intros H; first [reflexivity | discriminate]. Qed.

Lemma ws_not_digit c : is_ws c = true -> is_digit c = false.
Proof. destruct c as [[] [] [] [] [] [] [] []]; vm_compute; intros H; first [reflexivity | discriminate]. Qed.

Lemma digit_word c : is_digit c = true -> is_word c = true.
Proof. unfold is_word. intros ->. reflexivity. Qed.

Definition num_char (c : ascii) : bool := is_digit c || (code c =? 46)%nat.

Definition is_unit_str (X : string) : Prop := X = "m" \/ X = "km" \/ X = "mile".
Definition is_mod_str (M : string) : Prop := M = "h" \/ M = "sh" \/ M = "sc" \/ M = "w".

Lemma digit_shape s : (0 < digit_run s)%nat ->
  exists D0 d, s = (D0 ++ String d (str_drop (digit_run s) s))%string /\
    digit_run s = S (String.length D0) /\ is_digit d = true /\ str_all is_digit D0 = true.
Proof.
  induction s as [|c s IH]; simpl; [lia|]. destruct (is_digit c) eqn:Ec; [|lia]. intros _.
  destruct (digit_run s) as [|k] eqn:Ek.
  - exists EmptyString, c. simpl. repeat split; auto.
  - destruct IH as (D0 & d & E1 & E2 & E3 & E4); [lia|].
    exists (String c D0), d. split; [|split; [|split]].
    + cbn [str_drop String.append]. f_equal. exact E1.
    + simpl. lia.
    + exact E3.
    + simpl. rewrite Ec, E4. reflexivity.
Qed.

Lemma number_shape s : (0 < digit_run s)%nat ->
  exists N0 d R, s = (N0 ++ String d R)%string /\
    number_len s = S (String.length N0) /\ is_digit d = true /\
    str_all num_char N0 = true.
Proof.
  intros Hs. destruct (digit_shape s Hs) as (D0 & d & E1 & E2 & E3 & E4).
  assert (HD0 : str_all num_char D0 = true).
  { clear -E4. induction D0 as [|c D IH]; cbn [str_all] in *; [reflexivity|].
    apply andb_prop in E4 as [E E4]. unfold num_char at 1. rewrite E.
    simpl. apply IH; exact E4. }
  unfold number_len. rewrite E2.
  remember (str_drop (S (String.length D0)) s) as R eqn:ER.
  rewrite E2 in E1. rewrite <- ER in E1.
  destruct R as [|c r].
  - exists D0, d, EmptyString. auto.
  - destruct ((code c =? 46)%nat && (0 <? digit_run r)%nat) eqn:Ec;
      [|exists D0, d, (String c r); auto].
    apply andb_prop in Ec as [Ec Hr]. apply Nat.ltb_lt in Hr.
    destruct (digit_shape r Hr) as (E0 & e & F1 & F2 & F3 & F4).
    exists (D0 ++ String d (String c E0))%string, e, (str_drop (digit_run r) r).
    split; [|split; [|split]].
    + rewrite E1, F1 at 1. rewrite <- str_app_assoc. reflexivity.
    + rewrite str_length_app. simpl. lia.
    + exact F3.
    + rewrite str_all_app, HD0. cbn [str_all]. unfold num_char at 1 2.
      rewrite E3, Ec, orb_true_r. simpl.
      clear -F4. induction E0 as [|x E IH]; cbn [str_all] in *; [reflexivity|].
      apply andb_prop in F4 as [F F4]. unfold num_char at 1. rewrite F. simpl. apply IH; exact F4.
Qed.

Lemma unit_b_Some Y u : unit_b Y = Some u ->
  exists X z, Y = (X ++ z)%string /\ String.length X = u /\ is_unit_str X /\
    nonword_at 0 z = true.
Proof.
  unfold unit_b.
  destruct (starts_with "m" Y && nonword_at 1 Y) eqn:E1;
    [|destruct (starts_with "km" Y && nonword_at 2 Y) eqn:E2;
      [|destruct (starts_with "mile" Y && nonword_at 4 Y) eqn:E3; [|discriminate]]];
    intros H; injection H as <-.
  - apply andb_prop in E1 as [Hs Hn]. destruct (starts_with_app_split _ _ Hs) as [z ->].
    exists "m", z. repeat split; [left; reflexivity|]. exact Hn.
  - apply andb_prop in E2 as [Hs Hn]. destruct (starts_with_app_split _ _ Hs) as [z ->].
    exists "km", z. repeat split; [right; left; reflexivity|]. exact Hn.
  - apply andb_prop in E3 as [Hs Hn]. destruct (starts_with_app_split _ _ Hs) as [z ->].
    exists "mile", z. repeat split; [right; right; reflexivity|]. exact Hn.
Qed.

Lemma modifier_b_Some Y k : modifier_b Y = Some k ->
  exists M z, Y = (M ++ z)%string /\ String.length M = k /\ is_mod_str M /\
    nonword_at 0 z = true.
Proof.
  unfold modifier_b.
  destruct (starts_with "h" Y && nonword_at 1 Y) eqn:E1;
    [|destruct (starts_with "sh" Y && nonword_at 2 Y) eqn:E2;
      [|destruct (starts_with "sc" Y && nonword_at 2 Y) eqn:E3;
        [|destruct (starts_with "w" Y && nonword_at 1 Y) eqn:E4; [|discriminate]]]];
    intros H; injection H as <-.
  - apply andb_prop in E1 as [Hs Hn]. destruct (starts_with_app_split _ _ Hs) as [z ->].
    exists "h", z. repeat split; [left; reflexivity|]. exact Hn.
  - apply andb_prop in E2 as [Hs Hn]. destruct (starts_with_app_split _ _ Hs) as [z ->].
    exists "sh", z. repeat split; [right; left; reflexivity|]. exact Hn.
  - apply andb_prop in E3 as [Hs Hn]. destruct (starts_with_app_split _ _ Hs) as [z ->].
    exists "sc", z. repeat split; [right; right; left; reflexivity|]. exact Hn.
  - apply andb_prop in E4 as [Hs Hn]. destruct (starts_with_app_split _ _ Hs) as [z ->].
    exists "w", z. repeat split; [right; right; right; reflexivity|]. exact Hn.
Qed.

Lemma unit_modifier_Some Y u k : unit_modifier Y = Some (u, k) ->
  exists X M z, Y = (X ++ M ++ z)%string /\ String.length X = u /\
    String.length M = k /\ is_unit_str X /\ is_mod_str M /\ nonword_at 0 z = true.
Proof.
  unfold unit_modifier.
  destruct (starts_with "m" Y) eqn:S1;
    [destruct (modifier_b (str_drop 1 Y)) as [k1|] eqn:M1|].
  - intros H; injection H as <- <-.
    destruct (starts_with_app_split _ _ S1) as [y Ey]. rewrite Ey in M1. simpl in M1.
    destruct (modifier_b_Some _ _ M1) as (M & z & -> & HM & HMs & Hz).
    exists "m", M, z. subst Y. repeat split; auto. left; reflexivity.
  - destruct (starts_with "km" Y) eqn:S2;
      [destruct (modifier_b (str_drop 2 Y)) as [k2|] eqn:M2|].
    + intros H; injection H as <- <-.
      destruct (starts_with_app_split _ _ S2) as [y Ey]. rewrite Ey in M2. simpl in M2.
      destruct (modifier_b_Some _ _ M2) as (M & z & -> & HM & HMs & Hz).
      exists "km", M, z. subst Y. repeat split; auto. right; left; reflexivity.
    + destruct (starts_with "mile" Y) eqn:S3;
        [destruct (modifier_b (str_drop 4 Y)) as [k3|] eqn:M3|]; try discriminate.
      intros H; injection H as <- <-.
      destruct (starts_with_app_split _ _ S3) as [y Ey]. rewrite Ey in M3. simpl in M3.
      destruct (modifier_b_Some _ _ M3) as (M & z & -> & HM & HMs & Hz).
      exists "mile", M, z. subst Y. repeat split; auto. right; right; reflexivity.
    + destruct (starts_with "mile" Y) eqn:S3;
        [destruct (modifier_b (str_drop 4 Y)) as [k3|] eqn:M3|]; try discriminate.
      intros H; injection H as <- <-.
      destruct (starts_with_app_split _ _ S3) as [y Ey]. rewrite Ey in M3. simpl in M3.
      destruct (modifier_b_Some _ _ M3) as (M & z & -> & HM & HMs & Hz).
      exists "mile", M, z. subst Y. repeat split; auto. right; right; reflexivity.
  - destruct (starts_with "km" Y) eqn:S2;
      [destruct (modifier_b (str_drop 2 Y)) as [k2|] eqn:M2|].
    + intros H; injection H as <- <-.
      destruct (starts_with_app_split _ _ S2) as [y Ey]. rewrite Ey in M2. simpl in M2.
      destruct (modifier_b_Some _ _ M2) as (M & z & -> & HM & HMs & Hz).
      exists "km", M, z. subst Y. repeat split; auto. right; left; reflexivity.
    + destruct (starts_with "mile" Y) eqn:S3;
        [destruct (modifier_b (str_drop 4 Y)) as [k3|] eqn:M3|]; try discriminate.
      intros H; injection H as <- <-.
      destruct (starts_with_app_split _ _ S3) as [y Ey]. rewrite Ey in M3. simpl in M3.
      destruct (modifier_b_Some _ _ M3) as (M & z & -> & HM & HMs & Hz).
      exists "mile", M, z. subst Y. repeat split; auto. right; right; reflexivity.
    + destruct (starts_with "mile" Y) eqn:S3;
        [destruct (modifier_b (str_drop 4 Y)) as [k3|] eqn:M3|]; try discriminate.
      intros H; injection H as <- <-.
      destruct (starts_with_app_split _ _ S3) as [y Ey]. rewrite Ey in M3. simpl in M3.
      destruct (modifier_b_Some _ _ M3) as (M & z & -> & HM & HMs & Hz).
      exists "mile", M, z. subst Y. repeat split; auto. right; right; reflexivity.
Qed.

Lemma gsub_skip_drop st : forall k s p, (k <= String.length s)%nat ->
  exists q, gsub_from st k p s = gsub_from st O q (str_drop k s).
Proof.
  induction k as [|k IH]; intros s p H; [exists p; reflexivity|].
  destruct s as [|c s]; simpl in H; [lia|]. cbn [gsub_from str_drop].
  apply IH. lia.
Qed.

Lemma gsub_step_some st p s n r : st p s = Some (n, r) ->
  (S n <= String.length s)%nat ->
  exists q, gsub_from st O p s = (r ++ gsub_from st O q (str_drop (S n) s))%string.
Proof.
  intros E H. destruct s as [|c s]; simpl in H; [lia|].
  cbn [gsub_from]. rewrite E.
  destruct (gsub_skip_drop st n s (Some c)) as [q Hq]; [lia|].
  exists q. rewrite Hq. reflexivity.
Qed.

Lemma gsub_step_none st p c s : st p (String c s) = None ->
  gsub_from st O p (String c s) = String c (gsub_from st O (Some c) s).
Proof. intros E. cbn [gsub_from]. rewrite E. reflexivity. Qed.

Lemma ws_run_le s : (ws_run s <= String.length s)%nat.
Proof. induction s as [|c s IH]; simpl; [lia|]. destruct (is_ws c); simpl; lia. Qed.

Lemma str_length_take k : forall s, (k <= String.length s)%nat ->
  String.length (str_take k s) = k.
Proof.
  induction k as [|k IH]; intros [|c s] H; simpl in *; try lia. f_equal. apply IH. lia.
Qed.

Lemma ws_run_take s : str_all is_ws (str_take (ws_run s) s) = true.
Proof.
  induction s as [|c s IH]; simpl; [reflexivity|].
  destruct (is_ws c) eqn:E; simpl; [rewrite E; exact IH|reflexivity].
Qed.

Lemma num_char_not_ws c : num_char c = true -> is_ws c = false.
Proof.
  destruct c as [[] [] [] [] [] [] [] []]; vm_compute; intros H; first [reflexivity | discriminate].
Qed.

Lemma ws_not_dot c : is_ws c = true -> (code c =? 46)%nat = false.
Proof.
  destruct c as [[] [] [] [] [] [] [] []]; vm_compute; intros H; first [reflexivity | discriminate].
Qed.

Lemma digit_not_mk c : is_digit c = true -> Ascii.eqb "m" c = false /\ Ascii.eqb "k" c = false.
Proof.
  destruct c as [[] [] [] [] [] [] [] []]; vm_compute; intros H; first [split; reflexivity | discriminate].
Qed.

(* ------------------------------------------------------------------ *)
(** ** The number-unit replacement as a left-to-right pass *)

Definition patU (c : ascii) (s : string) : bool :=
  is_digit c && (0 <? ws_run s)%nat &&
  match unit_b (str_drop (ws_run s) s) with Some _ => true | None => false end.

Fixpoint localU (del : bool) (s : string) : string :=
  match s with
  | EmptyString => EmptyString
  | String c s' => if del && is_ws c then localU true s' else String c (localU (patU c s') s')
  end.

Lemma patU_nondigit c s : is_digit c = false -> patU c s = false.
Proof. unfold patU. intros ->. reflexivity. Qed.

Lemma patU_ws0 c s : ws_run s = O -> patU c s = false.
Proof. unfold patU. intros ->. rewrite andb_false_r. reflexivity. Qed.

Lemma localU_nodigit a : forall z, str_all (fun c => negb (is_digit c)) a = true ->
  localU false (a ++ z) = (a ++ localU false z)%string.
Proof.
  induction a as [|c a IH]; intros z H; [reflexivity|]. cbn [str_all] in H.
  apply andb_prop in H as [Hc H]. cbn [String.append localU andb].
  rewrite patU_nondigit by (destruct (is_digit c); [discriminate|reflexivity]).
  f_equal. apply IH; exact H.
Qed.

Lemma localU_ws W : forall z, str_all is_ws W = true ->
  localU true (W ++ z) = localU true z.
Proof.
  induction W as [|c W IH]; intros z H; [reflexivity|]. cbn [str_all] in H.
  apply andb_prop in H as [Hc H]. cbn [String.append localU andb]. rewrite Hc.
  apply IH; exact H.
Qed.

Lemma localU_true_nonws c z : is_ws c = false ->
  localU true (String c z) = localU false (String c z).
Proof. intros H. cbn [localU andb]. rewrite H. reflexivity. Qed.

Lemma localU_num N0 : forall d R, str_all num_char N0 = true -> is_digit d = true ->
  localU false (N0 ++ String d R) = (N0 ++ localU false (String d R))%string.
Proof.
  induction N0 as [|c N IH]; intros d R H Hd; [reflexivity|]. cbn [str_all] in H.
  apply andb_prop in H as [Hc H]. cbn [String.append localU andb].
  rewrite patU_ws0.
  - f_equal. apply IH; assumption.
  - destruct N as [|x N]; cbn [String.append ws_run].
    + rewrite digit_not_ws by exact Hd. reflexivity.
    + cbn [str_all] in H. apply andb_prop in H as [Hx _].
      rewrite num_char_not_ws by exact Hx. reflexivity.
Qed.

Lemma unit_str_props X : is_unit_str X ->
  str_all (fun c => negb (is_digit c)) X = true /\
  exists x X', X = String x X' /\ is_ws x = false.
Proof.
  intros [->|[->| ->]]; (split; [reflexivity|]); eexists _, _; split; reflexivity.
Qed.

Lemma mod_str_props M : is_mod_str M ->
  str_all (fun c => negb (is_digit c)) M = true.
Proof. intros [->|[->|[->| ->]]]; reflexivity. Qed.

Lemma number_len_ws c x t : is_digit c = true -> is_ws x = true ->
  number_len (String c (String x t)) = 1%nat.
Proof.
  intros Hc Hx. unfold number_len. cbn [digit_run]. rewrite Hc, (ws_not_digit x Hx).
  cbn [str_drop]. rewrite (ws_not_dot x Hx). reflexivity.
Qed.

Lemma gsub_unit_local : forall n s p, (String.length s <= n)%nat ->
  gsub_from unit_step O p s = localU false s.
Proof.
  induction n as [|n IH]; intros s p Hn.
  { destruct s; [reflexivity|simpl in Hn; lia]. }
  destruct s as [|c s'] eqn:Es; [reflexivity|]. rewrite <- Es.
  destruct (unit_step p s) as [[m r]|] eqn:E.
  - pose proof E as E0. unfold unit_step in E. cbv beta zeta in E.
    destruct (digit_run s =? 0)%nat eqn:Ed; [discriminate|].
    apply Nat.eqb_neq in Ed.
    destruct (number_shape s) as (N0 & d & R & HsR & Hnl & Hd & HN0); [lia|].
    assert (HR : str_drop (number_len s) s = R).
    { rewrite Hnl. rewrite HsR. replace (S (String.length N0)) with (String.length N0 + 1)%nat by lia.
      rewrite str_drop_app_add. reflexivity. }
    rewrite HR in E.
    destruct (ws_run R =? 0)%nat eqn:Ew; [discriminate|]. apply Nat.eqb_neq in Ew.
    destruct (unit_b (str_drop (ws_run R) R)) as [u|] eqn:Eu; [|discriminate].
    injection E as <- <-.
    destruct (unit_b_Some _ _ Eu) as (X & z & EY & HX & HXu & Hz).
    set (W := str_take (ws_run R) R) in *.
    assert (EW : String.length W = ws_run R) by (apply str_length_take, ws_run_le).
    assert (ER : R = (W ++ X ++ z)%string).
    { rewrite <- EY. unfold W. symmetry. apply str_take_drop. }
    destruct (unit_str_props X HXu) as (HXd & x & X' & EX & Hx).
    assert (HA : s = ((N0 ++ String d (W ++ X)) ++ z)%string).
    { rewrite HsR, ER. rewrite <- !str_app_assoc. cbn [String.append]. rewrite <- !str_app_assoc. reflexivity. }
    assert (HL : String.length (N0 ++ String d (W ++ X)) =
                 S (number_len s + ws_run R + u - 1)).
    { rewrite Hnl, !str_length_app. simpl. rewrite str_length_app, HX, EW. lia. }
    destruct (gsub_step_some unit_step p s _ _ E0) as [q Hq].
    { rewrite <- HL. rewrite HA. rewrite (str_length_app (N0 ++ String d (W ++ X)) z). lia. }
    assert (Hz' : str_drop (S (number_len s + ws_run R + u - 1)) s = z).
    { rewrite <- HL. rewrite HA. apply str_drop_app_len. }
    rewrite Hq, Hz'.
    rewrite (IH z q).
    2:{ assert (Hs : (String.length s <= S n)%nat) by (rewrite Es; exact Hn).
        rewrite HA in Hs. rewrite (str_length_app (N0 ++ String d (W ++ X)) z), HL in Hs.
        lia. }
    rewrite Hnl, HsR. rewrite localU_num by assumption.
    replace (str_take (S (String.length N0)) (N0 ++ String d R))
      with (N0 ++ String d EmptyString)%string
      by (replace (S (String.length N0)) with (String.length N0 + 1)%nat by lia;
          rewrite str_take_app_add; reflexivity).
    rewrite EY, <- HX, str_take_app_len.
    cbn [localU andb].
    assert (Hp : patU d R = true).
    { unfold patU. rewrite Hd, Eu. assert (Ew2 : (0 <? ws_run R)%nat = true) by (apply Nat.ltb_lt; lia). rewrite Ew2. reflexivity. }
    rewrite Hp, ER, localU_ws by apply ws_run_take.
    replace (localU true (X ++ z)) with (localU false (X ++ z))
      by (rewrite EX; cbn [String.append]; symmetry; apply localU_true_nonws; exact Hx).
    rewrite localU_nodigit by exact HXd.
    rewrite <- !str_app_assoc. reflexivity.
  - subst s. rewrite gsub_step_none by exact E. cbn [localU andb].
    assert (Hp : patU c s' = false).
    { destruct (patU c s') eqn:Ep; [|reflexivity]. exfalso.
      unfold patU in Ep. apply andb_prop in Ep as [Ep Eu].
      apply andb_prop in Ep as [Hc Hw]. apply Nat.ltb_lt in Hw.
      destruct s' as [|x t]; [simpl in Hw; lia|].
      cbn [ws_run] in Hw. destruct (is_ws x) eqn:Hx; [|simpl in Hw; lia].
      unfold unit_step in E. rewrite (number_len_ws c x t Hc Hx) in E.
      cbn [digit_run str_drop] in E. rewrite Hc in E. cbn [Nat.eqb] in E.
      destruct (ws_run (String x t) =? 0)%nat eqn:E0.
      - apply Nat.eqb_eq in E0. cbn [ws_run] in E0. rewrite Hx in E0. discriminate.
      - destruct (unit_b (str_drop (ws_run (String x t)) (String x t))); discriminate. }
    rewrite Hp. f_equal. apply IH. simpl in Hn. lia.
Qed.

(** ** The unit-modifier replacement as a left-to-right pass *)

Definition cdD (c : ascii) (s : string) : nat :=
  if is_digit c then match unit_modifier s with Some (u, _) => u | None => O end else O.

Fixpoint localD (cd : nat) (s : string) : string :=
  match s with
  | EmptyString => EmptyString
  | String c s' =>
      match cd with
      | O => String c (localD (cdD c s') s')
      | S O => String c (String " " (localD O s'))
      | S cd' => String c (localD cd' s')
      end
  end.

Lemma unit_modifier_digit x t : is_digit x = true -> unit_modifier (String x t) = None.
Proof.
  intros H. destruct (digit_not_mk x H) as [E1 E2]. unfold unit_modifier.
  cbn [starts_with]. rewrite E1, E2. reflexivity.
Qed.

Lemma cdD_nondigit c s : is_digit c = false -> cdD c s = O.
Proof. unfold cdD. intros ->. reflexivity. Qed.

Lemma localD_nodigit a : forall z, str_all (fun c => negb (is_digit c)) a = true ->
  localD O (a ++ z) = (a ++ localD O z)%string.
Proof.
  induction a as [|c a IH]; intros z H; [reflexivity|]. cbn [str_all] in H.
  apply andb_prop in H as [Hc H]. cbn [String.append localD].
  rewrite cdD_nondigit by (destruct (is_digit c); [discriminate|reflexivity]).
  f_equal. apply IH; exact H.
Qed.

Lemma localD_digits D0 : forall d R, str_all is_digit D0 = true -> is_digit d = true ->
  localD O (D0 ++ String d R) = (D0 ++ localD O (String d R))%string.
Proof.
  induction D0 as [|c D IH]; intros d R H Hd; [reflexivity|]. cbn [str_all] in H.
  apply andb_prop in H as [Hc H]. cbn [String.append localD].
  replace (cdD c (D ++ String d R)) with O.
  - f_equal. apply IH; assumption.
  - unfold cdD. rewrite Hc. destruct D as [|x D]; cbn [String.append].
    + rewrite unit_modifier_digit by exact Hd. reflexivity.
    + cbn [str_all] in H. apply andb_prop in H as [Hx _].
      rewrite unit_modifier_digit by exact Hx. reflexivity.
Qed.

Lemma localD_unit X z : is_unit_str X ->
  localD (String.length X) (X ++ z) = (X ++ String " " (localD O z))%string.
Proof. intros [->|[->| ->]]; reflexivity. Qed.

Lemma unit_modifier_pos s u k : unit_modifier s = Some (u, k) -> (0 < u)%nat.
Proof.
  intros H. destruct (unit_modifier_Some _ _ _ H) as (X & M & z & _ & HX & _ & HXu & _).
  subst u. destruct HXu as [->|[->| ->]]; simpl; lia.
Qed.

Lemma unit_str_head X : is_unit_str X -> exists x X', X = String x X' /\
  is_digit x = false /\ is_ws x = false.
Proof. intros [->|[->| ->]]; eexists _, _; (split; [reflexivity|]); split; reflexivity. Qed.

Lemma gsub_modifier_local : forall n s p, (String.length s <= n)%nat ->
  gsub_from modifier_step O p s = localD O s.
Proof.
  induction n as [|n IH]; intros s p Hn.
  { destruct s; [reflexivity|simpl in Hn; lia]. }
  destruct s as [|c s'] eqn:Es; [reflexivity|]. rewrite <- Es.
  destruct (modifier_step p s) as [[m r]|] eqn:E.
  - pose proof E as E0. unfold modifier_step in E. cbv beta zeta in E.
    destruct (digit_run s =? 0)%nat eqn:Ed; [discriminate|].
    apply Nat.eqb_neq in Ed.
    destruct (digit_shape s) as (D0 & d & HsR & Hdr & Hd & HD0); [lia|].
    set (R := str_drop (digit_run s) s) in *.
    destruct (unit_modifier R) as [[u k]|] eqn:Eum; [|discriminate].
    injection E as <- <-.
    destruct (unit_modifier_Some _ _ _ Eum) as (X & M & z & ER & HX & HM & HXu & HMs & Hz).
    assert (HB : s = ((D0 ++ String d X) ++ (M ++ z))%string).
    { rewrite HsR at 1. rewrite ER. rewrite <- !str_app_assoc. reflexivity. }
    assert (HLx : String.length (D0 ++ String d X) = (digit_run s + u)%nat).
    { rewrite str_length_app. simpl. lia. }
    assert (T1 : str_take (digit_run s + u) s = (D0 ++ String d X)%string).
    { rewrite <- HLx. rewrite HB. apply str_take_app_len. }
    assert (T2 : str_drop (digit_run s + u) s = (M ++ z)%string).
    { rewrite <- HLx. rewrite HB. apply str_drop_app_len. }
    assert (HA : s = (((D0 ++ String d X) ++ M) ++ z)%string).
    { rewrite HB at 1. rewrite <- !str_app_assoc. reflexivity. }
    assert (HL : String.length ((D0 ++ String d X) ++ M) =
                 S (digit_run s + u + k - 1)).
    { rewrite str_length_app, HLx, HM. pose proof (unit_modifier_pos _ _ _ Eum). lia. }
    assert (Hz' : str_drop (S (digit_run s + u + k - 1)) s = z).
    { rewrite <- HL. rewrite HA. apply str_drop_app_len. }
    destruct (gsub_step_some modifier_step p s _ _ E0) as [q Hq].
    { rewrite <- HL. rewrite HA. rewrite (str_length_app _ z). lia. }
    rewrite Hq, Hz', T1, T2, <- HM, str_take_app_len.
    rewrite (IH z q).
    2:{ assert (Hs : (String.length s <= S n)%nat) by (rewrite Es; exact Hn).
        rewrite HA in Hs. rewrite (str_length_app _ z), HL in Hs. lia. }
    rewrite HsR. rewrite localD_digits by assumption.
    cbn [localD].
    replace (cdD d R) with (String.length X)
      by (unfold cdD; rewrite Hd, Eum; exact HX).
    rewrite ER, localD_unit by exact HXu.
    rewrite localD_nodigit by (apply mod_str_props; exact HMs).
    rewrite <- !str_app_assoc. reflexivity.
  - subst s. rewrite gsub_step_none by exact E. cbn [localD].
    replace (cdD c s') with O.
    + f_equal. apply IH. simpl in Hn. lia.
    + unfold cdD. destruct (is_digit c) eqn:Hc; [|reflexivity].
      destruct (unit_modifier s') as [[u k]|] eqn:Eum; [|reflexivity].
      exfalso. destruct (unit_modifier_Some _ _ _ Eum) as (X & M & z & ER & _ & _ & HXu & _).
      destruct (unit_str_head X HXu) as (x & X' & EX & Hx & _).
      unfold modifier_step in E. cbv beta zeta in E.
      rewrite ER, EX in E, Eum. cbn [String.append digit_run] in E, Eum.
      rewrite Hc, Hx in E. cbn [Nat.eqb str_drop] in E. rewrite Eum in E. discriminate.
Qed.

Lemma unit_b_agree x y : agree is_digit x y = true -> unit_b x = unit_b y.
Proof.
  intros H. unfold unit_b.
  pose proof (agree_sw_nw is_digit "m" x y H eq_refl) as E1.
  pose proof (agree_sw_nw is_digit "km" x y H eq_refl) as E2.
  pose proof (agree_sw_nw is_digit "mile" x y H eq_refl) as E3.
  cbn [String.length] in E1, E2, E3. rewrite E1, E2, E3. reflexivity.
Qed.

Lemma modifier_b_agree x y : agree is_digit x y = true -> modifier_b x = modifier_b y.
Proof.
  intros H. unfold modifier_b.
  pose proof (agree_sw_nw is_digit "h" x y H eq_refl) as E1.
  pose proof (agree_sw_nw is_digit "sh" x y H eq_refl) as E2.
  pose proof (agree_sw_nw is_digit "sc" x y H eq_refl) as E3.
  pose proof (agree_sw_nw is_digit "w" x y H eq_refl) as E4.
  cbn [String.length] in E1, E2, E3, E4. rewrite E1, E2, E3, E4. reflexivity.
Qed.

Lemma agree_drop_mod w x y : agree is_digit x y = true ->
  str_all (fun c => negb (is_digit c)) w = true ->
  (if starts_with w x then modifier_b (str_drop (String.length w) x) else None) =
  (if starts_with w y then modifier_b (str_drop (String.length w) y) else None).
Proof.
  intros H Hw. rewrite <- (agree_starts is_digit w x y H Hw).
  destruct (starts_with w x) eqn:E; [|reflexivity].
  apply modifier_b_agree, agree_drop; assumption.
Qed.

Lemma unit_modifier_agree x y : agree is_digit x y = true ->
  unit_modifier x = unit_modifier y.
Proof.
  intros H. unfold unit_modifier.
  pose proof (agree_drop_mod "m" x y H eq_refl) as E1.
  pose proof (agree_drop_mod "km" x y H eq_refl) as E2.
  pose proof (agree_drop_mod "mile" x y H eq_refl) as E3.
  cbn [String.length] in E1, E2, E3. rewrite E1, E2, E3. reflexivity.
Qed.

Definition patD (c : ascii) (s : string) : bool :=
  is_digit c && match unit_modifier s with Some _ => true | None => false end.

Lemma patU_agree c x y : agree is_digit x y = true -> patU c x = patU c y.
Proof.
  intros H. unfold patU.
  destruct (agree_ws_run is_digit ws_not_digit x y H) as [E1 E2].
  rewrite <- E1, (unit_b_agree _ _ E2). reflexivity.
Qed.

Lemma patD_agree c x y : agree is_digit x y = true -> patD c x = patD c y.
Proof. intros H. unfold patD. rewrite (unit_modifier_agree x y H). reflexivity. Qed.

Lemma agree_localU s : agree is_digit s (localU false s) = true.
Proof.
  induction s as [|c s IH]; [reflexivity|]. cbn [localU andb].
  rewrite agree_cons. destruct (is_digit c) eqn:Hc; [reflexivity|].
  rewrite patU_nondigit by exact Hc. exact IH.
Qed.

Lemma agree_localD s : agree is_digit s (localD O s) = true.
Proof.
  induction s as [|c s IH]; [reflexivity|]. cbn [localD].
  rewrite agree_cons. destruct (is_digit c) eqn:Hc; [reflexivity|].
  rewrite cdD_nondigit by exact Hc. exact IH.
Qed.

Fixpoint clearU (s : string) : bool :=
  match s with EmptyString => true | String c s' => negb (patU c s') && clearU s' end.

Fixpoint clearD (s : string) : bool :=
  match s with EmptyString => true | String c s' => negb (patD c s') && clearD s' end.

Lemma clearU_app a : forall b, clearU (a ++ b) = true -> clearU b = true.
Proof.
  induction a as [|c a IH]; intros b H; [exact H|]. cbn [String.append clearU] in H.
  apply andb_prop in H as [_ H]. apply IH; exact H.
Qed.

Lemma clearD_app a : forall b, clearD (a ++ b) = true -> clearD b = true.
Proof.
  induction a as [|c a IH]; intros b H; [exact H|]. cbn [String.append clearD] in H.
  apply andb_prop in H as [_ H]. apply IH; exact H.
Qed.

Lemma clearU_nodigit a : forall b, str_all (fun c => negb (is_digit c)) a = true ->
  clearU (a ++ b) = clearU b.
Proof.
  induction a as [|c a IH]; intros b H; [reflexivity|]. cbn [str_all] in H.
  apply andb_prop in H as [Hc H]. cbn [String.append clearU].
  rewrite patU_nondigit by (destruct (is_digit c); [discriminate|reflexivity]).
  apply IH; exact H.
Qed.

Lemma clearD_nodigit a : forall b, str_all (fun c => negb (is_digit c)) a = true ->
  clearD (a ++ b) = clearD b.
Proof.
  induction a as [|c a IH]; intros b H; [reflexivity|]. cbn [str_all] in H.
  apply andb_prop in H as [Hc H]. cbn [String.append clearD].
  unfold patD at 1. destruct (is_digit c); [discriminate|]. apply IH; exact H.
Qed.

Lemma localU_true_ws0 s : ws_run (localU true s) = O.
Proof.
  induction s as [|c s IH]; [reflexivity|]. cbn [localU andb].
  destruct (is_ws c) eqn:E; [exact IH|]. cbn [ws_run]. rewrite E. reflexivity.
Qed.

(** The number-unit pass leaves no number followed by whitespace and a unit. *)
Lemma localU_clearU s : forall b, clearU (localU b s) = true.
Proof.
  induction s as [|c s IH]; intros b; [reflexivity|]. cbn [localU].
  destruct (b && is_ws c); [apply IH|]. cbn [clearU]. rewrite IH, andb_true_r.
  destruct (patU c s) eqn:Ep.
  - rewrite patU_ws0 by apply localU_true_ws0. reflexivity.
  - rewrite <- (patU_agree c _ _ (agree_localU s)), Ep. reflexivity.
Qed.

Lemma unit_modifier_unit_space X R : is_unit_str X ->
  unit_modifier (X ++ String " " R) = None.
Proof. intros [->|[->| ->]]; reflexivity. Qed.

Lemma localD_shape c s' u : cdD c s' = S u ->
  exists X M z, s' = (X ++ M ++ z)%string /\ String.length X = S u /\
    is_unit_str X /\ is_mod_str M /\ is_digit c = true /\
    localD (S u) s' = (X ++ String " " (M ++ localD O z))%string.
Proof.
  unfold cdD. destruct (is_digit c) eqn:Hc; [|discriminate].
  destruct (unit_modifier s') as [[u' k]|] eqn:Eum; [|discriminate]. intros <-.
  destruct (unit_modifier_Some _ _ _ Eum) as (X & M & z & ER & HX & HM & HXu & HMs & Hz).
  exists X, M, z. repeat split; auto. rewrite <- HX, ER, localD_unit by exact HXu.
  rewrite localD_nodigit by (apply mod_str_props; exact HMs). reflexivity.
Qed.

Lemma app_space_assoc X M T :
  (X ++ String " " (M ++ T))%string = ((X ++ String " " M) ++ T)%string.
Proof. rewrite <- str_app_assoc. reflexivity. Qed.

Lemma nodigit_unit_mod X M : is_unit_str X -> is_mod_str M ->
  str_all (fun c => negb (is_digit c)) (X ++ String " " M) = true.
Proof.
  intros HX HM. rewrite str_all_app. destruct (unit_str_props X HX) as [-> _]. simpl.
  apply mod_str_props; exact HM.
Qed.

(** The unit-modifier pass leaves no digit followed by a unit and a modifier. *)
Lemma localD_clearD : forall n s, (String.length s <= n)%nat -> clearD (localD O s) = true.
Proof.
  induction n as [|n IH]; intros s Hn.
  { destruct s; [reflexivity|simpl in Hn; lia]. }
  destruct s as [|c s']; [reflexivity|]. cbn [localD].
  destruct (cdD c s') as [|u] eqn:Ecd.
  - cbn [clearD]. rewrite IH by (simpl in Hn; lia). rewrite andb_true_r.
    rewrite <- (patD_agree c _ _ (agree_localD s')). unfold patD.
    unfold cdD in Ecd. destruct (is_digit c); [|reflexivity].
    destruct (unit_modifier s') as [[u k]|] eqn:Eum; [|reflexivity].
    pose proof (unit_modifier_pos _ _ _ Eum). lia.
  - destruct (localD_shape c s' u Ecd) as (X & M & z & Es & HX & HXu & HMs & Hc & EL).
    rewrite EL. cbn [clearD].
    unfold patD at 1. rewrite unit_modifier_unit_space by exact HXu. rewrite andb_false_r.
    simpl negb. rewrite andb_true_l.
    rewrite app_space_assoc, clearD_nodigit by (apply nodigit_unit_mod; assumption).
    apply IH. simpl in Hn. rewrite Es, !str_length_app in Hn. lia.
Qed.

(** The unit-modifier pass creates no number followed by whitespace and a unit. *)
Lemma localD_keeps_clearU : forall n s, (String.length s <= n)%nat ->
  clearU s = true -> clearU (localD O s) = true.
Proof.
  induction n as [|n IH]; intros s Hn Hs.
  { destruct s; [reflexivity|simpl in Hn; lia]. }
  destruct s as [|c s']; [reflexivity|]. cbn [localD].
  cbn [clearU] in Hs. apply andb_prop in Hs as [Hp Hs].
  destruct (cdD c s') as [|u] eqn:Ecd.
  - cbn [clearU]. rewrite IH by (simpl in Hn; lia || exact Hs). rewrite andb_true_r.
    rewrite <- (patU_agree c _ _ (agree_localD s')). exact Hp.
  - destruct (localD_shape c s' u Ecd) as (X & M & z & Es & HX & HXu & HMs & Hc & EL).
    rewrite EL. cbn [clearU].
    destruct (unit_str_head X HXu) as (x & X' & EX & _ & Hx).
    rewrite patU_ws0 by (rewrite EX; cbn [String.append ws_run]; rewrite Hx; reflexivity).
    simpl negb. rewrite andb_true_l.
    rewrite app_space_assoc, clearU_nodigit by (apply nodigit_unit_mod; assumption).
    apply IH.
    + simpl in Hn. rewrite Es, !str_length_app in Hn. lia.
    + rewrite Es, str_app_assoc in Hs. apply clearU_app in Hs. exact Hs.
Qed.

Lemma unit_step_pat p s m r : unit_step p s = Some (m, r) ->
  exists N0 d R, s = (N0 ++ String d R)%string /\ patU d R = true.
Proof.
  unfold unit_step. cbv beta zeta.
  destruct (digit_run s =? 0)%nat eqn:Ed; [discriminate|]. apply Nat.eqb_neq in Ed.
  destruct (number_shape s) as (N0 & d & R & HsR & Hnl & Hd & _); [lia|].
  assert (HR : str_drop (number_len s) s = R).
  { rewrite Hnl. rewrite HsR.
    replace (S (String.length N0)) with (String.length N0 + 1)%nat by lia.
    rewrite str_drop_app_add. reflexivity. }
  rewrite HR. destruct (ws_run R =? 0)%nat eqn:Ew; [discriminate|]. apply Nat.eqb_neq in Ew.
  destruct (unit_b (str_drop (ws_run R) R)) eqn:Eu; [|discriminate]. intros _.
  exists N0, d, R. split; [exact HsR|]. unfold patU. rewrite Hd, Eu.
  assert (Ew2 : (0 <? ws_run R)%nat = true) by (apply Nat.ltb_lt; lia).
  rewrite Ew2. reflexivity.
Qed.

Lemma modifier_step_pat p s m r : modifier_step p s = Some (m, r) ->
  exists D0 d R, s = (D0 ++ String d R)%string /\ patD d R = true.
Proof.
  unfold modifier_step. cbv beta zeta.
  destruct (digit_run s =? 0)%nat eqn:Ed; [discriminate|]. apply Nat.eqb_neq in Ed.
  destruct (digit_shape s) as (D0 & d & HsR & _ & Hd & _); [lia|].
  destruct (unit_modifier (str_drop (digit_run s) s)) as [[u k]|] eqn:Eum; [|discriminate].
  intros _. exists D0, d, (str_drop (digit_run s) s). split; [exact HsR|].
  unfold patD. rewrite Hd, Eum. reflexivity.
Qed.

Lemma relay_step_pat p s m r : relay_step p s = Some (m, r) ->
  exists A d R, s = (A ++ String d R)%string /\ patD d R = true.
Proof.
  unfold relay_step. cbv beta zeta.
  destruct (starts_with "4x" s) eqn:E4; [|discriminate]. cbn [negb].
  destruct (starts_with_app_split _ _ E4) as [s2 ->].
  change (str_drop 2 ("4x" ++ s2)) with s2.
  destruct (digit_run s2 =? 0)%nat eqn:Ed; [discriminate|]. apply Nat.eqb_neq in Ed.
  change (str_drop (2 + digit_run s2) ("4x" ++ s2)) with (str_drop (digit_run s2) s2).
  destruct (digit_shape s2) as (D0 & d & HsR & _ & Hd & _); [lia|].
  set (R := str_drop (digit_run s2) s2) in *.
  destruct (starts_with "m" R) eqn:Em; [|discriminate]. cbn [negb].
  destruct (starts_with "ix" (str_drop 1 R) && nonword_at 2 (str_drop 1 R)); [discriminate|].
  destruct (modifier_b (str_drop 1 R)) as [k|] eqn:Emb; [|discriminate]. intros _.
  exists ("4x" ++ D0)%string, d, R. split.
  - rewrite HsR at 1. rewrite <- str_app_assoc. reflexivity.
  - unfold patD. rewrite Hd. unfold unit_modifier. rewrite Em, Emb. reflexivity.
Qed.

Lemma clearU_clear s : forall p, clearU s = true -> clear unit_step p s = true.
Proof.
  induction s as [|c s IH]; intros p H; [reflexivity|]. cbn [clear].
  destruct (unit_step p (String c s)) as [[m r]|] eqn:E.
  - destruct (unit_step_pat _ _ _ _ E) as (N0 & d & R & Es & Hp).
    rewrite Es in H. apply clearU_app in H. cbn [clearU] in H. rewrite Hp in H. discriminate.
  - apply IH. cbn [clearU] in H. apply andb_prop in H as [_ H]. exact H.
Qed.

Lemma clearD_clear_modifier s : forall p, clearD s = true -> clear modifier_step p s = true.
Proof.
  induction s as [|c s IH]; intros p H; [reflexivity|]. cbn [clear].
  destruct (modifier_step p (String c s)) as [[m r]|] eqn:E.
  - destruct (modifier_step_pat _ _ _ _ E) as (D0 & d & R & Es & Hp).
    rewrite Es in H. apply clearD_app in H. cbn [clearD] in H. rewrite Hp in H. discriminate.
  - apply IH. cbn [clearD] in H. apply andb_prop in H as [_ H]. exact H.
Qed.

Lemma clearD_clear_relay s : forall p, clearD s = true -> clear relay_step p s = true.
Proof.
  induction s as [|c s IH]; intros p H; [reflexivity|]. cbn [clear].
  destruct (relay_step p (String c s)) as [[m r]|] eqn:E.
  - destruct (relay_step_pat _ _ _ _ E) as (A & d & R & Es & Hp).
    rewrite Es in H. apply clearD_app in H. cbn [clearD] in H. rewrite Hp in H. discriminate.
  - apply IH. cbn [clearD] in H. apply andb_prop in H as [_ H]. exact H.
Qed.

(* ------------------------------------------------------------------ *)
(** ** The [miles] replacement *)

Definition is_m (c : ascii) : bool := Ascii.eqb c "m".

Lemma miles_step_cons p c x : miles_step p (String c x) =
  if negb (is_word_opt p) && Ascii.eqb "m" c && (starts_with "iles" x && nonword_at 4 x)
  then Some (4%nat, "mile") else None.
Proof.
  unfold miles_step, nonword_at.
  change (starts_with "miles" (String c x)) with (Ascii.eqb "m" c && starts_with "iles" x).
  change (str_drop 5 (String c x)) with (str_drop 4 x).
  destruct (negb _), (Ascii.eqb "m" c), (starts_with "iles" x); reflexivity.
Qed.

Lemma miles_step_nil p : miles_step p EmptyString = None.
Proof. unfold miles_step. destruct (negb _); reflexivity. Qed.

Lemma miles_step_word p t : is_word_opt p = true -> miles_step p t = None.
Proof. unfold miles_step. intros ->. reflexivity. Qed.

Lemma miles_step_prev p q t : is_word_opt p = is_word_opt q -> miles_step p t = miles_step q t.
Proof. unfold miles_step. intros ->. reflexivity. Qed.

Lemma miles_step_agree P p c x y : agree P x y = true ->
  str_all (fun c => negb (P c)) "iles" = true ->
  miles_step p (String c x) = miles_step p (String c y).
Proof.
  intros H Hw. rewrite !miles_step_cons.
  pose proof (agree_sw_nw P "iles" x y H Hw) as E. cbn [String.length] in E.
  rewrite E. reflexivity.
Qed.

Lemma miles_step_nonm p c x : Ascii.eqb "m" c = false -> miles_step p (String c x) = None.
Proof. intros H. rewrite miles_step_cons, H, andb_false_r. reflexivity. Qed.

Lemma clear_miles_prev p q t : is_word_opt p = is_word_opt q ->
  clear miles_step p t = clear miles_step q t.
Proof. intros H. destruct t; cbn [clear]; rewrite (miles_step_prev p q _ H); reflexivity. Qed.

Lemma clear_miles_word p q t : is_word_opt q = true ->
  clear miles_step p t = true -> clear miles_step q t = true.
Proof.
  intros Hq H. destruct t as [|c t]; cbn [clear] in *; rewrite miles_step_word by exact Hq;
    [reflexivity|].
  destruct (miles_step p (String c t)); [discriminate|exact H].
Qed.

Lemma gsub_miles_agree s : forall p,
  agree is_m s (gsub_from miles_step O p s) = true.
Proof.
  induction s as [|c s IH]; intros p.
  - cbn [gsub_from]. rewrite miles_step_nil. reflexivity.
  - cbn [gsub_from]. destruct (miles_step p (String c s)) as [[n r]|] eqn:E.
    + rewrite miles_step_cons in E.
      destruct (negb (is_word_opt p) && Ascii.eqb "m" c && _) eqn:Ec; [|discriminate].
      injection E as <- <-. apply andb_prop in Ec as [Ec _]. apply andb_prop in Ec as [_ Ec].
      apply Ascii.eqb_eq in Ec. subst c. reflexivity.
    + rewrite agree_cons, IH, orb_true_r. reflexivity.
Qed.

Lemma gsub_miles_first s p :
  first_char (gsub_from miles_step O p s) = first_char s.
Proof.
  apply gsub_first. intros q t n r E. unfold miles_step in E.
  destruct (negb (is_word_opt q) && starts_with "miles" t && nonword_at 5 t) eqn:Ec;
    [|discriminate].
  injection E as <- <-. apply andb_prop in Ec as [Ec _]. apply andb_prop in Ec as [_ Ec].
  destruct (starts_with_app_split _ _ Ec) as [z ->]. reflexivity.
Qed.

Lemma clear_mile p T : starts_with "s" T = false ->
  clear miles_step p ("mile" ++ T) = clear miles_step (Some "e"%char) T.
Proof.
  intros H. cbn [String.append clear].
  rewrite miles_step_cons. change (starts_with "iles" (String "i" (String "l" (String "e" T))))
    with (starts_with "s" T). rewrite H, andb_false_l, andb_false_r. reflexivity.
Qed.

(** The [miles] pass leaves no [\bmiles\b]. *)
Lemma gsub_miles_clear : forall n s p, (String.length s <= n)%nat ->
  clear miles_step p (gsub_from miles_step O p s) = true.
Proof.
  induction n as [|n IH]; intros s p Hn.
  { destruct s; [|simpl in Hn; lia]. cbn [gsub_from clear]. rewrite miles_step_nil.
    cbn [clear]. rewrite miles_step_nil. reflexivity. }
  destruct s as [|c s'].
  { cbn [gsub_from clear]. rewrite miles_step_nil. cbn [clear]. rewrite miles_step_nil. reflexivity. }
  cbn [gsub_from]. destruct (miles_step p (String c s')) as [[m r]|] eqn:E.
  - pose proof E as E0. rewrite miles_step_cons in E.
    destruct (negb (is_word_opt p) && Ascii.eqb "m" c && _) eqn:Ec; [|discriminate].
    injection E as <- <-. apply andb_prop in Ec as [Ec Hi]. apply andb_prop in Ec as [Hp Ec].
    apply Ascii.eqb_eq in Ec. subst c. apply andb_prop in Hi as [Hi Hz].
    destruct (starts_with_app_split _ _ Hi) as [z ->].
    change 4%nat with (String.length "iles") in Hz. rewrite nonword_at_app in Hz.
    change 4%nat with (String.length "iles"). rewrite gsub_skip_app. cbn [last_opt].
    rewrite clear_mile.
    + rewrite (clear_miles_prev (Some "e"%char) (Some "s"%char)) by reflexivity.
      apply IH. simpl in Hn. lia.
    + pose proof (gsub_miles_first z (Some "s"%char)) as Hf.
      destruct (gsub_from miles_step O (Some "s"%char) z) as [|o O'] eqn:EO; [reflexivity|].
      unfold nonword_at in Hz. cbn [str_drop] in Hz. rewrite <- Hf in Hz. cbn in Hz.
      cbn [starts_with]. destruct (Ascii.eqb "s" o) eqn:Eo; [|reflexivity].
      apply Ascii.eqb_eq in Eo. subst o. discriminate Hz.
  - cbn [clear].
    rewrite <- (miles_step_agree is_m p c s' _ (gsub_miles_agree s' (Some c))) by reflexivity.
    rewrite E. apply IH. simpl in Hn. lia.
Qed.

(** Clearness for [miles] survives the later passes. *)
Lemma localU_keeps_clearM s : forall b p q, clear miles_step p s = true ->
  (is_word_opt q = true \/ is_word_opt q = is_word_opt p) ->
  (b = true -> is_word_opt q = true) -> clear miles_step q (localU b s) = true.
Proof.
  induction s as [|c s IH]; intros b p q H Hq Hb.
  - cbn [localU clear]. rewrite miles_step_nil. reflexivity.
  - cbn [clear] in H. destruct (miles_step p (String c s)) eqn:E; [discriminate|].
    cbn [localU]. destruct (b && is_ws c) eqn:Eb.
    + apply andb_prop in Eb as [-> _]. apply (IH true (Some c) q H); [left|]; auto.
    + cbn [clear].
      assert (Hm : miles_step q (String c (localU (patU c s) s)) = None).
      { destruct (is_word_opt q) eqn:Ew; [apply miles_step_word; exact Ew|].
        destruct Hq as [Hq|Hq]; [discriminate|].
        destruct (patU c s) eqn:Ep.
        - apply miles_step_nonm. unfold patU in Ep.
          apply andb_prop in Ep as [Ep _]. apply andb_prop in Ep as [Ep _].
          apply (proj1 (digit_not_mk c Ep)).
        - rewrite <- (miles_step_agree is_digit q c s _ (agree_localU s)) by reflexivity.
          rewrite (miles_step_prev q p) by congruence. exact E. }
      rewrite Hm. apply (IH _ (Some c) (Some c) H); [right; reflexivity|].
      intros Ep. unfold patU in Ep.
      apply andb_prop in Ep as [Ep _]. apply andb_prop in Ep as [Ep _].
      cbn [is_word_opt]. apply digit_word. exact Ep.
Qed.

Lemma clear_unit_mod X M T : is_unit_str X -> is_mod_str M ->
  clear miles_step (Some "1"%char) (X ++ String " " (M ++ T)) =
  clear miles_step (last_opt M None) T.
Proof. intros [->|[->| ->]] [->|[->|[->| ->]]]; reflexivity. Qed.

Lemma last_opt_app a : forall b p, last_opt (a ++ b) p = last_opt b (last_opt a p).
Proof. induction a as [|c a IH]; intros b p; [reflexivity|]. cbn. apply IH. Qed.

Lemma last_opt_indep b p q : b <> EmptyString -> last_opt b p = last_opt b q.
Proof. destruct b; [congruence|]. reflexivity. Qed.

Lemma localD_keeps_clearM : forall n s p, (String.length s <= n)%nat ->
  clear miles_step p s = true -> clear miles_step p (localD O s) = true.
Proof.
  induction n as [|n IH]; intros s p Hn H.
  { destruct s; [exact H|simpl in Hn; lia]. }
  destruct s as [|c s']; [exact H|].
  cbn [clear] in H. destruct (miles_step p (String c s')) eqn:E; [discriminate|].
  cbn [localD]. destruct (cdD c s') as [|u] eqn:Ecd.
  - cbn [clear].
    rewrite <- (miles_step_agree is_digit p c s' _ (agree_localD s')) by reflexivity.
    rewrite E. apply IH; [simpl in Hn; lia|exact H].
  - destruct (localD_shape c s' u Ecd) as (X & M & z & Es & HX & HuX & HM & Hc & HL).
    rewrite HL. cbn [clear].
    rewrite miles_step_nonm by (apply (proj1 (digit_not_mk c Hc))).
    rewrite (clear_miles_prev (Some c) (Some "1"%char))
      by (cbn [is_word_opt]; rewrite (digit_word c Hc); reflexivity).
    rewrite clear_unit_mod by assumption.
    apply IH.
    + rewrite Es in Hn. cbn [String.length] in Hn. rewrite !str_length_app in Hn. lia.
    + rewrite Es, str_app_assoc in H. apply clear_app in H.
      rewrite last_opt_app in H. rewrite (last_opt_indep M _ None) in H; [exact H|].
      destruct HM as [->|[->|[->| ->]]]; discriminate.
Qed.

Definition mile_fix (t : string) : string :=
  if String.eqb t "mile" then "1mile"
  else if is_mile_modifier t then ("1" ++ t)%string else t.

Lemma mile_fix_keeps_clearM t : clear miles_step None t = true ->
  clear miles_step None (mile_fix t) = true.
Proof.
  intros H. unfold mile_fix. destruct (String.eqb t "mile"); [reflexivity|].
  destruct (is_mile_modifier t); [|exact H].
  cbn [String.append clear]. rewrite miles_step_nonm by reflexivity.
  apply (clear_miles_word None); [reflexivity|exact H].
Qed.

(* ------------------------------------------------------------------ *)
(** Lower case. *)

Definition lowc (c : ascii) : bool := Ascii.eqb (lower_char c) c.

Lemma lower_idem c : lower_char (lower_char c) = lower_char c.
Proof. destruct c as [[] [] [] [] [] [] [] []]; vm_compute; reflexivity. Qed.

Lemma lower_ws c : is_ws (lower_char c) = is_ws c.
Proof. destruct c as [[] [] [] [] [] [] [] []]; vm_compute; reflexivity. Qed.

Lemma lower_ws_fix c : is_ws c = true -> lower_char c = c.
Proof.
  destruct c as [[] [] [] [] [] [] [] []]; vm_compute; intros H;
    first [reflexivity | discriminate].
Qed.

Lemma lowc_lower c : lowc (lower_char c) = true.
Proof. unfold lowc. rewrite lower_idem. apply Ascii.eqb_refl. Qed.

Lemma lower_all s : str_all lowc (js_toLowerCase s) = true.
Proof.
  induction s as [|c s IH]; [reflexivity|]. cbn [js_toLowerCase str_map str_all] in *.
  rewrite lowc_lower. exact IH.
Qed.

Lemma lower_fix s : str_all lowc s = true -> js_toLowerCase s = s.
Proof.
  unfold js_toLowerCase. induction s as [|c s IH]; [reflexivity|]. cbn [str_all str_map].
  intros H. apply andb_prop in H as [Hc H]. unfold lowc in Hc. apply Ascii.eqb_eq in Hc.
  rewrite Hc, IH by exact H. reflexivity.
Qed.

Lemma miles_all : forall s p, str_all lowc s = true ->
  str_all lowc (gsub_from miles_step O p s) = true.
Proof.
  intros s p. apply gsub_all. intros q t n r E _. unfold miles_step in E.
  destruct (negb (is_word_opt q) && starts_with "miles" t && nonword_at 5 t); [|discriminate].
  injection E as _ <-. reflexivity.
Qed.

Lemma mile_fix_all t : str_all lowc t = true -> str_all lowc (mile_fix t) = true.
Proof.
  intros H. unfold mile_fix. destruct (String.eqb t "mile"); [reflexivity|].
  destruct (is_mile_modifier t); [|exact H]. exact H.
Qed.

Lemma localU_all (P : ascii -> bool) s : forall b, str_all P s = true ->
  str_all P (localU b s) = true.
Proof.
  induction s as [|c s IH]; intros b H; [reflexivity|]. cbn [localU str_all] in *.
  apply andb_prop in H as [Hc H]. destruct (b && is_ws c).
  - apply IH. exact H.
  - cbn [str_all]. rewrite Hc. apply IH. exact H.
Qed.

Lemma localD_all (P : ascii -> bool) (HP : P " "%char = true) s : forall cd,
  str_all P s = true -> str_all P (localD cd s) = true.
Proof.
  induction s as [|c s IH]; intros cd H; [destruct cd; reflexivity|].
  cbn [str_all] in H. apply andb_prop in H as [Hc H].
  destruct cd as [|[|cd]]; cbn [localD str_all]; rewrite Hc; cbn [andb];
    try rewrite HP; cbn [andb]; apply IH; exact H.
Qed.

(* ------------------------------------------------------------------ *)
(** Whitespace shape: every whitespace character a single space between
    two other characters. *)

Fixpoint cl (b : bool) (s : string) : bool :=
  match s with
  | EmptyString => negb b
  | String c s' =>
      if is_ws c then Ascii.eqb c " " && negb b && cl true s' else cl false s'
  end.

Lemma cl_weak s : cl true s = true -> cl false s = true.
Proof.
  destruct s as [|c s]; cbn [cl]; [discriminate|].
  destruct (is_ws c), (Ascii.eqb c " "); cbn; auto; discriminate.
Qed.

Lemma cl_ws_run s : cl true s = true -> ws_run s = O.
Proof.
  destruct s as [|c s]; cbn [cl ws_run]; [discriminate|].
  destruct (is_ws c), (Ascii.eqb c " "); cbn; auto; discriminate.
Qed.

Lemma cl_lower s : forall b, cl b (js_toLowerCase s) = cl b s.
Proof.
  unfold js_toLowerCase. induction s as [|c s IH]; intros b; [reflexivity|].
  cbn [str_map cl]. rewrite lower_ws. destruct (is_ws c) eqn:Hw; rewrite IH; [|reflexivity].
  rewrite (lower_ws_fix c Hw). reflexivity.
Qed.

Lemma cl_miles : forall n s p b, (String.length s <= n)%nat ->
  cl b (gsub_from miles_step O p s) = cl b s.
Proof.
  induction n as [|n IH]; intros s p b Hn.
  { destruct s; [|simpl in Hn; lia]. cbn [gsub_from]. rewrite miles_step_nil. reflexivity. }
  destruct s as [|c s']; [cbn [gsub_from]; rewrite miles_step_nil; reflexivity|].
  cbn [gsub_from]. destruct (miles_step p (String c s')) as [[m r]|] eqn:E.
  - rewrite miles_step_cons in E.
    destruct (negb (is_word_opt p) && Ascii.eqb "m" c && _) eqn:Ec; [|discriminate].
    injection E as <- <-. apply andb_prop in Ec as [Ec Hi]. apply andb_prop in Ec as [_ Ec].
    apply Ascii.eqb_eq in Ec. subst c. apply andb_prop in Hi as [Hi _].
    destruct (starts_with_app_split _ _ Hi) as [z ->].
    change 4%nat with (String.length "iles"). rewrite gsub_skip_app. cbn [last_opt].
    change (cl b ("mile" ++ gsub_from miles_step O (Some "s"%char) z))
      with (cl false (gsub_from miles_step O (Some "s"%char) z)).
    change (cl b (String "m" ("iles" ++ z))) with (cl false z).
    apply IH. simpl in Hn. lia.
  - cbn [cl]. destruct (is_ws c); rewrite IH by (simpl in Hn; lia); reflexivity.
Qed.

Lemma cl_mile_fix t : cl true t = true -> cl true (mile_fix t) = true.
Proof.
  intros H. unfold mile_fix. destruct (String.eqb t "mile"); [reflexivity|].
  destruct (is_mile_modifier t); [|exact H]. apply cl_weak. exact H.
Qed.

Lemma cl_localU s : forall del b, cl b s = true -> cl b (localU del s) = true.
Proof.
  induction s as [|c s IH]; intros del b H; [exact H|]. cbn [localU].
  cbn [cl] in H. destruct (del && is_ws c) eqn:Ed.
  - apply andb_prop in Ed as [_ Hw]. rewrite Hw in H.
    apply andb_prop in H as [H1 H]. apply andb_prop in H1 as [_ Hb].
    destruct b; [discriminate|]. apply IH. apply cl_weak. exact H.
  - cbn [cl]. destruct (is_ws c).
    + apply andb_prop in H as [H1 H]. rewrite H1. apply IH. exact H.
    + apply IH. exact H.
Qed.

Lemma cl_unit_mod X M T : is_unit_str X -> is_mod_str M ->
  cl false (X ++ String " " (M ++ T)) = cl false T.
Proof. intros [->|[->| ->]] [->|[->|[->| ->]]]; reflexivity. Qed.

Lemma cl_unit_mod2 X M T : is_unit_str X -> is_mod_str M ->
  cl false (X ++ M ++ T) = cl false T.
Proof. intros [->|[->| ->]] [->|[->|[->| ->]]]; reflexivity. Qed.

Lemma cl_localD : forall n s b, (String.length s <= n)%nat ->
  cl b s = true -> cl b (localD O s) = true.
Proof.
  induction n as [|n IH]; intros s b Hn H.
  { destruct s; [exact H|simpl in Hn; lia]. }
  destruct s as [|c s']; [exact H|].
  cbn [localD]. destruct (cdD c s') as [|u] eqn:Ecd.
  - cbn [cl] in *. destruct (is_ws c).
    + apply andb_prop in H as [H1 H]. rewrite H1. apply IH; [simpl in Hn; lia|exact H].
    + apply IH; [simpl in Hn; lia|exact H].
  - destruct (localD_shape c s' u Ecd) as (X & M & z & Es & HX & HuX & HM & Hc & HL).
    rewrite HL. cbn [cl] in *. rewrite (digit_not_ws c Hc) in *.
    rewrite cl_unit_mod by assumption. rewrite Es, cl_unit_mod2 in H by assumption.
    apply IH; [|exact H].
    rewrite Es in Hn. cbn [String.length] in Hn. rewrite !str_length_app in Hn. lia.
Qed.

Lemma str_all_impl (P Q : ascii -> bool) (HPQ : forall c, P c = true -> Q c = true) s :
  str_all P s = true -> str_all Q s = true.
Proof.
  induction s as [|c s IH]; [reflexivity|]. cbn [str_all]. intros H.
  apply andb_prop in H as [Hc H]. rewrite (HPQ c Hc), IH by exact H. reflexivity.
Qed.

Lemma mile_mod_nodigit y : is_mile_modifier y = true ->
  str_all (fun c => negb (is_digit c)) y = true.
Proof.
  unfold is_mile_modifier. intros H.
  apply andb_prop in H as [H Hm]. apply andb_prop in H as [Hs _].
  destruct (starts_with_app_split _ _ Hs) as [r ->].
  change (str_drop 4 ("mile" ++ r)) with r in Hm.
  change (str_drop (4 + ws_run r) ("mile" ++ r)) with (str_drop (ws_run r) r) in Hm.
  rewrite str_all_app. change (str_all (fun c => negb (is_digit c)) "mile") with true.
  cbn [andb]. rewrite <- (str_take_drop (ws_run r) r), str_all_app.
  rewrite (str_all_impl is_ws) by (exact (ws_run_take r) ||
    (intros c Hc; rewrite (ws_not_digit c Hc); reflexivity)).
  unfold is_modifier in Hm.
  repeat (apply orb_prop in Hm as [Hm|Hm]); apply String.eqb_eq in Hm; rewrite Hm; reflexivity.
Qed.

Lemma agree_trans P : forall x y z, agree P x y = true -> agree P y z = true ->
  agree P x z = true.
Proof.
  induction x as [|a x IH]; intros y z H1 H2;
    destruct y as [|b y]; try discriminate; destruct z as [|e z]; try discriminate;
    [reflexivity|]. cbn [agree] in *.
  apply andb_prop in H1 as [E1 H1]. apply andb_prop in H2 as [E2 H2].
  apply Ascii.eqb_eq in E1, E2. subst. rewrite Ascii.eqb_refl. cbn [andb].
  destruct (P e); [reflexivity|]. cbn [orb] in *. eapply IH; eauto.
Qed.

Lemma mile_fix_agree t y : agree is_digit (mile_fix t) y = true ->
  str_all (fun c => negb (is_digit c)) y = true ->
  String.eqb y "mile" = false /\ is_mile_modifier y = false.
Proof.
  intros H Hy. pose proof (agree_all_eq _ _ _ H Hy) as E. unfold mile_fix in E.
  destruct (String.eqb t "mile") eqn:E1; [subst y; discriminate Hy|].
  destruct (is_mile_modifier t) eqn:E2; [subst y; simpl in Hy; discriminate Hy|].
  subst y. auto.
Qed.

Lemma mile_fix_id t y : agree is_digit (mile_fix t) y = true -> mile_fix y = y.
Proof.
  intros H. destruct (str_all (fun c => negb (is_digit c)) y) eqn:Hy.
  - destruct (mile_fix_agree t y H Hy) as [E1 E2]. unfold mile_fix. rewrite E1, E2.
    reflexivity.
  - unfold mile_fix. destruct (String.eqb y "mile") eqn:E1.
    { apply String.eqb_eq in E1. subst y. discriminate Hy. }
    destruct (is_mile_modifier y) eqn:E2; [|reflexivity].
    rewrite (mile_mod_nodigit y E2) in Hy. discriminate.
Qed.

Lemma normalize_units_eq c : normalize_units c =
  js_replace_all relay_step (js_replace_all modifier_step (js_replace_all unit_step
    (mile_fix (js_replace_all miles_step (js_toLowerCase c))))).
Proof. reflexivity. Qed.

Definition nu_core (c : string) : string :=
  localD O (localU false (mile_fix (js_replace_all miles_step (js_toLowerCase c)))).

Lemma normalize_units_core c : normalize_units c = nu_core c.
Proof.
  rewrite normalize_units_eq. unfold js_replace_all at 2 3.
  rewrite (gsub_unit_local _ _ _ (le_n _)), (gsub_modifier_local _ _ _ (le_n _)).
  unfold js_replace_all. apply gsub_clear. apply clearD_clear_relay.
  apply (localD_clearD _ _ (le_n _)).
Qed.

Lemma nu_core_fix c : normalize_units (nu_core c) = nu_core c.
Proof.
  set (t2 := mile_fix (js_replace_all miles_step (js_toLowerCase c))).
  assert (Ey : nu_core c = localD O (localU false t2)) by reflexivity.
  set (y := nu_core c) in *.
  assert (Hlow : str_all lowc y = true).
  { rewrite Ey. apply localD_all; [reflexivity|]. apply localU_all. apply mile_fix_all.
    apply miles_all. apply lower_all. }
  assert (HM : clear miles_step None y = true).
  { rewrite Ey. apply (localD_keeps_clearM _ _ _ (le_n _)).
    apply (localU_keeps_clearM _ false None None); [|right; reflexivity|discriminate].
    apply mile_fix_keeps_clearM. apply (gsub_miles_clear _ _ _ (le_n _)). }
  assert (HU : clearU y = true).
  { rewrite Ey. apply (localD_keeps_clearU _ _ (le_n _)). apply localU_clearU. }
  assert (HD : clearD y = true).
  { rewrite Ey. apply (localD_clearD _ _ (le_n _)). }
  assert (HA : agree is_digit t2 y = true).
  { rewrite Ey. eapply agree_trans; [apply agree_localU|apply agree_localD]. }
  rewrite normalize_units_core. unfold nu_core at 1. fold y.
  rewrite (lower_fix y Hlow). unfold js_replace_all. rewrite (gsub_clear _ _ _ HM).
  rewrite (mile_fix_id _ _ HA).
  rewrite <- (gsub_unit_local _ y None (le_n _)), (gsub_clear _ _ _ (clearU_clear y None HU)).
  rewrite <- (gsub_modifier_local _ y None (le_n _)).
  apply gsub_clear. apply clearD_clear_modifier. exact HD.
Qed.

Lemma nu_core_cl c : cl true c = true -> cl true (nu_core c) = true.
Proof.
  intros H. unfold nu_core. apply (cl_localD _ _ _ (le_n _)). apply cl_localU.
  apply cl_mile_fix. unfold js_replace_all. rewrite (cl_miles _ _ _ _ (le_n _)).
  rewrite cl_lower. exact H.
Qed.

Definition ws_first (s : string) : bool :=
  match s with String c _ => is_ws c | EmptyString => false end.

Fixpoint lastws (b : bool) (s : string) : bool :=
  match s with EmptyString => b | String c s' => lastws (is_ws c) s' end.

Lemma lastws_app a : forall b z, lastws b (a ++ z) = lastws (lastws b a) z.
Proof. induction a as [|c a IH]; intros b z; [reflexivity|]. apply IH. Qed.

Lemma lastws_allws W : str_all is_ws W = true -> lastws true W = true.
Proof.
  induction W as [|c W IH]; [reflexivity|]. cbn [str_all lastws].
  intros H. apply andb_prop in H as [-> H]. apply IH. exact H.
Qed.

Lemma ws_run_drop_first s : ws_first (str_drop (ws_run s) s) = false.
Proof.
  induction s as [|c s IH]; [reflexivity|]. cbn [ws_run].
  destruct (is_ws c) eqn:Hc; [exact IH|]. exact Hc.
Qed.

Lemma list_ascii_app_last a c :
  list_ascii_of_string (a ++ String c EmptyString) = (list_ascii_of_string a ++ [c])%list.
Proof. induction a as [|x a IH]; [reflexivity|]. cbn. rewrite IH. reflexivity. Qed.

Lemma string_of_list_app_last l c :
  string_of_list_ascii (l ++ [c])%list = (string_of_list_ascii l ++ String c EmptyString).
Proof. induction l as [|x l IH]; [reflexivity|]. cbn. rewrite IH. reflexivity. Qed.

Lemma cl_first s b : cl b s = true -> b = true -> ws_first s = false /\ s <> EmptyString.
Proof.
  intros H ->. destruct s as [|c s]; [discriminate|]. cbn [cl] in H. cbn [ws_first].
  split; [|discriminate]. destruct (is_ws c); [|reflexivity].
  rewrite andb_false_r in H. discriminate.
Qed.

Lemma cl_last s : forall b, cl b s = true -> s <> EmptyString ->
  exists a c, s = (a ++ String c EmptyString) /\ is_ws c = false.
Proof.
  induction s as [|c s IH]; intros b H Hne; [congruence|].
  destruct s as [|x s].
  - exists EmptyString, c. split; [reflexivity|]. cbn [cl] in H.
    destruct (is_ws c); [rewrite andb_false_r in H; discriminate|reflexivity].
  - cbn [cl] in H. destruct (is_ws c).
    + apply andb_prop in H as [_ H].
      destruct (IH true H ltac:(discriminate)) as (a & e & Ea & He).
      exists (String c a), e. rewrite Ea. split; [reflexivity|exact He].
    + destruct (IH false H ltac:(discriminate)) as (a & e & Ea & He).
      exists (String c a), e. rewrite Ea. split; [reflexivity|exact He].
Qed.

(** A clean string is its own [trim()]. *)
Lemma cl_trim s : cl true s = true -> js_trim s = s.
Proof.
  intros H. destruct (cl_first s true H eq_refl) as [Hf Hne].
  destruct (cl_last s true H Hne) as (a & c & Es & Hc).
  assert (Ht : forall t, ws_first t = false -> trim_start t = t).
  { intros [|x t] Hx; [reflexivity|]. cbn in Hx. cbn [trim_start]. rewrite Hx. reflexivity. }
  unfold js_trim. rewrite (Ht s Hf). rewrite Es at 1. rewrite list_ascii_app_last, rev_app_distr.
  cbn [rev app string_of_list_ascii]. rewrite Ht by exact Hc.
  cbn [list_ascii_of_string]. rewrite list_ascii_of_string_of_list_ascii.
  rewrite <- rev_unit.
  rewrite rev_involutive, <- list_ascii_app_last, <- Es. apply string_of_list_ascii_of_string.
Qed.

(** On a clean string the collapsing of whitespace runs changes nothing. *)
Lemma cl_ws_id s : forall b p, cl b s = true -> gsub_from ws_step O p s = s.
Proof.
  induction s as [|c s IH]; intros b p H; [reflexivity|]. cbn [gsub_from].
  change (ws_step p (String c s)) with (if is_ws c then Some (ws_run s, " ") else None).
  cbn [cl] in H. destruct (is_ws c).
  - apply andb_prop in H as [H1 H]. apply andb_prop in H1 as [Ec _].
    apply Ascii.eqb_eq in Ec. subst c. rewrite (cl_ws_run s H). cbn [String.append].
    rewrite (IH true _ H). reflexivity.
  - rewrite (IH false _ H). reflexivity.
Qed.

Lemma cl_collapse : forall n s p b, (String.length s <= n)%nat ->
  lastws b s = false -> b && ws_first s = false -> cl b (gsub_from ws_step O p s) = true.
Proof.
  induction n as [|n IH]; intros s p b Hn Hl Hf.
  { destruct s; [|simpl in Hn; lia]. cbn in *. rewrite Hl. reflexivity. }
  destruct s as [|c s']; [cbn in *; rewrite Hl; reflexivity|]. cbn [gsub_from].
  change (ws_step p (String c s')) with (if is_ws c then Some (ws_run s', " ") else None).
  cbn [ws_first lastws] in *. destruct (is_ws c) eqn:Hc.
  - destruct b; [discriminate|].
    destruct (gsub_skip_drop ws_step (ws_run s') s' (Some c) (ws_run_le s')) as [q ->].
    change (cl false (" " ++ gsub_from ws_step O q (str_drop (ws_run s') s')))
      with (cl true (gsub_from ws_step O q (str_drop (ws_run s') s'))).
    apply IH.
    + rewrite str_length_drop. simpl in Hn. lia.
    + rewrite <- (str_take_drop (ws_run s') s'), lastws_app, lastws_allws in Hl;
        [exact Hl|apply ws_run_take].
    + apply ws_run_drop_first.
  - cbn [cl]. rewrite Hc. apply IH; [simpl in Hn; lia|exact Hl|reflexivity].
Qed.

Lemma trim_start_shape s : trim_start s = EmptyString \/
  exists x t, trim_start s = String x t /\ is_ws x = false.
Proof.
  induction s as [|c s IH]; [left; reflexivity|]. cbn [trim_start].
  destruct (is_ws c) eqn:Hc; [exact IH|right; exists c, s; auto].
Qed.

Lemma trim_start_last a c : is_ws c = false ->
  exists a', trim_start (a ++ String c EmptyString) = (a' ++ String c EmptyString).
Proof.
  intros Hc. induction a as [|x a IH].
  - exists EmptyString. cbn. rewrite Hc. reflexivity.
  - cbn [String.append trim_start]. destruct (is_ws x); [exact IH|].
    exists (String x a). reflexivity.
Qed.

(** The result of [trim()] is empty or starts and ends with a
    non-whitespace character. *)
Lemma trim_shape d : js_trim d = EmptyString \/
  (ws_first (js_trim d) = false /\ lastws true (js_trim d) = false).
Proof.
  unfold js_trim. destruct (trim_start_shape d) as [->|(x & t & -> & Hx)]; [left; reflexivity|].
  right. cbn [list_ascii_of_string rev]. rewrite string_of_list_app_last.
  destruct (trim_start_last (string_of_list_ascii (rev (list_ascii_of_string t))) x Hx)
    as [a' Ea]. rewrite Ea.
  destruct (trim_start_shape (string_of_list_ascii (rev (list_ascii_of_string t)) ++
    String x EmptyString)) as [E0|(x1 & t1 & E1 & Hx1)].
  { rewrite Ea in E0. destruct a'; discriminate. }
  rewrite Ea in E1. split.
  - rewrite list_ascii_app_last, rev_app_distr. exact Hx.
  - rewrite E1. cbn [list_ascii_of_string rev]. rewrite string_of_list_app_last, lastws_app.
    exact Hx1.
Qed.

Lemma collapse_trim_cl d :
  js_replace_all ws_step (js_trim d) = EmptyString \/
  cl true (js_replace_all ws_step (js_trim d)) = true.
Proof.
  destruct (trim_shape d) as [->|[Hf Hl]]; [left; reflexivity|]. right.
  unfold js_replace_all. apply (cl_collapse _ _ _ _ (le_n _)); [exact Hl|exact Hf].
Qed.

Lemma digit_run_take s : str_all is_digit (str_take (digit_run s) s) = true.
Proof.
  induction s as [|c s IH]; [reflexivity|]. cbn [digit_run].
  destruct (is_digit c) eqn:Hc; [|reflexivity]. cbn [str_take str_all]. rewrite Hc. exact IH.
Qed.

Lemma is_mw_cases W : is_mw W = true -> W = "mw" \/ W = "mW" \/ W = "Mw" \/ W = "MW".
Proof.
  unfold is_mw. intros H. repeat (apply orb_prop in H as [H|H]);
    apply String.eqb_eq in H; subst; auto.
Qed.

(** The shape of a string accepted by [/^\d{1,2},\d{3}mw$/i]. *)
Lemma cw_shape s : is_comma_walk s = true ->
  exists D1 D3 W, s = (D1 ++ String "," (D3 ++ W)) /\ str_all is_digit D1 = true /\
    (String.length D1 = 1 \/ String.length D1 = 2)%nat /\ str_all is_digit D3 = true /\
    String.length D3 = 3%nat /\ is_mw W = true.
Proof.
  unfold is_comma_walk. cbv zeta. intros H. apply andb_prop in H as [Hn H].
  destruct (str_drop (digit_run s) s) as [|c r] eqn:Ed; [discriminate|].
  apply andb_prop in H as [H Hw]. apply andb_prop in H as [Hc Hr].
  apply Nat.eqb_eq in Hc, Hr.
  assert (Ec : c = ","%char).
  { rewrite <- (ascii_nat_embedding c). unfold code in Hc. rewrite Hc. reflexivity. }
  subst c.
  exists (str_take (digit_run s) s), (str_take 3 r), (str_drop 3 r).
  pose proof (digit_run_le s) as Hs. pose proof (digit_run_le r) as Hr'.
  repeat split.
  - rewrite str_take_drop. rewrite <- Ed. symmetry. apply str_take_drop.
  - apply digit_run_take.
  - rewrite str_length_take by exact Hs.
    apply orb_prop in Hn as [Hn|Hn]; apply Nat.eqb_eq in Hn; auto.
  - rewrite <- Hr. apply digit_run_take.
  - apply str_length_take. lia.
  - exact Hw.
Qed.

Lemma replace_mw_app P W : is_mw W = true -> replace_mw (P ++ W) = (P ++ "mW").
Proof.
  intros H. assert (HW : String.length W = 2%nat)
    by (destruct (is_mw_cases W H) as [->|[->|[->| ->]]]; reflexivity).
  unfold replace_mw. cbv zeta.
  replace (String.length (P ++ W) - 2)%nat with (String.length P)
    by (rewrite str_length_app; lia).
  rewrite str_drop_app_len, str_take_app_len, H.
  replace (2 <=? String.length (P ++ W))%nat with true
    by (symmetry; apply Nat.leb_le; rewrite str_length_app; lia).
  reflexivity.
Qed.

Lemma nows_cl s : str_all (fun c => negb (is_ws c)) s = true -> cl false s = true.
Proof.
  induction s as [|c s IH]; [reflexivity|]. cbn [str_all cl].
  intros H. apply andb_prop in H as [Hc H]. destruct (is_ws c); [discriminate|].
  apply IH. exact H.
Qed.

Lemma cw_out c : is_comma_walk c = true ->
  is_comma_walk (replace_mw c) = true /\ replace_mw (replace_mw c) = replace_mw c /\
  cl true (replace_mw c) = true.
Proof.
  intros H. destruct (cw_shape c H) as (D1 & D3 & W & -> & HD1 & HL1 & HD3 & HL3 & HW).
  assert (EP : forall V, (D1 ++ String "," (D3 ++ V)) = ((D1 ++ String "," D3) ++ V))
    by (intros V; rewrite <- str_app_assoc; reflexivity).
  rewrite EP, (replace_mw_app _ _ HW), replace_mw_app by reflexivity.
  rewrite <- EP. repeat split.
  - unfold is_comma_walk. cbv zeta. rewrite digit_run_app by exact HD1.
    change (digit_run (String "," (D3 ++ "mW"))) with O. rewrite Nat.add_0_r.
    rewrite str_drop_app_len.
    assert (E3 : str_drop 3 (D3 ++ "mW") = "mW") by (rewrite <- HL3; apply str_drop_app_len).
    rewrite digit_run_app by exact HD3. change (digit_run "mW") with O.
    rewrite Nat.add_0_r, HL3, E3.
    destruct HL1 as [-> | ->]; reflexivity.
  - destruct D1 as [|d D1]; [destruct HL1 as [H1|H1]; discriminate|]. cbn [String.append cl].
    cbn [str_all] in HD1. apply andb_prop in HD1 as [Hd HD1].
    rewrite (digit_not_ws d Hd). apply nows_cl.
    rewrite str_all_app. cbn [str_all]. rewrite str_all_app.
    rewrite !(str_all_impl is_digit) by (assumption ||
      (intros x Hx; rewrite (digit_not_ws x Hx); reflexivity)).
    reflexivity.
Qed.

(* ------------------------------------------------------------------ *)
(** A string of the comma-walk shape is refused by every later test. *)

Definition qcw (c : ascii) : bool :=
  is_digit c || Ascii.eqb c "," || Ascii.eqb c "m" || Ascii.eqb c "w"
  || Ascii.eqb c "M" || Ascii.eqb c "W".

Lemma starts_with_qcw w : forall y, starts_with w y = true -> str_all qcw y = true ->
  str_all qcw w = true.
Proof.
  induction w as [|a w IH]; intros y H Hy; [reflexivity|].
  destruct y as [|b y]; [discriminate|]. cbn [starts_with str_all] in *.
  apply andb_prop in H as [E H]. apply Ascii.eqb_eq in E. subst b.
  apply andb_prop in Hy as [Ha Hy]. rewrite Ha. apply (IH y H Hy).
Qed.

Lemma contains_qcw w y : str_contains w y = true -> str_all qcw y = true ->
  str_all qcw w = true.
Proof.
  induction y as [|b y IH]; intros H Hy.
  - cbn [str_contains] in H. rewrite orb_false_r in H. exact (starts_with_qcw w _ H Hy).
  - cbn [str_contains] in H. apply orb_prop in H as [H|H]; [exact (starts_with_qcw w _ H Hy)|].
    cbn [str_all] in Hy. apply andb_prop in Hy as [_ Hy]. exact (IH H Hy).
Qed.

Lemma sw_qcw w y : str_all qcw w = false -> str_all qcw y = true -> starts_with w y = false.
Proof.
  intros Hw Hy. destruct (starts_with w y) eqn:E; [|reflexivity].
  rewrite (starts_with_qcw w y E Hy) in Hw. discriminate.
Qed.

Lemma eqb_qcw w y : str_all qcw w = false -> str_all qcw y = true -> String.eqb y w = false.
Proof.
  intros Hw Hy. destruct (String.eqb y w) eqn:E; [|reflexivity].
  apply String.eqb_eq in E. subst. congruence.
Qed.

Lemma contains_qcw_false w y : str_all qcw w = false -> str_all qcw y = true ->
  str_contains w y = false.
Proof.
  intros Hw Hy. destruct (str_contains w y) eqn:E; [|reflexivity].
  rewrite (contains_qcw w y E Hy) in Hw. discriminate.
Qed.

(** The tests after the comma-walk one (lines 235-262). *)
Definition classify_rest (normalized : string) : option string :=
  if is_relay normalized then Some normalized
  else if is_event_like normalized then Some normalized
  else if is_special_event normalized then Some normalized
  else if is_field_event normalized then Some normalized
  else if is_combined_event normalized then Some (js_replace_all dot_step normalized)
  else None.

Lemma cw_rest y : is_comma_walk y = true -> classify_rest y = None.
Proof.
  intros H. destruct (cw_shape y H) as (D1 & D3 & W & Ey & HD1 & HL1 & HD3 & HL3 & HW).
  assert (Hq : str_all qcw y = true).
  { rewrite Ey, str_all_app. cbn [str_all]. rewrite str_all_app.
    rewrite !(str_all_impl is_digit qcw) by (assumption ||
      (intros x Hx; unfold qcw; rewrite Hx; reflexivity)).
    destruct (is_mw_cases W HW) as [->|[->|[->| ->]]]; reflexivity. }
  assert (Ht : is_timed y = false).
  { assert (Hnl : number_len y = String.length D1).
    { unfold number_len. cbv zeta. rewrite Ey, digit_run_app by exact HD1.
      change (digit_run (String "," (D3 ++ W))) with O.
      rewrite Nat.add_0_r, str_drop_app_len. reflexivity. }
    unfold is_timed. cbv zeta. rewrite Hnl.
    assert (Hdr : str_drop (String.length D1) y = String "," (D3 ++ W))
      by (rewrite Ey; apply str_drop_app_len).
    rewrite Hdr.
    destruct (0 <? digit_run y)%nat; reflexivity. }
  unfold classify_rest, is_relay, is_event_like, is_special_event, is_field_event,
    is_combined_event, combined_sh, combined_dot.
  cbn [existsb String.append].
  rewrite (sw_qcw "4x" y), Ht by first [reflexivity|exact Hq].
  rewrite !(contains_qcw_false _ y) by first [reflexivity|exact Hq].
  rewrite !(sw_qcw _ y) by first [reflexivity|exact Hq].
  rewrite !(eqb_qcw _ y) by first [reflexivity|exact Hq].
  reflexivity.
Qed.

Lemma sh_shape r : cl false r = true -> String.eqb (str_drop (ws_run r) r) "sh" = true ->
  r = "sh" \/ r = " sh".
Proof.
  intros Hc He. destruct r as [|c r]; [discriminate|]. cbn [ws_run cl] in *.
  destruct (is_ws c).
  - apply andb_prop in Hc as [Hc H]. apply andb_prop in Hc as [Hc _].
    apply Ascii.eqb_eq in Hc. subst c. rewrite (cl_ws_run r H) in He.
    apply String.eqb_eq in He. cbn in He. subst r. right. reflexivity.
  - apply String.eqb_eq in He. left. exact He.
Qed.

Lemma combined_sh_in base y : (base = "hept" \/ base = "pent") ->
  combined_sh base y = true -> cl true y = true ->
  y = (base ++ "sh") \/ y = (base ++ " sh") \/ y = (base ++ ".sh") \/ y = (base ++ ". sh").
Proof.
  intros Hb H Hcl. unfold combined_sh in H. cbv zeta in H.
  apply andb_prop in H as [Hs He]. destruct (starts_with_app_split _ _ Hs) as [r ->].
  rewrite str_drop_app_len in He.
  assert (Hr : cl false r = true) by (destruct Hb as [-> | ->]; exact Hcl).
  destruct (starts_with "." r) eqn:Ed.
  - destruct (starts_with_app_split _ _ Ed) as [r1 ->].
    change (str_drop 1 ("." ++ r1)) with r1 in He.
    change (cl false ("." ++ r1)) with (cl false r1) in Hr.
    destruct (sh_shape r1 Hr He) as [-> | ->]; auto.
  - destruct (sh_shape r Hr He) as [-> | ->]; auto.
Qed.

(** The clean strings accepted by the combined-event pattern. *)
Definition comb_list : list string :=
  ["heptsh"; "hept sh"; "hept.sh"; "hept. sh"; "hept"; "hept.";
   "pentsh"; "pent sh"; "pent.sh"; "pent. sh"; "pent"; "pent.";
   "dec"; "dec."; "decathlon"; "heptathlon"; "pentathlon"].

Lemma combined_in y : is_combined_event y = true -> cl true y = true ->
  existsb (String.eqb y) comb_list = true.
Proof.
  intros H Hcl. unfold is_combined_event, combined_dot in H.
  repeat (apply orb_prop in H as [H|H]).
  all: first
    [ destruct (combined_sh_in "hept" y (or_introl eq_refl) H Hcl) as [->|[->|[->| ->]]]
    | destruct (combined_sh_in "pent" y (or_intror eq_refl) H Hcl) as [->|[->|[->| ->]]]
    | apply String.eqb_eq in H; subst y ]; reflexivity.
Qed.

Lemma comb_list_fixed y : existsb (String.eqb y) comb_list = true ->
  normalizeEventName (js_replace_all dot_step y) = Some (js_replace_all dot_step y).
Proof.
  intros H. apply existsb_exists in H as [x [Hin Ex]]. apply String.eqb_eq in Ex. subst x.
  cbn [comb_list In] in Hin.
  repeat (destruct Hin as [<-|Hin]; [vm_compute; reflexivity|]). destruct Hin.
Qed.

Lemma normalizeEventName_eq d : normalizeEventName d =
  if String.eqb d EmptyString then None else
  let c := js_replace_all ws_step (js_trim d) in
  if is_comma_walk c then Some (replace_mw c) else classify_rest (normalize_units c).
Proof. reflexivity. Qed.

Lemma normalizeEventName_clean y : cl true y = true ->
  normalizeEventName y =
  if is_comma_walk y then Some (replace_mw y) else classify_rest (normalize_units y).
Proof.
  intros H. rewrite normalizeEventName_eq.
  destruct (cl_first y true H eq_refl) as [_ Hne].
  destruct (String.eqb y EmptyString) eqn:E; [apply String.eqb_eq in E; contradiction|].
  cbv zeta. rewrite (cl_trim y H).
  replace (js_replace_all ws_step y) with y by (symmetry; exact (cl_ws_id y true None H)).
  reflexivity.
Qed.

(** C2: normalizing a canonical key returns that key:
    [normalizeEventName] applied to a result [Some y] of
    [normalizeEventName d] gives [Some y] again, so normalizing twice
    equals normalizing once. *)
Theorem normalizeEventName_idempotent (d : string) :
  match normalizeEventName d with
  | Some y => normalizeEventName y
  | None => None
  end = normalizeEventName d.
Proof.
  destruct (normalizeEventName d) as [y|] eqn:E; [|reflexivity].
  rewrite normalizeEventName_eq in E.
  destruct (String.eqb d EmptyString); [discriminate|]. cbv zeta in E.
  destruct (collapse_trim_cl d) as [Hc0|Hcl].
  { rewrite Hc0 in E. vm_compute in E. discriminate. }
  set (c := js_replace_all ws_step (js_trim d)) in *.
  destruct (is_comma_walk c) eqn:Ecw.
  - injection E as <-. destruct (cw_out c Ecw) as (Hw & Hr & Hcl').
    rewrite (normalizeEventName_clean _ Hcl'), Hw, Hr. reflexivity.
  - assert (Hy : normalize_units c = nu_core c) by apply normalize_units_core.
    set (y0 := normalize_units c) in *.
    assert (Hcly : cl true y0 = true) by (rewrite Hy; apply nu_core_cl; exact Hcl).
    assert (Hfix : normalize_units y0 = y0) by (rewrite Hy; apply nu_core_fix).
    assert (Hnc : is_comma_walk y0 = false).
    { destruct (is_comma_walk y0) eqn:Ec; [|reflexivity].
      rewrite (cw_rest y0 Ec) in E. discriminate. }
    pose proof E as E'. unfold classify_rest in E.
    destruct (is_relay y0) eqn:E1;
      [injection E as <-; rewrite (normalizeEventName_clean _ Hcly), Hnc, Hfix; exact E'|].
    destruct (is_event_like y0) eqn:E2;
      [injection E as <-; rewrite (normalizeEventName_clean _ Hcly), Hnc, Hfix; exact E'|].
    destruct (is_special_event y0) eqn:E3;
      [injection E as <-; rewrite (normalizeEventName_clean _ Hcly), Hnc, Hfix; exact E'|].
    destruct (is_field_event y0) eqn:E4;
      [injection E as <-; rewrite (normalizeEventName_clean _ Hcly), Hnc, Hfix; exact E'|].
    destruct (is_combined_event y0) eqn:E5; [|discriminate].
    injection E as <-. apply comb_list_fixed. apply combined_in; assumption.
Qed.

End NormalizerIdempotence.

(* ------------------------------------------------------------------ *)
(** ** Row-token reconstruction, for every token *)

(** A token cut into its matches and the gaps after them. *)
Definition glue (rest : list (string * string)) : string :=
  fold_right (fun '(m, g) acc => (m ++ g ++ acc)%string) EmptyString rest.

(** The claim's reading of the reconstruction: the dashes of the first gap,
    then each match followed by the dashes of the gap after it. *)
Definition pieces (g0 : string) (rest : list (string * string)) : list string :=
  dashes g0 ++ flat_map (fun '(m, g) => m :: dashes g) rest.

(** No attempt of the pattern succeeds at a position of the gap [g]. *)
Definition no_start (g s : string) : Prop :=
  forall i, (i < String.length g)%nat -> perf_match_at (str_drop i (g ++ s)) = None.

(** [m] is a whole match of [/\d+[\.:]\d{2}/]. *)
Definition perf_shape (m : string) : Prop := perf_match_at m = Some (String.length m).

Fixpoint chain_ok (rest : list (string * string)) : Prop :=
  match rest with
  | [] => True
  | (m, g) :: r => perf_shape m /\ no_start g (glue r) /\ chain_ok r
  end.

Lemma prefix_app (m w : string) : String.prefix m (m ++ w) = true.
Proof.
  induction m as [|c m IH]; simpl; [destruct w; reflexivity|].
  destruct (ascii_dec c c) as [_|n]; [exact IH | now elim n].
Qed.

Lemma prefix_inv (m z : string) : String.prefix m z = true -> exists w, z = (m ++ w)%string.
Proof.
  revert z. induction m as [|c m IH]; intros z H; [now exists z|].
  destruct z as [|d z]; simpl in H; [discriminate|].
  destruct (ascii_dec c d) as [<-|_]; [|discriminate].
  destruct (IH z H) as [w ->]. now exists w.
Qed.

Lemma digit_run_lt_app (s w : string) :
  (digit_run s < String.length s)%nat -> digit_run (s ++ w) = digit_run s.
Proof.
  induction s as [|c s IH]; simpl; [lia|].
  destruct (is_digit c); [intros H; rewrite IH by lia; reflexivity | reflexivity].
Qed.

Lemma perf_match_at_some (s : string) n :
  perf_match_at s = Some n ->
  (0 < digit_run s)%nat /\ n = (digit_run s + 3)%nat /\
  exists c d1 d2 r, str_drop (digit_run s) s = String c (String d1 (String d2 r)) /\
                    is_sep c = true /\ is_digit d1 = true /\ is_digit d2 = true.
Proof.
  unfold perf_match_at. destruct (Nat.eqb_spec (digit_run s) 0) as [|Hn]; [discriminate|].
  destruct (str_drop (digit_run s) s) as [|c [|d1 [|d2 r]]] eqn:Ed; try discriminate.
  destruct (is_sep c && is_digit d1 && is_digit d2) eqn:Ec; [|discriminate].
  intros [= <-]. apply andb_true_iff in Ec as [Ec Ed2]. apply andb_true_iff in Ec as [Ec Ed1].
  split; [lia|]. split; [reflexivity|]. now exists c, d1, d2, r.
Qed.

Lemma digit_run_sep (s : string) c r :
  str_drop (digit_run s) s = String c r -> is_sep c = true ->
  (digit_run s < String.length s)%nat.
Proof.
  intros H _. pose proof (digit_run_le s) as Hle.
  assert (Hl := str_length_drop (digit_run s) s). rewrite H in Hl. simpl in Hl. lia.
Qed.

(** A whole match is still a match, of the same length, with anything
    after it. *)
Lemma perf_shape_app (m w : string) :
  perf_shape m -> perf_match_at (m ++ w) = Some (String.length m).
Proof.
  unfold perf_shape. intros H. rewrite <- H.
  destruct (perf_match_at_some m _ H) as (Hpos & Hn & c & d1 & d2 & r & Hd & Hc & H1 & H2).
  assert (Hlt : (digit_run m < String.length m)%nat) by (eapply digit_run_sep; eauto).
  unfold perf_match_at. rewrite (digit_run_lt_app m w Hlt).
  rewrite (str_drop_app_lt _ m w Hlt), Hd. reflexivity.
Qed.

(** The prefix of a successful attempt is a whole match. *)
Lemma perf_match_at_take (s : string) n :
  perf_match_at s = Some n -> perf_shape (str_take n s) /\ (n <= String.length s)%nat.
Proof.
  intros H.
  destruct (perf_match_at_some s _ H) as (Hpos & Hn & c & d1 & d2 & r & Hd & Hc & H1 & H2).
  assert (Hs : s = (str_take (digit_run s) s ++ String c (String d1 (String d2 r)))%string)
    by (rewrite <- Hd; symmetry; apply str_take_drop).
  assert (Hlen : String.length (str_take (digit_run s) s) = digit_run s)
    by (apply str_length_take, digit_run_le).
  assert (Hall : str_all is_digit (str_take (digit_run s) s) = true) by apply digit_run_take.
  remember (digit_run s) as k eqn:Hk.
  set (p := str_take k s) in *. clearbody p. subst n.
  rewrite Hs. rewrite <- Hlen. rewrite str_take_app_add. cbn [str_take].
  split; [|rewrite str_length_app; simpl; lia].
  assert (Hc' : is_digit c = false).
  { destruct c as [[] [] [] [] [] [] [] []]; vm_compute in Hc; try discriminate; reflexivity. }
  unfold perf_shape, perf_match_at.
  rewrite digit_run_app by exact Hall. cbn [digit_run]. rewrite Hc'.
  rewrite Nat.add_0_r.
  destruct (Nat.eqb_spec (String.length p) 0) as [|_]; [lia|].
  rewrite str_drop_app_len. rewrite Hc, H1, H2. cbn [andb].
  rewrite str_length_app. reflexivity.
Qed.

(** The matches of [token.match(/\d+[\.:]\d{2}/g)] cut the string. *)
Lemma perf_matches_cut (fuel : nat) : forall s, (String.length s < fuel)%nat ->
  exists g0 rest, s = (g0 ++ glue rest)%string /\ map fst rest = perf_matches fuel s /\
                  no_start g0 (glue rest) /\ chain_ok rest.
Proof.
  induction fuel as [|f IH]; intros s Hs; [lia|].
  destruct s as [|c s'].
  - exists EmptyString, []. split; [reflexivity|]. split; [reflexivity|].
    split; [intros i Hi; simpl in Hi; lia | exact I].
  - cbn [perf_matches]. destruct (perf_match_at (String c s')) as [n|] eqn:Hm.
    + destruct (perf_match_at_take _ _ Hm) as [Hsh Hn].
      destruct (perf_match_at_some _ _ Hm) as (Hpos & Hn' & _).
      destruct (IH (str_drop n (String c s'))) as (g1 & rest1 & E1 & M1 & N1 & C1).
      { rewrite str_length_drop. change (String.length (String c s')) with (S (String.length s')) in *. lia. }
      exists EmptyString, ((str_take n (String c s'), g1) :: rest1).
      split; [|split; [|split]].
      * simpl. rewrite <- E1. symmetry. apply str_take_drop.
      * simpl. now rewrite M1.
      * intros i Hi. simpl in Hi. lia.
      * simpl. split; [exact Hsh|]. split; [exact N1 | exact C1].
    + destruct (IH s') as (g1 & rest1 & E1 & M1 & N1 & C1); [simpl in Hs; lia|].
      exists (String c g1), rest1. split; [|split; [|split]].
      * simpl. now rewrite <- E1.
      * exact M1.
      * intros [|i] Hi; simpl; [now rewrite <- E1|]. apply N1. simpl in Hi. lia.
      * exact C1.
Qed.

Lemma find_from_gap (m g y : string) k :
  no_start g y -> perf_shape m -> String.prefix m y = true ->
  find_from k m (g ++ y) = Some (k + String.length g)%nat.
Proof.
  revert k. induction g as [|c g IH]; intros k Hg Hm Hp.
  - simpl. destruct y; simpl in *; rewrite Hp; f_equal; lia.
  - cbn [String.append]. unfold find_from; fold find_from.
    destruct (String.prefix m (String c (g ++ y))) eqn:Hpre.
    + exfalso. apply prefix_inv in Hpre as [w Hw].
      specialize (Hg 0%nat ltac:(simpl; lia)). simpl in Hg. rewrite Hw in Hg.
      rewrite (perf_shape_app m w Hm) in Hg. discriminate.
    + rewrite IH; [simpl; f_equal; lia | | exact Hm | exact Hp].
      intros i Hi. apply (Hg (S i)). simpl. lia.
Qed.

Lemma js_substring_mid (pre g y : string) :
  js_substring (pre ++ g ++ y) (Z.of_nat (String.length pre))
    (Z.of_nat (String.length pre + String.length g)) = g.
Proof.
  unfold js_substring. rewrite !str_length_app.
  replace (Z.max 0 (Z.min (Z.of_nat (String.length pre))
             (Z.of_nat (String.length pre + (String.length g + String.length y)))))
    with (Z.of_nat (String.length pre)) by lia.
  replace (Z.max 0 (Z.min (Z.of_nat (String.length pre + String.length g))
             (Z.of_nat (String.length pre + (String.length g + String.length y)))))
    with (Z.of_nat (String.length pre + String.length g)) by lia.
  rewrite Z.min_l, Z.max_r by lia.
  replace (Z.to_nat (Z.of_nat (String.length pre + String.length g) -
                     Z.of_nat (String.length pre))) with (String.length g) by lia.
  rewrite Nat2Z.id, str_drop_app_len. apply str_take_app_len.
Qed.

(** The state after the matches: the parts, and the gap after the last
    match. *)
Fixpoint woven (g : string) (rest : list (string * string)) : list string * string :=
  match rest with
  | [] => ([], g)
  | (m, g') :: r => let '(ps, last) := woven g' r in (dashes g ++ [m] ++ ps, last)
  end.

Lemma reconstruct_loop_gen (token : string) (rest : list (string * string)) :
  forall pre g acc, token = (pre ++ g ++ glue rest)%string ->
  no_start g (glue rest) -> chain_ok rest ->
  fold_left (fun '(parts, lastIndex) m =>
               (parts ++ dashes (js_substring token lastIndex (js_indexOf token m lastIndex))
                  ++ [m], (js_indexOf token m lastIndex + Z.of_nat (String.length m))%Z))
            (map fst rest) (acc, Z.of_nat (String.length pre)) =
  (acc ++ fst (woven g rest),
   Z.of_nat (String.length token - String.length (snd (woven g rest)))).
Proof.
  induction rest as [|[m g'] r IH]; intros pre g acc Ht Hg Hc.
  - simpl. rewrite List.app_nil_r. f_equal. rewrite Ht, !str_length_app. simpl. f_equal. lia.
  - destruct Hc as (Hm & Hg' & Hc). cbn [map fold_left].
    assert (Hidx : js_indexOf token m (Z.of_nat (String.length pre)) =
                   Z.of_nat (String.length pre + String.length g)).
    { unfold js_indexOf.
      assert (Hl : (String.length pre <= String.length token)%nat)
        by (rewrite Ht, str_length_app; lia).
      replace (Z.to_nat (Z.max 0 (Z.min (Z.of_nat (String.length pre))
                 (Z.of_nat (String.length token))))) with (String.length pre) by lia.
      rewrite Ht. rewrite str_drop_app_len.
      rewrite (find_from_gap m g (m ++ g' ++ glue r)); [reflexivity | exact Hg | exact Hm |].
      apply prefix_app. }
    cbn [fst]. rewrite Hidx.
    assert (Hsub : js_substring token (Z.of_nat (String.length pre))
                     (Z.of_nat (String.length pre + String.length g)) = g)
      by (rewrite Ht; apply js_substring_mid).
    rewrite Hsub.
    replace (Z.of_nat (String.length pre + String.length g) + Z.of_nat (String.length m))%Z
      with (Z.of_nat (String.length ((pre ++ g) ++ m)%string))
      by (rewrite !str_length_app; lia).
    rewrite (IH ((pre ++ g) ++ m)%string g' (acc ++ dashes g ++ [m])).
    + cbn [woven]. destruct (woven g' r) as [ps last]. cbn [fst snd].
      f_equal. now rewrite <- !List.app_assoc.
    + rewrite Ht. cbn [glue fold_right]. fold (glue r). now rewrite <- !str_app_assoc.
    + exact Hg'.
    + exact Hc.
Qed.

Lemma woven_pieces (rest : list (string * string)) : forall g,
  fst (woven g rest) ++ dashes (snd (woven g rest)) = pieces g rest.
Proof.
  unfold pieces. induction rest as [|[m g'] r IH]; intros g; simpl; [symmetry; apply List.app_nil_r|].
  specialize (IH g'). destruct (woven g' r) as [ps last]. simpl in *.
  rewrite <- List.app_assoc. f_equal. simpl. f_equal. exact IH.
Qed.

Lemma woven_suffix (rest : list (string * string)) : forall g,
  exists y, (g ++ glue rest)%string = (y ++ snd (woven g rest))%string.
Proof.
  induction rest as [|[m g'] r IH]; intros g.
  - exists EmptyString. simpl. apply str_app_nil_r.
  - destruct (IH g') as [y Hy]. cbn [woven]. destruct (woven g' r) as [ps last].
    exists (g ++ m ++ y)%string. cbn [snd glue fold_right]. fold (glue r).
    cbn [snd] in Hy. rewrite Hy. now rewrite <- !str_app_assoc.
Qed.

(** C3: the reconstruction of a row token cuts every concatenated token
    (not [-], [--] or a plain [\d+[.:]\d+] value) that holds a match of
    [/\d+[\.:]\d{2}/g] into the matches, in order, and the gaps between
    them; it returns the dashes of the first gap, then each match followed
    by the dashes of the gap after it.  Each match is a whole match of the
    pattern and no match begins inside a gap.  In particular
    [-5.79-9.50-19.42] gives [-], [5.79], [-], [9.50], [-], [19.42] and
    [9.5219.03] gives [9.52], [19.03]. *)
Theorem reconstruct_token_splits :
  (forall token,
     (String.eqb token "-" || String.eqb token "--" || is_simple_value token) = false ->
     token_matches token <> [] ->
     exists g0 rest,
       token = (g0 ++ glue rest)%string /\
       map fst rest = token_matches token /\
       Forall perf_shape (map fst rest) /\
       no_start g0 (glue rest) /\ chain_ok rest /\
       reconstruct_token token = pieces g0 rest) /\
  reconstruct_token "-5.79-9.50-19.42" = ["-"; "5.79"; "-"; "9.50"; "-"; "19.42"] /\
  reconstruct_token "9.5219.03" = ["9.52"; "19.03"] /\
  reconstruct_tokens "1400 -5.79-9.50-19.42 9.5219.03" =
    ["1400"; "-"; "5.79"; "-"; "9.50"; "-"; "19.42"; "9.52"; "19.03"].
Proof.
  split; [|split; [|split]]; [|vm_compute; reflexivity ..].
  intros token Hskip Hne.
  destruct (perf_matches_cut (S (String.length token)) token ltac:(lia))
    as (g0 & rest & E & M & N & C).
  exists g0, rest. split; [exact E|]. split; [exact M|].
  split; [|split; [exact N|split; [exact C|]]].
  { clear -C. induction rest as [|[m g] r IH]; simpl in *; constructor;
      [apply C | apply IH, C]. }
  unfold reconstruct_token. rewrite Hskip.
  unfold token_matches in *. rewrite <- M in *.
  destruct rest as [|[m g] r]; [contradiction|].
  unfold reconstruct_loop. cbv zeta.
  pose proof (reconstruct_loop_gen token ((m, g) :: r) EmptyString g0 [] E N C) as L.
  cbn [String.length Z.of_nat app] in L.
  change (map fst ((m, g) :: r)) with (m :: map fst r) in *. cbv beta iota.
  rewrite L.
  destruct (woven_suffix ((m, g) :: r) g0) as [y Hy].
  rewrite <- E in Hy.
  assert (Hlast : js_substring token
                    (Z.of_nat (String.length token - String.length (snd (woven g0 ((m, g) :: r)))))
                    (Z.of_nat (String.length token)) = snd (woven g0 ((m, g) :: r))).
  { rewrite Hy. rewrite str_length_app.
    replace (String.length y + String.length (snd (woven g0 ((m, g) :: r))) -
             String.length (snd (woven g0 ((m, g) :: r))))%nat with (String.length y) by lia.
    rewrite <- (str_app_nil_r (snd (woven g0 ((m, g) :: r)))) at 1.
    rewrite js_substring_mid. reflexivity. }
  cbn [app]. rewrite Hlast. rewrite woven_pieces.
  unfold pieces. cbn [flat_map].
  destruct (dashes g0) as [|d ds]; reflexivity.
Qed.

Lemma reconstruct_token_splits_witness :
  exists g0 rest, map fst rest = ["5.79"; "9.50"; "19.42"] /\
    reconstruct_token "-5.79-9.50-19.42" = pieces g0 rest.
Proof.
  destruct (proj1 reconstruct_token_splits "-5.79-9.50-19.42" eq_refl
              ltac:(intro H; vm_compute in H; discriminate))
    as (g0 & rest & _ & M & _ & _ & _ & R).
  exists g0, rest. split; [rewrite M; vm_compute; reflexivity | exact R].
Defined.


(* ------------------------------------------------------------------ *)
Section Canonical.
Local Open Scope string_scope.

Lemma normalizeEventName_canonical (d y : string) :
  normalizeEventName d = Some y -> normalizeEventName y = Some y.
Proof.
  intros E. pose proof E as E0.
  rewrite normalizeEventName_eq in E.
  destruct (String.eqb d EmptyString); [discriminate|]. cbv zeta in E.
  destruct (collapse_trim_cl d) as [Hc0|Hcl].
  { rewrite Hc0 in E. vm_compute in E. discriminate. }
  set (c := js_replace_all ws_step (js_trim d)) in *.
  destruct (is_comma_walk c) eqn:Ecw.
  - injection E as <-. destruct (cw_out c Ecw) as (Hw & Hr & Hcl').
    rewrite (normalizeEventName_clean _ Hcl'), Hw, Hr. reflexivity.
  - assert (Hy : normalize_units c = nu_core c) by apply normalize_units_core.
    set (y0 := normalize_units c) in *.
    assert (Hcly : cl true y0 = true) by (rewrite Hy; apply nu_core_cl; exact Hcl).
    assert (Hfix : normalize_units y0 = y0) by (rewrite Hy; apply nu_core_fix).
    assert (Hnc : is_comma_walk y0 = false).
    { destruct (is_comma_walk y0) eqn:Ec; [|reflexivity].
      rewrite (cw_rest y0 Ec) in E. discriminate. }
    pose proof E as E'. unfold classify_rest in E.
    destruct (is_relay y0) eqn:E1;
      [injection E as <-; rewrite (normalizeEventName_clean _ Hcly), Hnc, Hfix; exact E'|].
    destruct (is_event_like y0) eqn:E2;
      [injection E as <-; rewrite (normalizeEventName_clean _ Hcly), Hnc, Hfix; exact E'|].
    destruct (is_special_event y0) eqn:E3;
      [injection E as <-; rewrite (normalizeEventName_clean _ Hcly), Hnc, Hfix; exact E'|].
    destruct (is_field_event y0) eqn:E4;
      [injection E as <-; rewrite (normalizeEventName_clean _ Hcly), Hnc, Hfix; exact E'|].
    destruct (is_combined_event y0) eqn:E5; [|discriminate].
    injection E as <-. apply comb_list_fixed. apply combined_in; assumption.
Qed.

End Canonical.

(* ------------------------------------------------------------------ *)
Definition catalog_categories : list string :=
  ["sprints"; "middle_distance"; "long_distance"; "race_walk";
   "jumps"; "throws"; "combined"; "relays"].

Definition unnormalized_keys : list string :=
  ["wt"; "10,000mW w"; "10,000mW walk"; "15,000mW w"; "15,000mW walk";
   "20,000mW w"; "20,000mW walk"; "30,000mW w"; "30,000mW walk";
   "35,000mW w"; "35,000mW walk"; "50,000mW w"; "50,000mW walk";
   "hmw w"; "marw w"].

Lemma catalog_all (P : string -> EventInfo -> bool) :
  forallb (fun ki => P (fst ki) (snd ki)) buildEventMap = true ->
  forall k i, obj_get k buildEventMap = Some i -> P k i = true.
Proof.
  intros H k i Hg. apply obj_get_In in Hg. rewrite forallb_forall in H.
  exact (H _ Hg).
Qed.

(** X1: every category the event catalog assigns to an event is one of the
    eight catalog categories (sprints, middle_distance, long_distance,
    race_walk, jumps, throws, combined, relays). *)
Theorem getCategoryForEvent_categories (k c : string) :
  getCategoryForEvent k = Some c -> In c catalog_categories.
Proof.
  unfold getCategoryForEvent. destruct (obj_get k buildEventMap) as [i|] eqn:Hg; [|discriminate].
  intros [= <-].
  pose proof (catalog_all (fun _ i => existsb (String.eqb (ei_category i)) catalog_categories)
                ltac:(vm_compute; reflexivity) k i Hg) as H.
  apply existsb_exists in H as [x [Hx Ex]]. apply String.eqb_eq in Ex. subst x. exact Hx.
Qed.

Lemma getCategoryForEvent_categories_witness :
  getCategoryForEvent "100m h" = Some "sprints" /\ In "sprints" catalog_categories.
Proof.
  split; [vm_compute; reflexivity|].
  apply (getCategoryForEvent_categories "100m h" "sprints"). vm_compute. reflexivity.
Defined.

(** X2: a catalog event is tagged with gender ["mixed"] exactly when its
    key contains ["mix"], the same test [storeCrossReferencedData] uses. *)
Theorem getEventInfo_mixed (k : string) (i : EventInfo) :
  getEventInfo k = Some i -> (ei_gender i = Some "mixed" <-> contains "mix" k = true).
Proof.
  unfold getEventInfo. intros Hg.
  pose proof (catalog_all (fun k i => Bool.eqb
                 (match ei_gender i with Some g => String.eqb g "mixed" | None => false end)
                 (contains "mix" k)) ltac:(vm_compute; reflexivity) k i Hg) as H.
  apply Bool.eqb_prop in H. rewrite <- H.
  destruct (ei_gender i) as [g|]; [|split; discriminate].
  rewrite String.eqb_eq. split; congruence.
Qed.

Lemma getEventInfo_mixed_witness :
  getEventInfo "4x400mix" = Some (mkEventInfo "relays" "relay" (Some "mix") (Some "mixed")) /\ 
  (Some "mixed" = Some "mixed" <-> contains "mix" "4x400mix" = true).
Proof.
  split; [vm_compute; reflexivity|].
  apply (getEventInfo_mixed "4x400mix" (mkEventInfo "relays" "relay" (Some "mix") (Some "mixed"))).
  vm_compute. reflexivity.
Defined.

(** X3: a catalog key is an output of [normalizeEventName] for some
    descriptor exactly when it is not one of the fifteen keys listed in
    [unnormalized_keys]: "wt", the twelve track race-walk keys with an
    upper-case W, such as "20,000mW w" and "20,000mW walk", and "hmw w"
    and "marw w"; those can never be produced by parsing. *)
Theorem catalog_keys_normalizable (k : string) :
  isKnownEvent k = true ->
  ((exists d, normalizeEventName d = Some k) <-> ~ In k unnormalized_keys).
Proof.
  unfold isKnownEvent. destruct (obj_get k buildEventMap) as [i|] eqn:Hg; [|discriminate].
  intros _.
  pose proof (catalog_all (fun k _ =>
      if existsb (String.eqb k) unnormalized_keys
      then match normalizeEventName k with Some y => negb (String.eqb y k) | None => true end
      else match normalizeEventName k with Some y => String.eqb y k | None => false end)
      ltac:(vm_compute; reflexivity) k i Hg) as H. cbv beta in H.
  destruct (existsb (String.eqb k) unnormalized_keys) eqn:Ein.
  - apply existsb_exists in Ein as [x [Hx Ex]]. apply String.eqb_eq in Ex. subst x.
    split; [|intros Hn; contradiction].
    intros [d Hd]. apply normalizeEventName_canonical in Hd. rewrite Hd in H.
    rewrite String.eqb_refl in H. discriminate.
  - split.
    + intros _ Hin. assert (existsb (String.eqb k) unnormalized_keys = true)
        by (apply existsb_exists; exists k; split; [exact Hin | apply String.eqb_refl]).
      congruence.
    + intros _. exists k. destruct (normalizeEventName k) as [y|]; [|discriminate].
      apply String.eqb_eq in H. now subst.
Qed.

Lemma catalog_keys_normalizable_witness :
  isKnownEvent "hmw w" = true /\
  ((exists d, normalizeEventName d = Some "hmw w") <-> ~ In "hmw w" unnormalized_keys).
Proof.
  assert (H : isKnownEvent "hmw w" = true) by (vm_compute; reflexivity).
  split; [exact H | apply (catalog_keys_normalizable "hmw w" H)].
Defined.

(* ------------------------------------------------------------------ *)
Definition opt_in (o : option string) (l : list string) : Prop :=
  match o with Some x => In x l | None => True end.

Definition gender_names : list string := ["women"; "men"; "mixed"].

Definition category_names : list string := map fst categoryKeywords.

Lemma detect_gender_in l : opt_in (detect_gender l) gender_names.
Proof.
  unfold detect_gender.
  destruct (_ || _); [simpl; auto|].
  destruct (_ && _); [simpl; auto|].
  destruct (_ || _); simpl; auto.
Qed.

Lemma detect_category_in kws l : opt_in (detect_category kws l) (map fst kws).
Proof.
  induction kws as [|[c ks] kws IH]; simpl; [exact I|].
  destruct (existsb _ ks); simpl; auto.
  destruct (detect_category kws l); simpl in *; auto.
Qed.

Lemma detectSection_spec (line : string) (s : Section) :
  detectSection line = Some s ->
  opt_in (sec_gender s) gender_names /\ opt_in (sec_category s) category_names /\
  (sec_gender s <> None \/ sec_category s <> None).
Proof.
  unfold detectSection. cbv zeta.
  pose proof (detect_gender_in (js_toLowerCase line)) as Hg.
  pose proof (detect_category_in categoryKeywords (js_toLowerCase line)) as Hc.
  destruct (detect_gender _) as [g|], (detect_category _ _) as [c|];
    try discriminate; intros [= <-]; simpl;
    (split; [exact Hg|split; [exact Hc|]]); first [left; discriminate | right; discriminate].
Qed.


(** Header names. *)
Lemma header_names_length : forall n toks, (List.length toks <= n)%nat ->
  (List.length (header_names toks) <= List.length toks)%nat.
Proof.
  induction n as [|n IH]; intros toks Hn.
  - destruct toks; [simpl; lia | simpl in Hn; lia].
  - destruct toks as [|a [|b r2]]; [simpl; lia | simpl; lia |].
    simpl in Hn. cbn [header_names].
    destruct (number_token a && unit_token b).
    + destruct r2 as [|c r3]; [simpl; lia|].
      destruct (modifier_token c); cbn [List.length].
      * pose proof (IH r3 ltac:(simpl in Hn; lia)). lia.
      * pose proof (IH (c :: r3) ltac:(simpl in *; lia)). simpl in *. lia.
    + destruct (modifier_token b); cbn [List.length].
      * pose proof (IH r2 ltac:(lia)). lia.
      * pose proof (IH (b :: r2) ltac:(simpl; lia)). simpl in *. lia.
Qed.

Lemma normalized_events_length names :
  (List.length (normalized_events names) <= List.length names)%nat.
Proof.
  induction names as [|n names IH]; simpl; [lia|].
  destruct (normalizeEventName n) as [e|]; [destruct (String.eqb e "")|]; simpl; lia.
Qed.

Lemma normalized_events_canonical names e :
  In e (normalized_events names) -> normalizeEventName e = Some e.
Proof.
  unfold normalized_events. intros H. apply in_flat_map in H as [n [_ Hn]].
  destruct (normalizeEventName n) as [y|] eqn:Ey; [|destruct Hn].
  destruct (String.eqb y ""); [destruct Hn|].
  destruct Hn as [<-|[]]. exact (normalizeEventName_canonical _ _ Ey).
Qed.

Lemma detectTableHeaders_spec (line : string) (events : list string) (side : Side) :
  detectTableHeaders line = Some (events, side) ->
  events <> [] /\ (List.length events < List.length (split_tokens line))%nat /\
  Forall (fun e => normalizeEventName e = Some e) events.
Proof.
  unfold detectTableHeaders. cbv zeta.
  destruct (_ && _); [discriminate|].
  destruct (List.length (split_tokens line) <? 2)%nat eqn:Hlen; [discriminate|].
  apply Nat.ltb_ge in Hlen.
  assert (Hgoal : forall toks s', (List.length toks < List.length (split_tokens line))%nat ->
    match normalized_events (header_names toks) with
    | [] => None | events0 => Some (events0, s') end = Some (events, side) ->
    events <> [] /\ (List.length events < List.length (split_tokens line))%nat /\
    Forall (fun e => normalizeEventName e = Some e) events).
  { intros toks s' Ht Hm.
    destruct (normalized_events (header_names toks)) as [|e0 es] eqn:En; [discriminate|].
    injection Hm as <- _. split; [discriminate|]. split.
    - rewrite <- En. pose proof (normalized_events_length (header_names toks)).
      pose proof (header_names_length _ toks (le_n _)). lia.
    - apply Forall_forall. intros e He. rewrite <- En in He.
      exact (normalized_events_canonical _ _ He). }
  destruct (split_tokens line) as [|c0 rest] eqn:Ec; [simpl in Hlen; lia|].
  destruct (points_column c0).
  - apply (Hgoal rest Left). simpl. lia.
  - destruct (points_column (last (c0 :: rest) EmptyString)); [|discriminate].
    apply (Hgoal (removelast (c0 :: rest)) Right).
    rewrite removelast_firstn_len, length_firstn. simpl in *. lia.
Qed.

(** X4: a section found by [detectSection] has a gender among women, men,
    mixed (if any), a category among the keyword table's categories (if
    any), and at least one of the two. *)
Theorem detectSection_values (line : string) (s : Section) :
  detectSection line = Some s ->
  opt_in (sec_gender s) gender_names /\ opt_in (sec_category s) category_names /\
  (sec_gender s <> None \/ sec_category s <> None).
Proof. exact (detectSection_spec line s). Qed.

Lemma detectSection_values_witness :
  detectSection "WOMEN - Hurdles" = Some (mkSection (Some "women") (Some "hurdles")) /\
  opt_in (Some "women") gender_names /\ opt_in (Some "hurdles") category_names /\
  (Some "women" <> None \/ Some "hurdles" <> None).
Proof.
  assert (H : detectSection "WOMEN - Hurdles" = Some (mkSection (Some "women") (Some "hurdles")))
    by (vm_compute; reflexivity).
  split; [exact H | exact (detectSection_values _ _ H)].
Defined.

(** X5: a header found by [detectTableHeaders] has at least one event,
    fewer events than columns, and each event is a canonical name, fixed
    by [normalizeEventName]. *)
Theorem detectTableHeaders_events (line : string) (events : list string) (side : Side) :
  detectTableHeaders line = Some (events, side) ->
  events <> [] /\ (List.length events < List.length (split_tokens line))%nat /\
  Forall (fun e => normalizeEventName e = Some e) events.
Proof. exact (detectTableHeaders_spec line events side). Qed.

Lemma detectTableHeaders_events_witness :
  detectTableHeaders "Points 100m 200m 400m h 35 km W" =
    Some (["100m"; "200m"; "400m h"; "35km w"], Left) /\
  (["100m"; "200m"; "400m h"; "35km w"] <> [] /\
   (List.length ["100m"; "200m"; "400m h"; "35km w"] <
    List.length (split_tokens "Points 100m 200m 400m h 35 km W"))%nat /\
   Forall (fun e => normalizeEventName e = Some e) ["100m"; "200m"; "400m h"; "35km w"]).
Proof.
  assert (H : detectTableHeaders "Points 100m 200m 400m h 35 km W" =
    Some (["100m"; "200m"; "400m h"; "35km w"], Left)) by (vm_compute; reflexivity).
  split; [exact H | exact (detectTableHeaders_events _ _ _ H)].
Defined.

(* ------------------------------------------------------------------ *)
Lemma split_at_app (sep : ascii -> bool) (a : string) : forall cur s,
  str_has sep a = false -> split_at sep cur (a ++ s) = split_at sep (cur ++ a) s.
Proof.
  induction a as [|c a IH]; intros cur s H; simpl.
  - now rewrite str_app_nil_r.
  - simpl in H. apply orb_false_iff in H as [Hc Ha]. rewrite Hc, IH by exact Ha.
    now rewrite <- str_app_assoc.
Qed.

Definition is_space (c : ascii) : bool := Ascii.eqb c " ".

Lemma split_space_cons a s : str_has is_space a = false ->
  split_at is_space EmptyString (a ++ String " " s) = a :: split_at is_space EmptyString s.
Proof. intros H. rewrite split_at_app by exact H. reflexivity. Qed.

Lemma split_space_one a : str_has is_space a = false ->
  split_at is_space EmptyString a = [a].
Proof.
  intros H. replace (split_at is_space EmptyString a)
    with (split_at is_space EmptyString (a ++ EmptyString)) by now rewrite str_app_nil_r.
  rewrite split_at_app by exact H.
  reflexivity.
Qed.

(** X6: joining header tokens in [detectTableHeaders] loses no token:
    splitting the joined names at spaces gives back the tokens, when no
    token contains a space. *)
Theorem header_names_split (toks : list string) :
  Forall (fun t => str_has (fun c => Ascii.eqb c " ") t = false) toks ->
  flat_map (split_at (fun c => Ascii.eqb c " ") EmptyString) (header_names toks) = toks.
Proof.
  change (fun c => Ascii.eqb c " ") with is_space.
  assert (Hn : forall n toks, (List.length toks <= n)%nat ->
    Forall (fun t => str_has is_space t = false) toks ->
    flat_map (split_at is_space EmptyString) (header_names toks) = toks).
  { induction n as [|n IH]; intros ts Hl Hf.
    - destruct ts; [reflexivity | simpl in Hl; lia].
    - destruct ts as [|a [|b r2]]; [reflexivity| |].
      + inversion Hf; subst. simpl. rewrite split_space_one by assumption. reflexivity.
      + inversion Hf as [|? ? Ha Hf1]; subst. inversion Hf1 as [|? ? Hb Hf2]; subst.
        simpl in Hl. cbn [header_names].
        destruct (number_token a && unit_token b).
        * destruct r2 as [|c r3].
          -- simpl. rewrite split_space_cons, split_space_one by assumption. reflexivity.
          -- inversion Hf2 as [|? ? Hc Hf3]; subst.
             destruct (modifier_token c); cbn [flat_map String.append].
             ++ rewrite split_space_cons by assumption.
                rewrite split_space_cons by assumption. rewrite split_space_one by assumption.
                rewrite IH by (simpl in *; lia || assumption). reflexivity.
             ++ rewrite split_space_cons, split_space_one by assumption.
                rewrite IH by (simpl in *; lia || assumption). reflexivity.
        * destruct (modifier_token b).
          -- cbn [flat_map String.append].
             rewrite split_space_cons, split_space_one by assumption.
             rewrite IH by (simpl in *; lia || assumption). reflexivity.
          -- change (split_at is_space EmptyString a ++
                     flat_map (split_at is_space EmptyString) (header_names (b :: r2))
                     = a :: b :: r2).
             rewrite split_space_one by assumption. rewrite IH; [reflexivity | simpl; lia |].
             constructor; assumption. }
  intros H. exact (Hn _ toks (le_n _) H).
Qed.

Lemma header_names_split_witness :
  Forall (fun t => str_has (fun c => Ascii.eqb c " ") t = false) ["35"; "km"; "W"; "100m"; "h"] /\
  flat_map (split_at (fun c => Ascii.eqb c " ") EmptyString)
    (header_names ["35"; "km"; "W"; "100m"; "h"]) = ["35"; "km"; "W"; "100m"; "h"].
Proof.
  assert (H : Forall (fun t => str_has (fun c => Ascii.eqb c " ") t = false)
                ["35"; "km"; "W"; "100m"; "h"])
    by (repeat constructor).
  split; [exact H | exact (header_names_split _ H)].
Defined.

(* ------------------------------------------------------------------ *)
Lemma lower_char_idem c : lower_char (lower_char c) = lower_char c.
Proof. destruct c as [[] [] [] [] [] [] [] []]; vm_compute; reflexivity. Qed.

Lemma is_digit_lower c : is_digit (lower_char c) = is_digit c.
Proof. destruct c as [[] [] [] [] [] [] [] []]; vm_compute; reflexivity. Qed.

Lemma lower_toLowerCase s : js_toLowerCase (js_toLowerCase s) = js_toLowerCase s.
Proof.
  unfold js_toLowerCase. induction s as [|c s IH]; simpl; [reflexivity|].
  now rewrite lower_char_idem, IH.
Qed.

Lemma length_toLowerCase s : String.length (js_toLowerCase s) = String.length s.
Proof. unfold js_toLowerCase. induction s as [|c s IH]; simpl; congruence. Qed.

Lemma digits_toLowerCase s :
  forallb is_digit (list_ascii_of_string (js_toLowerCase s)) =
  forallb is_digit (list_ascii_of_string s).
Proof.
  unfold js_toLowerCase. induction s as [|c s IH]; simpl; [reflexivity|].
  now rewrite is_digit_lower, IH.
Qed.

(** X7: [isTableEnd] does not depend on letter case. *)
Theorem isTableEnd_case_insensitive (line : string) :
  isTableEnd (js_toLowerCase line) = isTableEnd line.
Proof.
  unfold isTableEnd, end_marker. rewrite lower_toLowerCase, length_toLowerCase, digits_toLowerCase.
  reflexivity.
Qed.

Lemma end_marker_digit c s : is_digit c = true -> end_marker (String c s) = false.
Proof. destruct c as [[] [] [] [] [] [] [] []]; vm_compute; first [reflexivity | discriminate]. Qed.

(** X8: a line that starts with a digit ends a table exactly when it is
    that single digit. *)
Theorem isTableEnd_digit_led (c : ascii) (s : string) :
  is_digit c = true -> isTableEnd (String c s) = String.eqb s EmptyString.
Proof.
  intros Hd. unfold isTableEnd. rewrite end_marker_digit by exact Hd. cbn [orb].
  destruct s as [|c' s]; simpl; [now rewrite Hd | reflexivity].
Qed.

Lemma isTableEnd_digit_led_witness :
  is_digit "1"%char = true /\ isTableEnd "1400 9.46 19.02" = String.eqb "400 9.46 19.02" EmptyString.
Proof.
  assert (H : is_digit "1"%char = true) by reflexivity.
  split; [exact H | exact (isTableEnd_digit_led "1"%char "400 9.46 19.02" H)].
Defined.

(* ------------------------------------------------------------------ *)
Definition entry_ok (x : ScoringEntry) : Prop :=
  (1 <= points x <= 1500)%Z /\
  parsePerformanceValue (performance x) = Some (performance x).

Definition events_ok (evs : obj (list ScoringEntry)) : Prop :=
  forall e xs, In (e, xs) evs ->
    normalizeEventName e = Some e /\ xs <> [] /\ Forall entry_ok xs.

Definition categories_ok (cats : obj (obj (list ScoringEntry))) : Prop :=
  forall c evs, In (c, evs) cats -> In c category_names /\ events_ok evs.

Definition table_ok (t : Table ScoringEntry) : Prop :=
  forall g cats, In (g, cats) t -> In g gender_names /\ categories_ok cats.

Lemma obj_get_or_cases {V} (d : V) k o : obj_get_or d k o = d \/ In (k, obj_get_or d k o) o.
Proof.
  unfold obj_get_or. destruct (obj_get k o) eqn:E; [right; now apply obj_get_In | left; reflexivity].
Qed.

Lemma table_ok_set g cats t : In g gender_names -> categories_ok cats -> table_ok t ->
  table_ok (obj_set g cats t).
Proof.
  intros Hg Hc Ht g' cats' Hin. apply obj_set_In in Hin as [[-> ->]|Hin]; auto.
Qed.

Lemma categories_ok_set c evs cats : In c category_names -> events_ok evs -> categories_ok cats ->
  categories_ok (obj_set c evs cats).
Proof.
  intros Hc He Hcs c' evs' Hin. apply obj_set_In in Hin as [[-> ->]|Hin]; auto.
Qed.

Lemma events_ok_set e xs evs : normalizeEventName e = Some e -> xs <> [] -> Forall entry_ok xs ->
  events_ok evs -> events_ok (obj_set e xs evs).
Proof.
  intros He Hne Hx Hevs e' xs' Hin. apply obj_set_In in Hin as [[-> ->]|Hin]; auto.
Qed.

Lemma parsePerformanceValue_self v p : parsePerformanceValue v = Some p -> p = v.
Proof.
  unfold parsePerformanceValue. destruct (_ || _); [discriminate|].
  destruct (forallb _ _); [congruence | discriminate].
Qed.

Lemma map_performances_ok hs vals p :
  In (Some p) (map_performances hs vals) -> parsePerformanceValue p = Some p.
Proof.
  unfold map_performances. intros H. apply in_map_iff in H as [i [Hi _]].
  destruct (nth_error vals i) as [v|]; [|discriminate].
  pose proof (parsePerformanceValue_self _ _ Hi) as ->. exact Hi.
Qed.

Lemma parseCrossReferencedRow_facts line hs side dr :
  parseCrossReferencedRow line hs side = Some dr ->
  row_events dr = hs /\
  (forall p, In (Some p) (row_performances dr) -> parsePerformanceValue p = Some p) /\
  (forall n, row_points dr = Some n -> (0 <= n <= 1500)%Z).
Proof.
  unfold parseCrossReferencedRow. destruct (reconstruct_tokens line) as [|first rest]; [discriminate|].
  assert (Hmk : forall pts vals, (forall n, pts = Some n -> (0 <= n <= 1500)%Z) ->
    Some (mkRow pts (map_performances hs vals) hs) = Some dr ->
    row_events dr = hs /\
    (forall p, In (Some p) (row_performances dr) -> parsePerformanceValue p = Some p) /\
    (forall n, row_points dr = Some n -> (0 <= n <= 1500)%Z)).
  { intros pts vals Hp [= <-]. simpl. split; [reflexivity|]. split; [|exact Hp].
    intros p. apply map_performances_ok. }
  assert (Hrange : forall o, points_rejected o = false -> forall n, o = Some n -> (0 <= n <= 1500)%Z).
  { intros o Hr n ->. simpl in Hr. apply orb_false_iff in Hr as [H1 H2].
    apply Z.ltb_ge in H1. apply Z.ltb_ge in H2. lia. }
  destruct side as [[|]|].
  - destruct (points_rejected (js_parseInt first)) eqn:Hr; [discriminate|].
    apply Hmk. exact (Hrange _ Hr).
  - destruct (points_rejected (js_parseInt (last (first :: rest) EmptyString))) eqn:Hr; [discriminate|].
    apply Hmk. exact (Hrange _ Hr).
  - apply Hmk. discriminate.
Qed.

Section Pipeline.

Variable getCategory : string -> option string.
Hypothesis getCategory_in : forall e c, getCategory e = Some c -> In c category_names.

Lemma store_pair_ok section g pts t pe :
  sec_gender section = Some g -> In g gender_names ->
  opt_in (sec_category section) category_names ->
  (1 <= pts <= 1500)%Z ->
  (forall p, fst pe = Some p -> parsePerformanceValue p = Some p) ->
  normalizeEventName (snd pe) = Some (snd pe) ->
  table_ok t -> table_ok (store_pair getCategory section pts t pe).
Proof.
  destruct pe as [perf e]. simpl. intros Hsg Hg Hc Hpts Hperf He Ht.
  unfold store_pair.
  destruct (negb (truthy perf) || String.eqb e "") eqn:Eskip; [exact Ht|].
  apply orb_false_iff in Eskip as [Etr _].
  destruct perf as [p|]; [|discriminate]. specialize (Hperf p eq_refl).
  rewrite Hsg.
  set (eG := if contains "mix" e then "mixed" else g).
  assert (HeG : In eG gender_names) by (unfold eG; destruct (contains "mix" e); [simpl; auto | exact Hg]).
  set (t1 := match obj_get eG t with Some _ => t | None => obj_set eG [] t end).
  assert (Ht1 : table_ok t1).
  { unfold t1. destruct (obj_get eG t); [exact Ht|].
    apply table_ok_set; [exact HeG | intros c evs [] | exact Ht]. }
  set (eC := let c := getCategory e in if truthy c then c else sec_category section).
  destruct (negb (truthy eC)) eqn:EC; [exact Ht1|].
  assert (HeC : forall cat, eC = Some cat -> In cat category_names).
  { intros cat. unfold eC. cbv zeta. destruct (truthy (getCategory e)).
    - apply getCategory_in.
    - intros Hs. rewrite Hs in Hc. exact Hc. }
  destruct eC as [cat|]; [|discriminate]. specialize (HeC cat eq_refl).
  apply table_ok_set; [exact HeG | | exact Ht1].
  assert (Hcats : categories_ok (obj_get_or [] eG t1)).
  { destruct (obj_get_or_cases [] eG t1) as [-> | Hin]; [intros c evs []|].
    exact (proj2 (Ht1 _ _ Hin)). }
  apply categories_ok_set; [exact HeC | | exact Hcats].
  assert (Hevs : events_ok (obj_get_or [] cat (obj_get_or [] eG t1))).
  { destruct (obj_get_or_cases [] cat (obj_get_or [] eG t1)) as [-> | Hin]; [intros c evs []|].
    exact (proj2 (Hcats _ _ Hin)). }
  apply events_ok_set; [exact He | | | exact Hevs].
  - destruct (obj_get_or [] e _); discriminate.
  - apply Forall_app. split.
    + destruct (obj_get_or_cases [] e (obj_get_or [] cat (obj_get_or [] eG t1))) as [-> | Hin];
        [constructor|]. exact (proj2 (proj2 (Hevs _ _ Hin))).
    + constructor; [|constructor]. split; [exact Hpts | exact Hperf].
Qed.

Lemma storeCrossReferencedData_ok section line hs side dr t :
  opt_in (sec_gender section) gender_names ->
  opt_in (sec_category section) category_names ->
  Forall (fun e => normalizeEventName e = Some e) hs ->
  parseCrossReferencedRow line hs side = Some dr ->
  table_ok t -> table_ok (storeCrossReferencedData getCategory section dr t).
Proof.
  intros Hg Hc Hhs Hrow Ht.
  destruct (parseCrossReferencedRow_facts _ _ _ _ Hrow) as (Hev & Hperf & Hpts).
  unfold storeCrossReferencedData.
  destruct (negb (truthy (sec_gender section)) || points_falsy (row_points dr)) eqn:E; [exact Ht|].
  apply orb_false_iff in E as [Eg Ep].
  destruct (sec_gender section) as [g|] eqn:Hsg; [|discriminate].
  destruct (row_points dr) as [n|] eqn:Hn; [|discriminate].
  specialize (Hpts n eq_refl). simpl in Ep. apply Z.eqb_neq in Ep.
  assert (Hrange : (1 <= n <= 1500)%Z) by lia.
  assert (Hpairs : forall pe, In pe (combine (row_performances dr) (row_events dr)) ->
    (forall p, fst pe = Some p -> parsePerformanceValue p = Some p) /\
    normalizeEventName (snd pe) = Some (snd pe)).
  { intros [perf e] Hin. simpl. split.
    - intros p ->. apply Hperf. exact (in_combine_l _ _ _ _ Hin).
    - apply in_combine_r in Hin. rewrite Hev in Hin.
      rewrite Forall_forall in Hhs. exact (Hhs e Hin). }
  assert (Hfold : forall l t, (forall pe, In pe l ->
      (forall p, fst pe = Some p -> parsePerformanceValue p = Some p) /\
      normalizeEventName (snd pe) = Some (snd pe)) ->
    table_ok t -> table_ok (fold_left (store_pair getCategory section n) l t)).
  { induction l as [|pe l IH]; intros t0 Hl Ht0; simpl; [exact Ht0|].
    apply IH; [intros pe' Hin; apply Hl; right; exact Hin|].
    destruct (Hl pe (or_introl eq_refl)) as [H1 H2].
    exact (store_pair_ok section g n t0 pe Hsg Hg Hc Hrange H1 H2 Ht0). }
  exact (Hfold _ t Hpairs Ht).
Qed.

Definition state_ok (st : ParseState) : Prop :=
  opt_in (sec_gender (currentSection st)) gender_names /\
  opt_in (sec_category (currentSection st)) category_names /\
  Forall (fun e => normalizeEventName e = Some e) (eventHeaders st) /\
  table_ok (tables_of st).

Lemma spread_section_ok cur info :
  opt_in (sec_gender cur) gender_names -> opt_in (sec_category cur) category_names ->
  opt_in (sec_gender info) gender_names -> opt_in (sec_category info) category_names ->
  opt_in (sec_gender (spread_section cur info)) gender_names /\
  opt_in (sec_category (spread_section cur info)) category_names.
Proof.
  unfold spread_section. simpl.
  destruct (sec_gender info), (sec_category info); simpl; auto.
Qed.

Lemma parse_line_ok st raw : state_ok st -> state_ok (parse_line getCategory st raw).
Proof.
  intros Hst. pose proof Hst as (Hg & Hc & Hh & Ht). unfold parse_line. cbv zeta.
  destruct (String.eqb (js_trim raw) EmptyString); [exact Hst|].
  destruct (detectSection (js_trim raw)) as [info|] eqn:Es.
  { destruct (detectSection_spec _ _ Es) as (Hig & Hic & _).
    destruct (spread_section_ok _ _ Hg Hc Hig Hic).
    unfold state_ok; cbn [currentSection eventHeaders tables_of]. split; [assumption|split; [assumption|split; assumption]]. }
  destruct (detectTableHeaders (js_trim raw)) as [[events side]|] eqn:Eh.
  { destruct (detectTableHeaders_spec _ _ _ Eh) as (_ & _ & He).
    destruct (0 <? List.length events)%nat; [|exact Hst].
    unfold state_ok; cbn [currentSection eventHeaders tables_of]. split; [assumption|split; [assumption|split; assumption]]. }
  destruct (inTable st && (0 <? List.length (eventHeaders st))%nat); [|exact Hst].
  destruct (isTableEnd (js_trim raw)).
  { unfold state_ok; cbn [currentSection eventHeaders tables_of]. split; [assumption|split; [assumption|split; [constructor|assumption]]]. }
  destruct (parseCrossReferencedRow (js_trim raw) (eventHeaders st) (pointsColumnPosition st))
    as [dr|] eqn:Er; [|exact Hst].
  destruct (row_points dr); [|exact Hst].
  unfold state_ok; cbn [currentSection eventHeaders tables_of]. split; [assumption|split; [assumption|split; [assumption|]]].
  exact (storeCrossReferencedData_ok _ _ _ _ _ _ Hg Hc Hh Er Ht).
Qed.

Lemma parseContentEnhanced_ok text t : table_ok t ->
  table_ok (parseContentEnhanced getCategory text t).
Proof.
  intros Ht. unfold parseContentEnhanced.
  assert (H : forall lines st, state_ok st -> state_ok (fold_left (parse_line getCategory) lines st)).
  { induction lines as [|l lines IH]; intros st Hst; simpl; [exact Hst|].
    apply IH, parse_line_ok, Hst. }
  refine (proj2 (proj2 (proj2 (H _ _ _)))).
  unfold parse_init, state_ok. cbn [currentSection eventHeaders tables_of sec_gender sec_category opt_in].
  split; [exact I|split; [exact I|split; [constructor|exact Ht]]].
Qed.

End Pipeline.

Lemma getCategoryForEvent_in e c : getCategoryForEvent e = Some c -> In c category_names.
Proof.
  unfold getCategoryForEvent. destruct (obj_get e buildEventMap) as [i|] eqn:Hg; [|discriminate].
  intros [= <-].
  pose proof (catalog_all (fun _ i => existsb (String.eqb (ei_category i)) category_names)
                ltac:(vm_compute; reflexivity) e i Hg) as H.
  apply existsb_exists in H as [x [Hx Ex]]. apply String.eqb_eq in Ex. subst x. exact Hx.
Qed.

(** X9: every table built by [parseContentEnhanced] from an empty table,
    with the catalog's category lookup, has genders among women, men,
    mixed, categories among the keyword table's categories, canonical
    event names, nonempty event lists, points between 1 and 1500 and
    performances that [parsePerformanceValue] keeps unchanged. *)
Theorem extract_tables_ok (text : string) :
  forall g cats, In (g, cats) (extract_tables text) ->
  In g gender_names /\
  forall c evs, In (c, evs) cats ->
  In c category_names /\
  forall e entries, In (e, entries) evs ->
  normalizeEventName e = Some e /\ entries <> [] /\
  Forall (fun x => (1 <= points x <= 1500)%Z /\
                   parsePerformanceValue (performance x) = Some (performance x)) entries.
Proof.
  exact (parseContentEnhanced_ok getCategoryForEvent getCategoryForEvent_in text []
           (fun g cats H => match H with end)).
Qed.

Definition sample_page : string := "Men sprints
Points 100m 200m
1400 9.46 19.02".

Lemma extract_tables_ok_witness :
  In "men" gender_names /\ In "sprints" category_names /\ normalizeEventName "100m" = Some "100m".
Proof.
  destruct (extract_tables_ok sample_page "men"
              (obj_get_or [] "men" (extract_tables sample_page))) as [Hg Hc];
    [vm_compute; left; reflexivity|].
  destruct (Hc "sprints" (obj_get_or [] "sprints"
              (obj_get_or [] "men" (extract_tables sample_page)))) as [Hs He];
    [vm_compute; left; reflexivity|].
  destruct (He "100m" (obj_get_or [] "100m" (obj_get_or [] "sprints"
              (obj_get_or [] "men" (extract_tables sample_page))))) as [Hn _];
    [vm_compute; left; reflexivity|].
  exact (conj Hg (conj Hs Hn)).
Defined.

(* ------------------------------------------------------------------ *)
(** ** Append-only storage *)

Definition lookup_event {A} (g c e : string) (t : Table A) : option (list A) :=
  match obj_get g t with
  | Some cats => match obj_get c cats with Some evs => obj_get e evs | None => None end
  | None => None
  end.

Definition extends {A} (t t' : Table A) : Prop :=
  forall g c e xs, lookup_event g c e t = Some xs ->
    exists ys, lookup_event g c e t' = Some (xs ++ ys).

Lemma extends_refl {A} (t : Table A) : extends t t.
Proof. intros g c e xs H. exists []. now rewrite List.app_nil_r. Qed.

Lemma extends_trans {A} (t1 t2 t3 : Table A) : extends t1 t2 -> extends t2 t3 -> extends t1 t3.
Proof.
  intros H12 H23 g c e xs H. destruct (H12 _ _ _ _ H) as [ys Hy].
  destruct (H23 _ _ _ _ Hy) as [zs Hz]. exists (ys ++ zs). now rewrite List.app_assoc.
Qed.

Lemma extends_new_key {A} k (t : Table A) : obj_get k t = None -> extends t (obj_set k [] t).
Proof.
  intros Hk g c e xs H. exists []. rewrite List.app_nil_r.
  unfold lookup_event in *. destruct (String.eqb_spec g k) as [->|Hne].
  - rewrite Hk in H. discriminate.
  - now rewrite obj_get_set_other by exact Hne.
Qed.

Lemma extends_push {A} G C E (x : list A) (t : Table A) :
  let cats := obj_get_or (V := obj (obj (list A))) [] G t in
  let evs := obj_get_or (V := obj (list A)) [] C cats in
  let entries := obj_get_or (V := list A) [] E evs in
  extends t (obj_set G (obj_set C (obj_set E (entries ++ x) evs) cats) t).
Proof.
  intros cats0 evs0 entries0 g c e xs H. subst cats0 evs0 entries0. unfold lookup_event in *.
  destruct (String.eqb_spec g G) as [Heqg|Hg];
    [subst g|rewrite obj_get_set_other by exact Hg; exists []; now rewrite List.app_nil_r].
  rewrite obj_get_set_same.
  unfold obj_get_or. set (og := obj_get G t) in *.
  destruct og as [cats|]; [|discriminate].
  destruct (String.eqb_spec c C) as [Heqc|Hc];
    [subst c|rewrite obj_get_set_other by exact Hc; exists []; now rewrite List.app_nil_r].
  rewrite obj_get_set_same.
  set (oc := obj_get C cats) in *.
  destruct oc as [evs|]; [|discriminate].
  destruct (String.eqb_spec e E) as [Heqe|He];
    [subst e|rewrite obj_get_set_other by exact He; exists []; now rewrite List.app_nil_r].
  rewrite obj_get_set_same. set (oe := obj_get E evs) in *.
  destruct oe; [|discriminate]. injection H as ->. exists x. reflexivity.
Qed.

Section Appends.

Variable getCategory : string -> option string.

Lemma store_pair_extends section pts t pe :
  extends t (store_pair getCategory section pts t pe).
Proof.
  destruct pe as [perf e]. unfold store_pair.
  destruct (negb (truthy perf) || String.eqb e "") eqn:Eskip; [apply extends_refl|].
  set (eG := if contains "mix" e then "mixed"
             else match sec_gender section with Some g => g | None => "" end).
  set (t1 := match obj_get eG t with Some _ => t | None => obj_set eG [] t end).
  assert (Ht1 : extends t t1).
  { unfold t1. destruct (obj_get eG t) eqn:E; [apply extends_refl | apply extends_new_key, E]. }
  set (eC := let c := getCategory e in if truthy c then c else sec_category section).
  destruct (negb (truthy eC)); [exact Ht1|].
  eapply extends_trans; [exact Ht1|]. apply extends_push.
Qed.

Lemma storeCrossReferencedData_extends section dr t :
  extends t (storeCrossReferencedData getCategory section dr t).
Proof.
  unfold storeCrossReferencedData. destruct (_ || _); [apply extends_refl|].
  generalize (combine (row_performances dr) (row_events dr)). intros l.
  revert t. induction l as [|pe l IH]; intros t; simpl; [apply extends_refl|].
  eapply extends_trans; [apply store_pair_extends | apply IH].
Qed.

Lemma parse_line_extends st raw :
  extends (tables_of st) (tables_of (parse_line getCategory st raw)).
Proof.
  unfold parse_line. cbv zeta.
  destruct (String.eqb _ _); [apply extends_refl|].
  destruct (detectSection _); [apply extends_refl|].
  destruct (detectTableHeaders _) as [[events side]|];
    [destruct (_ <? _)%nat; apply extends_refl|].
  destruct (_ && _); [|apply extends_refl].
  destruct (isTableEnd _); [apply extends_refl|].
  destruct (parseCrossReferencedRow _ _ _) as [dr|]; [|apply extends_refl].
  destruct (row_points dr); [apply storeCrossReferencedData_extends | apply extends_refl].
Qed.

Lemma parseContentEnhanced_extends text t :
  extends t (parseContentEnhanced getCategory text t).
Proof.
  unfold parseContentEnhanced.
  change t with (tables_of (parse_init t)) at 1. generalize (parse_init t). intros st.
  generalize (split_lines text). intros lines. revert st.
  induction lines as [|l lines IH]; intros st; simpl; [apply extends_refl|].
  eapply extends_trans; [apply parse_line_extends | apply IH].
Qed.

End Appends.

(** X10: parsing never removes or reorders stored entries: every event
    list already in the tables keeps its entries as a prefix. *)
Theorem parseContentEnhanced_appends (getCategory : string -> option string)
  (text : string) (t : Table ScoringEntry) (g c e : string) (xs : list ScoringEntry) :
  lookup_event g c e t = Some xs ->
  exists ys, lookup_event g c e (parseContentEnhanced getCategory text t) = Some (xs ++ ys).
Proof. exact (parseContentEnhanced_extends getCategory text t g c e xs). Qed.

Definition appends_sample_table : Table ScoringEntry :=
  [("men", [("sprints", [("100m", [mkEntry "9.46" 1400])])])].

Lemma parseContentEnhanced_appends_witness :
  lookup_event "men" "sprints" "100m" appends_sample_table = Some [mkEntry "9.46" 1400] /\
  exists ys, lookup_event "men" "sprints" "100m"
    (parseContentEnhanced getCategoryForEvent "Men sprints
Points 100m
1300 9.60" appends_sample_table) = Some ([mkEntry "9.46" 1400] ++ ys).
Proof.
  assert (H : lookup_event "men" "sprints" "100m" appends_sample_table = Some [mkEntry "9.46" 1400])
    by reflexivity.
  split; [exact H | exact (parseContentEnhanced_appends getCategoryForEvent _ _ _ _ _ _ H)].
Defined.

(** ** Rows need a header *)

(** X11: text without a table header line leaves the tables unchanged:
    rows are only stored under a detected header. *)
Theorem parseContentEnhanced_no_header (getCategory : string -> option string)
  (text : string) (t : Table ScoringEntry) :
  (forall l, In l (split_lines text) -> detectTableHeaders (js_trim l) = None) ->
  parseContentEnhanced getCategory text t = t.
Proof.
  intros Hnone. unfold parseContentEnhanced.
  assert (H : forall lines st, (forall l, In l lines -> detectTableHeaders (js_trim l) = None) ->
    inTable st = false ->
    inTable (fold_left (parse_line getCategory) lines st) = false /\
    tables_of (fold_left (parse_line getCategory) lines st) = tables_of st).
  { induction lines as [|l lines IH]; intros st Hl Hin; simpl; [auto|].
    assert (Hstep : inTable (parse_line getCategory st l) = false /\
                    tables_of (parse_line getCategory st l) = tables_of st).
    { unfold parse_line. cbv zeta.
      destruct (String.eqb _ _); [auto|].
      destruct (detectSection _); [simpl; auto|].
      rewrite (Hl l (or_introl eq_refl)). rewrite Hin. simpl. auto. }
    destruct Hstep as [H1 H2]. rewrite <- H2.
    apply IH; [intros l' Hl'; apply Hl; right; exact Hl' | exact H1]. }
  exact (proj2 (H _ (parse_init t) Hnone eq_refl)).
Qed.

Lemma parseContentEnhanced_no_header_witness :
  (forall l, In l (split_lines "Men sprints
1400 9.46 19.02") -> detectTableHeaders (js_trim l) = None) /\
  parseContentEnhanced getCategoryForEvent "Men sprints
1400 9.46 19.02" [] = [].
Proof.
  assert (H : forall l, In l (split_lines "Men sprints
1400 9.46 19.02") -> detectTableHeaders (js_trim l) = None).
  { intros l Hl. vm_compute in Hl.
    destruct Hl as [<-|[<-|[]]]; vm_compute; reflexivity. }
  split; [exact H | exact (parseContentEnhanced_no_header getCategoryForEvent _ [] H)].
Defined.

(* ------------------------------------------------------------------ *)
Definition leaf_size {A} (l : string * string * string * list A) : nat :=
  let '(_, _, _, xs) := l in List.length xs.

Lemma entry_count_spec {A} (events : obj (list A)) :
  entry_count events = list_sum (map (fun p => List.length (snd p)) events).
Proof.
  unfold entry_count.
  assert (H : forall acc, fold_left (fun sum '(_, data) => sum + List.length data)%nat events acc
                          = (acc + list_sum (map (fun p => List.length (snd p)) events))%nat).
  { induction events as [|[k d] events IH]; intros acc; simpl; [lia|].
    rewrite IH. lia. }
  rewrite H. reflexivity.
Qed.

Lemma stats_categories {A} gender (cats : obj (obj (list A))) : forall st,
  st_genders (fold_left (stats_category gender) cats st) = st_genders st /\
  st_totalEvents (fold_left (stats_category gender) cats st) =
    (st_totalEvents st + List.length (flat_map (fun '(c, evs) =>
       map (fun '(e, l) => (gender, c, e, l)) evs) cats))%nat /\
  st_totalEntries (fold_left (stats_category gender) cats st) =
    (st_totalEntries st + list_sum (map leaf_size (flat_map (fun '(c, evs) =>
       map (fun '(e, l) => (gender, c, e, l)) evs) cats)))%nat.
Proof.
  induction cats as [|[c evs] cats IH]; intros st; simpl; [lia|].
  destruct (IH (stats_category gender st (c, evs))) as (H1 & H2 & H3).
  rewrite H1, H2, H3. unfold stats_category. simpl.
  rewrite length_app, map_app, list_sum_app, length_map, entry_count_spec, map_map.
  split; [reflexivity|]. split; [lia|].
  assert (Hm : map (fun p => List.length (snd p)) evs =
               map (fun x => leaf_size (let '(e, l) := x in (gender, c, e, l))) evs).
  { apply map_ext. intros [e l]. reflexivity. }
  rewrite Hm. lia.
Qed.

Lemma getStatistics_spec {A} (t : Table A) :
  st_genders (getStatistics t) = List.length t /\
  st_totalEvents (getStatistics t) = List.length (leaves t) /\
  st_totalEntries (getStatistics t) = list_sum (map leaf_size (leaves t)).
Proof.
  unfold getStatistics, leaves.
  assert (H : forall (t' : Table A) st, st_genders (fold_left stats_gender t' st) = st_genders st /\
    st_totalEvents (fold_left stats_gender t' st) =
      (st_totalEvents st + List.length (flat_map (fun '(g, cats) =>
         flat_map (fun '(c, evs) => map (fun '(e, l) => (g, c, e, l)) evs) cats) t'))%nat /\
    st_totalEntries (fold_left stats_gender t' st) =
      (st_totalEntries st + list_sum (map leaf_size (flat_map (fun '(g, cats) =>
         flat_map (fun '(c, evs) => map (fun '(e, l) => (g, c, e, l)) evs) cats) t')))%nat).
  { induction t' as [|[g cats] t' IH]; intros st; cbn [fold_left flat_map]; [simpl; lia|].
    destruct (IH (stats_gender st (g, cats))) as (H1 & H2 & H3).
    rewrite H1, H2, H3. unfold stats_gender.
    destruct (stats_categories g cats (mkStatistics (st_genders st) (st_totalEvents st)
       (st_totalEntries st) (obj_set g (mkGenderStats (List.length cats) 0 0) (st_byGender st))))
      as (K1 & K2 & K3).
    rewrite K1, K2, K3. simpl. rewrite length_app, map_app, list_sum_app.
    split; [reflexivity | split; lia]. }
  destruct (H t (mkStatistics (List.length t) 0 0 [])) as (H1 & H2 & H3).
  rewrite H1, H2, H3. simpl. auto.
Qed.

(** X12: [getStatistics] counts the genders of the tables, and its totals
    are the number of (gender, category, event) lists and the sum of
    their lengths. *)
Theorem getStatistics_totals {A} (t : Table A) :
  st_genders (getStatistics t) = List.length t /\
  st_totalEvents (getStatistics t) = List.length (leaves t) /\
  st_totalEntries (getStatistics t) = list_sum (map leaf_size (leaves t)).
Proof. exact (getStatistics_spec t). Qed.

Lemma cleanEntries_length (l : list ScoringEntry) :
  (List.length (cleanEntries l) <= List.length l)%nat.
Proof.
  destruct (cleanEntries_props l) as [Hnd _].
  apply NoDup_incl_length; [exact (NoDup_map_inv _ _ Hnd)|].
  intros x Hx. exact (cleanEntries_In l x Hx).
Qed.

(** X13: the clean-and-sort pass keeps the gender and event counts of the
    statistics and never increases the number of entries. *)
Theorem cleanAndSortData_statistics (t : Table ScoringEntry) :
  st_genders (getStatistics (cleanAndSortData t)) = st_genders (getStatistics t) /\
  st_totalEvents (getStatistics (cleanAndSortData t)) = st_totalEvents (getStatistics t) /\
  (st_totalEntries (getStatistics (cleanAndSortData t)) <= st_totalEntries (getStatistics t))%nat.
Proof.
  destruct (getStatistics_spec (cleanAndSortData t)) as (A1 & A2 & A3).
  destruct (getStatistics_spec t) as (B1 & B2 & B3).
  rewrite A1, A2, A3, B1, B2, B3, leaves_cleanAndSortData.
  split; [unfold cleanAndSortData; apply length_map|].
  split; [apply length_map|].
  rewrite map_map. clear. induction (leaves t) as [|[[[g c] e] l] ls IH]; simpl; [lia|].
  pose proof (cleanEntries_length l). lia.
Qed.

(* ------------------------------------------------------------------ *)
(** ** Merging a prior export only appends *)

Definition grows {A X} (m : M A X) : Prop :=
  forall st, extends (tables A st) (tables A (fst (m st))).

Lemma grows_ret {A X} (x : X) : grows (ret A x).
Proof. intros st. apply extends_refl. Qed.

Lemma grows_throw {A X} msg : grows (throw A (X := X) msg).
Proof. intros st. apply extends_refl. Qed.

Lemma grows_lift {A X} (r : string + X) : grows (lift A r).
Proof. destruct r; [apply grows_throw | apply grows_ret]. Qed.

Lemma grows_log {A} l : grows (log A l).
Proof. intros st. apply extends_refl. Qed.

Lemma grows_bind {A X Y} (m : M A X) (k : X -> M A Y) :
  grows m -> (forall x, grows (k x)) -> grows (bind A m k).
Proof.
  intros Hm Hk st. unfold bind. specialize (Hm st).
  destruct (m st) as [st' [x|e]]; simpl in *; [|exact Hm].
  eapply extends_trans; [exact Hm | apply Hk].
Qed.

Lemma grows_modify {A} (f : Table A -> Table A) :
  (forall t, extends t (f t)) -> grows (modify A f).
Proof. intros Hf st. apply Hf. Qed.

Lemma grows_for_each {A X} (l : list X) (body : X -> M A unit) :
  (forall x, grows (body x)) -> grows (for_each A l body).
Proof.
  intros Hb. induction l as [|x l IH]; simpl; [apply grows_ret|].
  apply grows_bind; [apply Hb | intros _; exact IH].
Qed.

Lemma grows_try_catch {A} (body : M A unit) (handler : string -> M A unit) :
  grows body -> (forall e, grows (handler e)) -> grows (try_catch A body handler).
Proof.
  intros Hb Hh st. unfold try_catch. specialize (Hb st).
  destruct (body st) as [st' [[]|e]]; simpl in *; [exact Hb|].
  eapply extends_trans; [exact Hb | apply Hh].
Qed.

Lemma grows_object_entries {A} v : grows (object_entries A v).
Proof. destruct v; simpl; first [apply grows_ret | apply grows_throw]. Qed.

Lemma grows_spread {A} v : grows (spread A v).
Proof. destruct v; simpl; first [apply grows_ret | apply grows_throw]. Qed.

Lemma extends_ensure_gender {A} g (t : Table A) : extends t (ensure_gender A g t).
Proof.
  unfold ensure_gender. destruct (obj_get g t) eqn:E;
    [apply extends_refl | apply extends_new_key, E].
Qed.

Lemma extends_ensure_category {A} g c (t : Table A) : extends t (ensure_category A g c t).
Proof.
  unfold ensure_category, obj_get_or.
  destruct (obj_get (V := list (string * obj (list A))) g t) as [cats|] eqn:Hog;
    [change (obj_get (V := obj (obj (list A))) g t = Some cats) in Hog
    |change (obj_get (V := obj (obj (list A))) g t = None) in Hog].
  - destruct (obj_get c cats) eqn:Ec; [apply extends_refl|].
    intros g' c' e' xs H. exists []. rewrite List.app_nil_r. unfold lookup_event in *.
    destruct (String.eqb_spec g' g) as [->|Hg]; [|now rewrite obj_get_set_other by exact Hg].
    rewrite obj_get_set_same. rewrite Hog in H.
    destruct (String.eqb_spec c' c) as [->|Hc]; [now rewrite Ec in H|].
    now rewrite obj_get_set_other by exact Hc.
  - simpl. intros g' c' e' xs H. exists []. rewrite List.app_nil_r. unfold lookup_event in *.
    destruct (String.eqb_spec g' g) as [->|Hg];
      [now rewrite Hog in H | now rewrite obj_get_set_other by exact Hg].
Qed.

Lemma extends_ensure_event {A} g c e (t : Table A) : extends t (ensure_event A g c e t).
Proof.
  unfold ensure_event.
  destruct (obj_get e (obj_get_or [] c (obj_get_or [] g t))) eqn:Ee; [apply extends_refl|].
  intros g' c' e' xs H. exists []. rewrite List.app_nil_r. unfold lookup_event in *.
  destruct (String.eqb_spec g' g) as [->|Hg]; [|now rewrite obj_get_set_other by exact Hg].
  rewrite obj_get_set_same. unfold obj_get_or in *.
  destruct (obj_get (V := list (string * obj (list A))) g t) as [cats|] eqn:Hog;
    [change (obj_get (V := obj (obj (list A))) g t = Some cats) in Hog
    |change (obj_get (V := obj (obj (list A))) g t = None) in Hog];
    rewrite Hog in H; [|discriminate].
  destruct (String.eqb_spec c' c) as [->|Hc]; [|now rewrite obj_get_set_other by exact Hc].
  rewrite obj_get_set_same.
  destruct (obj_get (V := list (string * list A)) c cats) as [evs|] eqn:Hoc;
    [change (obj_get (V := obj (list A)) c cats = Some evs) in Hoc
    |change (obj_get (V := obj (list A)) c cats = None) in Hoc];
    rewrite Hoc in H; [|discriminate].
  destruct (String.eqb_spec e' e) as [->|He]; [now rewrite Ee in H|].
  now rewrite obj_get_set_other by exact He.
Qed.

Lemma grows_merge_existing {A} (of_json : json -> A) v :
  grows (merge_existing A of_json v).
Proof.
  unfold merge_existing.
  apply grows_bind; [apply grows_object_entries|]. intros gs.
  apply grows_for_each. intros [gender categories].
  apply grows_bind; [apply grows_modify, extends_ensure_gender|]. intros _.
  apply grows_bind; [apply grows_object_entries|]. intros cs.
  apply grows_for_each. intros [category events].
  apply grows_bind; [apply grows_modify, extends_ensure_category|]. intros _.
  apply grows_bind; [apply grows_object_entries|]. intros es.
  apply grows_for_each. intros [eventName entries].
  apply grows_bind; [apply grows_modify, extends_ensure_event|]. intros _.
  apply grows_bind; [apply grows_spread|]. intros xs.
  apply grows_modify. intros t. apply extends_push.
Qed.

(** X14: merging a prior export never removes or reorders stored entries:
    whatever the file holds, and also when the merge throws part-way and
    the error is caught, every event list already in the tables is still
    there afterwards with its old entries as a prefix. *)
Theorem loadAndMerge_appends (A : Type) (of_json : json -> A)
  (existsSync : string -> bool) (readFileSync : string -> string + string)
  (json_parse : string -> string + json) (filePath : string) (st : State A)
  (g c e : string) (xs : list A) :
  lookup_event g c e (tables A st) = Some xs ->
  exists ys, lookup_event g c e
    (tables A (fst (loadAndMerge A of_json existsSync readFileSync json_parse filePath st)))
    = Some (xs ++ ys).
Proof.
  revert st g c e xs. change (grows (loadAndMerge A of_json existsSync readFileSync json_parse filePath)).
  unfold loadAndMerge. destruct (negb (existsSync filePath)); [apply grows_ret|].
  apply grows_try_catch; [|intros; apply grows_log].
  apply grows_bind; [apply grows_lift|]. intros contents.
  apply grows_bind; [apply grows_lift|]. intros existingData.
  apply grows_bind; [apply grows_merge_existing|]. intros _. apply grows_log.
Qed.

Lemma loadAndMerge_appends_witness :
  exists ys, lookup_event "men" "sprints" "100m"
    (tables ScoringEntry (fst (loadAndMerge ScoringEntry
       (fun _ => mkEntry "9.50" 1390) (fun _ => true)
       (fun _ => inr "{men:{sprints:{100m:[{}]}}}")
       (fun _ => inr (JObj [("men", JObj [("sprints", JObj [("100m", JArr [JObj []])])])]))
       "scoring-tables.json"
       (mkState ScoringEntry [("men", [("sprints", [("100m", [mkEntry "9.46" 1400])])])] []))))
    = Some ([mkEntry "9.46" 1400] ++ ys).
Proof.
  apply (loadAndMerge_appends ScoringEntry (fun _ => mkEntry "9.50" 1390) (fun _ => true)
    (fun _ => inr "{men:{sprints:{100m:[{}]}}}")
    (fun _ => inr (JObj [("men", JObj [("sprints", JObj [("100m", JArr [JObj []])])])]))
    "scoring-tables.json"
    (mkState ScoringEntry [("men", [("sprints", [("100m", [mkEntry "9.46" 1400])])])] [])
    "men" "sprints" "100m" [mkEntry "9.46" 1400]).
  reflexivity.
Defined.

(* ------------------------------------------------------------------ *)
(** ** Per-gender statistics *)

(** The [byGender] record one gender's categories should produce. *)
Definition gender_summary {A} (cats : obj (obj (list A))) : GenderStats :=
  mkGenderStats (List.length cats)
    (list_sum (map (fun p => List.length (snd p)) cats))
    (list_sum (map (fun p => entry_count (snd p)) cats)).

Lemma obj_get_or_set_same {V} (d v : V) (k : string) o : obj_get_or d k (obj_set k v o) = v.
Proof. unfold obj_get_or. now rewrite obj_get_set_same. Qed.

Lemma stats_category_byGender {A} (g k : string) (cats : obj (obj (list A))) : forall st,
  obj_get g (st_byGender st) <> None ->
  obj_get k (st_byGender (fold_left (stats_category g) cats st)) =
  if String.eqb k g then
    let gs := obj_get_or (mkGenderStats 0 0 0) g (st_byGender st) in
    Some (mkGenderStats (gs_categories gs)
            (gs_events gs + list_sum (map (fun p => List.length (snd p)) cats))
            (gs_entries gs + list_sum (map (fun p => entry_count (snd p)) cats)))
  else obj_get k (st_byGender st).
Proof.
  induction cats as [|[c evs] cats IH]; intros st Hst; cbn [fold_left].
  - destruct (String.eqb_spec k g) as [->|_]; [|reflexivity].
    unfold obj_get_or. cbn [map list_sum].
    destruct (obj_get g (st_byGender st)) as [[a b d]|]; [|congruence].
    simpl. now rewrite !Nat.add_0_r.
  - rewrite IH by (unfold stats_category; cbn [st_byGender]; now rewrite obj_get_set_same).
    unfold stats_category. cbn [st_byGender snd].
    destruct (String.eqb_spec k g) as [->|Hk].
    + rewrite obj_get_or_set_same. unfold list_sum.
      cbn [gs_categories gs_events gs_entries map fold_right snd].
      f_equal. f_equal; lia.
    + now rewrite obj_get_set_other by exact Hk.
Qed.

Lemma stats_gender_byGender {A} (st : Statistics) (g k : string) (cats : obj (obj (list A))) :
  obj_get k (st_byGender (stats_gender st (g, cats))) =
  if String.eqb k g then Some (gender_summary cats) else obj_get k (st_byGender st).
Proof.
  unfold stats_gender.
  rewrite stats_category_byGender by (cbn [st_byGender]; now rewrite obj_get_set_same).
  cbn [st_byGender].
  destruct (String.eqb_spec k g) as [->|Hk].
  - unfold obj_get_or. rewrite obj_get_set_same. reflexivity.
  - now rewrite obj_get_set_other by exact Hk.
Qed.

Lemma stats_genders_byGender {A} (k : string) (t : Table A) : forall st,
  NoDup (map fst t) ->
  obj_get k (st_byGender (fold_left stats_gender t st)) =
  match obj_get k t with
  | Some cats => Some (gender_summary cats)
  | None => obj_get k (st_byGender st)
  end.
Proof.
  induction t as [|[g cats] t IH]; intros st Hnd; [reflexivity|].
  inversion Hnd as [|? ? Hg Hnd']; subst. cbn [fold_left obj_get].
  rewrite (IH _ Hnd'), stats_gender_byGender.
  destruct (String.eqb_spec k g) as [->|Hk].
  - destruct (obj_get g t) as [cats'|] eqn:E; [|reflexivity].
    exfalso. apply Hg. apply obj_get_In in E. exact (in_map fst _ _ E).
  - reflexivity.
Qed.

(** X15: in the statistics, each gender of the tables gets one [byGender]
    record: its number of categories, and the numbers of events and
    entries summed over its categories; no other gender gets one.  Object
    keys are distinct, which the precondition states. *)
Theorem getStatistics_byGender {A} (t : Table A) (g : string) :
  NoDup (map fst t) ->
  obj_get g (st_byGender (getStatistics t)) = option_map gender_summary (obj_get g t).
Proof.
  intros Hnd. unfold getStatistics. rewrite (stats_genders_byGender g t _ Hnd).
  destruct (obj_get g t); reflexivity.
Qed.

Lemma getStatistics_byGender_witness :
  NoDup (map fst [("men", [("sprints", [("100m", [mkEntry "9.46" 1400; mkEntry "9.50" 1390])]);
                           ("jumps", [("hj", [mkEntry "2.45" 1400])])]);
                  ("women", [("sprints", [("100m", [mkEntry "10.49" 1400])])])]) /\
  obj_get "men" (st_byGender (getStatistics
    [("men", [("sprints", [("100m", [mkEntry "9.46" 1400; mkEntry "9.50" 1390])]);
              ("jumps", [("hj", [mkEntry "2.45" 1400])])]);
     ("women", [("sprints", [("100m", [mkEntry "10.49" 1400])])])]))
  = Some (mkGenderStats 2 2 3).
Proof.
  assert (Hnd : NoDup (map fst [("men", [("sprints", [("100m", [mkEntry "9.46" 1400; mkEntry "9.50" 1390])]);
                           ("jumps", [("hj", [mkEntry "2.45" 1400])])]);
                  ("women", [("sprints", [("100m", [mkEntry "10.49" 1400])])])])).
  { simpl. constructor; [simpl; intros [H|[]]; discriminate|].
    constructor; [intros []|constructor]. }
  split; [exact Hnd|].
  rewrite (getStatistics_byGender _ "men" Hnd). vm_compute. reflexivity.
Defined.
